(** * Components/config.py: the typed configuration tree of enigma2

    A shallow embedding of [lib/python/Components/config.py] and the
    properties its specification states about it.  Python objects become
    records, mutation becomes explicit state passing, exceptions and the
    calls of [changed()] are threaded through a small result/writer monad. *)

From Stdlib Require Import ZArith List String Ascii Bool Lia.
From Stdlib Require Import Decimal DecimalString DecimalPos DecimalZ.
Import ListNotations.

Local Open Scope string_scope.
Local Open Scope list_scope.
Local Open Scope Z_scope.

(** ** Python primitives used by the module *)

Module Py.

(** Exceptions the modelled code can raise. *)
Inductive exn :=
| IndexError
| ValueError
| TypeError
| KeyError
| AttributeError
| UnboundLocalError
| AssertionError.

(** Calls of the notifier lists: [changed()], [changedFinal()] and the
    end notifiers of a sequence.  The callbacks themselves are external. *)
Inductive event :=
| Changed
| ChangedFinal
| EndReached.

(** Outcome of a method call: a value together with the notifier calls it
    made, an exception, or exhaustion of the recursion budget of a model
    that needs one. *)
Inductive result (A : Type) :=
| Ret (a : A) (evs : list event)
| Exc (e : exn)
| Fuel.

Arguments Ret {A} a evs.
Arguments Exc {A} e.
Arguments Fuel {A}.

Definition ret {A} (a : A) : result A := Ret a [].

Definition bind {A B} (m : result A) (f : A -> result B) : result B :=
  match m with
  | Ret a evs =>
      match f a with
      | Ret b evs' => Ret b (evs ++ evs')
      | Exc e => Exc e
      | Fuel => Fuel
      end
  | Exc e => Exc e
  | Fuel => Fuel
  end.

Definition emit (e : event) : result unit := Ret tt [e].

Definition raise {A} (e : exn) : result A := Exc e.

(** Position addressed by the index [i] in a list of length [n]: a negative
    index counts from the end. *)
Definition norm_index (n : nat) (i : Z) : option nat :=
  let j := if i <? 0 then i + Z.of_nat n else i in
  if (0 <=? j) && (j <? Z.of_nat n) then Some (Z.to_nat j) else None.

(** [l[i]] *)
Definition getitem {A} (l : list A) (i : Z) : result A :=
  match norm_index (List.length l) i with
  | Some j =>
      match nth_error l j with
      | Some a => ret a
      | None => Exc IndexError
      end
  | None => Exc IndexError
  end.

Fixpoint update {A} (l : list A) (n : nat) (a : A) : list A :=
  match l, n with
  | [], _ => []
  | _ :: t, O => a :: t
  | h :: t, S k => h :: update t k a
  end.

(** [l[i] = a] *)
Definition setitem {A} (l : list A) (i : Z) (a : A) : result (list A) :=
  match norm_index (List.length l) i with
  | Some j => ret (update l j a)
  | None => Exc IndexError
  end.

(** *** Strings *)

Definition is_digit (c : ascii) : bool :=
  let n := nat_of_ascii c in ((48 <=? n) && (n <=? 57))%nat.

(** White space as [strip()] and [int()] take it in a byte string: tab to
    carriage return, and the blank.  This is Python 2; on the text strings
    of Python 3 the characters 0x1c to 0x1f, 0x85 and 0xa0 are white space
    as well, so there the model is exact for texts without them. *)
Definition is_space (c : ascii) : bool :=
  let n := nat_of_ascii c in (((9 <=? n) && (n <=? 13)) || (n =? 32))%nat.

Definition lower_char (c : ascii) : ascii :=
  let n := nat_of_ascii c in
  if ((65 <=? n) && (n <=? 90))%nat then ascii_of_nat (n + 32) else c.

(** [s.lower()] *)
Fixpoint lower (s : string) : string :=
  match s with
  | EmptyString => EmptyString
  | String c s' => String (lower_char c) (lower s')
  end.

Fixpoint all_chars (p : ascii -> bool) (s : string) : bool :=
  match s with
  | EmptyString => true
  | String c s' => p c && all_chars p s'
  end.

(** [s.isdigit()] *)
Definition isdigit (s : string) : bool :=
  match s with
  | EmptyString => false
  | _ => all_chars is_digit s
  end.

Fixpoint lstrip (s : string) : string :=
  match s with
  | EmptyString => EmptyString
  | String c s' => if is_space c then lstrip s' else s
  end.

Fixpoint rstrip (s : string) : string :=
  match s with
  | EmptyString => EmptyString
  | String c s' =>
      match rstrip s' with
      | EmptyString => if is_space c then EmptyString else String c EmptyString
      | r => String c r
      end
  end.

(** [s.strip()] *)
Definition strip (s : string) : string := rstrip (lstrip s).

(** [sep.join(l)] *)
Definition join (sep : string) (l : list string) : string := String.concat sep l.

(** The pieces of [s] between the occurrences of a non-empty [sep], found
    from the left; [skip] counts the characters of a separator that has been
    recognised and is still being consumed. *)
Fixpoint split_go (sep : string) (skip : nat) (s : string) : list string :=
  match s with
  | EmptyString => [EmptyString]
  | String c s' =>
      match skip with
      | S k => split_go sep k s'
      | O =>
          if String.prefix sep s
          then EmptyString :: split_go sep (String.length sep - 1) s'
          else match split_go sep O s' with
               | p :: ps => String c p :: ps
               | [] => [String c EmptyString]
               end
      end
  end.

(** [s.split(sep)]; an empty separator is a [ValueError]. *)
Definition split (sep s : string) : result (list string) :=
  match sep with
  | EmptyString => Exc ValueError
  | _ => ret (split_go sep O s)
  end.

(** [s.split(c, 1)] for a one-character separator. *)
Fixpoint split1 (c : ascii) (s : string) : list string :=
  match s with
  | EmptyString => [EmptyString]
  | String a s' =>
      if Ascii.eqb a c then [EmptyString; s']
      else match split1 c s' with
           | p :: ps => String a p :: ps
           | [] => [String a EmptyString]
           end
  end.

(** The line feed, ["\n"]. *)
Definition newline : string := String "010"%char EmptyString.

(** [a < b] on strings. *)
Definition str_lt (a b : string) : bool := String.ltb a b.

(** *** Integers *)

(** [str(z)] *)
Definition str_of_Z (z : Z) : string := NilZero.string_of_int (Z.to_int z).

(** [len(str(z))] *)
Definition str_len (z : Z) : Z := Z.of_nat (String.length (str_of_Z z)).

(** [int(s)]: surrounding white space is ignored, an optional sign is
    followed by at least one decimal digit; anything else is a
    [ValueError]. *)
Definition int_digits (s : string) : result Z :=
  match NilZero.uint_of_string s with
  | Some d => ret (Z.of_uint d)
  | None => Exc ValueError
  end.

Definition int_of_str (s : string) : result Z :=
  match strip s with
  | String c d =>
      if Ascii.eqb c "-" then bind (int_digits d) (fun n => ret (- n))
      else if Ascii.eqb c "+" then int_digits d
      else int_digits (String c d)
  | EmptyString => Exc ValueError
  end.

(** ["%02d" % z] *)
Definition fmt02 (z : Z) : string :=
  let s := str_of_Z z in
  if (String.length s <? 2)%nat then String "0" s else s.

(** [s[:n]] and [s[n:]] for a non-negative [n]. *)
Fixpoint str_take (n : nat) (s : string) : string :=
  match n, s with
  | S n', String c s' => String c (str_take n' s')
  | _, _ => EmptyString
  end.

Fixpoint str_drop (n : nat) (s : string) : string :=
  match n, s with
  | S n', String _ s' => str_drop n' s'
  | _, _ => s
  end.

Fixpoint str_update (s : string) (n : nat) (c : ascii) : string :=
  match s, n with
  | EmptyString, _ => EmptyString
  | String _ s', O => String c s'
  | String a s', S n' => String a (str_update s' n' c)
  end.

(** [b[i] = x] on a bytearray, for a byte value [x]. *)
Definition bytearray_setitem (b : string) (i : Z) (x : Z) : result string :=
  if (x <? 0) || (255 <? x) then Exc ValueError
  else match norm_index (String.length b) i with
       | Some j => ret (str_update b j (ascii_of_nat (Z.to_nat x)))
       | None => Exc IndexError
       end.

(** *** Dictionaries

    A [dict] with string keys, as an association list in insertion order
    without repeated keys. *)

Section Dict.
Context {V : Type}.

Fixpoint dict_get (k : string) (d : list (string * V)) : option V :=
  match d with
  | [] => None
  | (k', v) :: d' => if String.eqb k k' then Some v else dict_get k d'
  end.

Definition dict_has (k : string) (d : list (string * V)) : bool :=
  match dict_get k d with Some _ => true | None => false end.

(** [d[k] = v]: an existing key keeps its place. *)
Fixpoint dict_set (k : string) (v : V) (d : list (string * V)) : list (string * V) :=
  match d with
  | [] => [(k, v)]
  | (k', v') :: d' =>
      if String.eqb k k' then (k', v) :: d' else (k', v') :: dict_set k v d'
  end.

(** [del d[k]] for a key that is present. *)
Fixpoint dict_del (k : string) (d : list (string * V)) : list (string * V) :=
  match d with
  | [] => []
  | (k', v') :: d' =>
      if String.eqb k k' then dict_del k d' else (k', v') :: dict_del k d'
  end.

End Dict.

(** *** Values *)

(** The Python values that occur as element values, choice identifiers and
    persisted forms.  [PDict] is a [dict] with string keys, the shape of the
    tree of persisted values. *)
#[warnings="-register-all"]
Inductive pyval :=
| PNone
| PBool (b : bool)
| PInt (z : Z)
| PStr (s : string)
| PSeq (l : list Z)
| PDict (d : list (string * pyval)).

(** [repr(v)]; exact for strings without quotes, backslashes and control
    characters. *)
Fixpoint repr (v : pyval) : string :=
  match v with
  | PNone => "None"
  | PBool true => "True"
  | PBool false => "False"
  | PInt z => str_of_Z z
  | PStr s => ("'" ++ s ++ "'")%string
  | PSeq l => ("[" ++ join ", " (map str_of_Z l) ++ "]")%string
  | PDict d =>
      ("{" ++ join ", " (map (fun kv => "'" ++ fst kv ++ "': " ++ repr (snd kv)) d)
           ++ "}")%string
  end.

(** [str(v)] *)
Definition str (v : pyval) : string :=
  match v with
  | PStr s => s
  | _ => repr v
  end.

(** Truth value of [v] in a condition. *)
Definition truthy (v : pyval) : bool :=
  match v with
  | PNone => false
  | PBool b => b
  | PInt z => negb (z =? 0)
  | PStr s => negb (String.eqb s "")
  | PSeq l => match l with [] => false | _ => true end
  | PDict d => match d with [] => false | _ => true end
  end.

Fixpoint list_Z_eqb (a b : list Z) : bool :=
  match a, b with
  | [], [] => true
  | x :: a', y :: b' => (x =? y) && list_Z_eqb a' b'
  | _, _ => false
  end.

(** [a == b]; a [bool] compares as the integer it is, two dicts are equal
    when they map the same keys to equal values. *)
Fixpoint eqb (a b : pyval) : bool :=
  match a, b with
  | PNone, PNone => true
  | PBool x, PBool y => Bool.eqb x y
  | PBool x, PInt y => (if x then 1 else 0) =? y
  | PInt x, PBool y => x =? (if y then 1 else 0)
  | PInt x, PInt y => x =? y
  | PStr x, PStr y => String.eqb x y
  | PSeq x, PSeq y => list_Z_eqb x y
  | PDict x, PDict y =>
      (List.length x =? List.length y)%nat
      && forallb (fun kv => match dict_get (fst kv) y with
                            | Some w => eqb (snd kv) w
                            | None => false
                            end) x
  | _, _ => false
  end.

(** [v is None] *)
Definition is_None (v : pyval) : bool :=
  match v with PNone => true | _ => false end.

Fixpoint mapM {A B} (f : A -> result B) (l : list A) : result (list B) :=
  match l with
  | [] => ret []
  | a :: l' =>
      match f a with
      | Ret b evs =>
          match mapM f l' with
          | Ret r evs' => Ret (b :: r) (evs ++ evs')
          | Exc e => Exc e
          | Fuel => Fuel
          end
      | Exc e => Exc e
      | Fuel => Fuel
      end
  end.

(** [s in l] for a tuple or list of strings. *)
Definition str_in (s : string) (l : list string) : bool :=
  existsb (String.eqb s) l.

End Py.

Import Py.

Notation "x <- m ;; f" := (bind m (fun x => f))
  (at level 61, m at next level, right associativity).
Notation "m ;;; f" := (bind m (fun _ => f))
  (at level 61, right associativity).

(** ** Action keys *)

Definition ACTIONKEY_LEFT := 0.
Definition ACTIONKEY_RIGHT := 1.
Definition ACTIONKEY_SELECT := 2.
Definition ACTIONKEY_DELETE := 3.
Definition ACTIONKEY_BACKSPACE := 4.
Definition ACTIONKEY_FIRST := 5.
Definition ACTIONKEY_LAST := 6.
Definition ACTIONKEY_ASCII := 8.
Definition ACTIONKEY_TIMEOUT := 9.
Definition ACTIONKEY_0 := 12.
Definition ACTIONKEY_9 := 21.

(** [key in ACTIONKEY_NUMBERS], that is [range(12, 12 + 10)]. *)
Definition in_ACTIONKEY_NUMBERS (key : Z) : bool := (12 <=? key) && (key <? 12 + 10).

Definition getKeyNumber (key : Z) : result Z :=
  if in_ACTIONKEY_NUMBERS key then ret (key - ACTIONKEY_0) else Exc AssertionError.

(** An edit action as an element receives it: the action key, and the code
    [getPrevAsciiCode()] answers while the action is handled. *)
Record action := Action { act_key : Z; act_code : Z }.

(** The digit an action enters in a sequence editor: [inr number], or
    [inl tt] when the handler returns at once because the ASCII code is no
    digit. *)
Definition digit_of (a : action) : result (unit + Z) :=
  if act_key a =? ACTIONKEY_ASCII then
    if (act_code a <? 48) || (act_code a >? 57) then ret (inl tt)
    else ret (inr (act_code a - 48))
  else
    number <- getKeyNumber (act_key a) ;; ret (inr number).

(** ** ConfigSequence and its positional variants *)

Module Sequence.

Record ConfigSequence := mkSeq {
  seperator : string;
  limits : list (Z * Z);
  default : list Z;
  _value : list Z;
  marked_pos : Z;
  (* number of callbacks registered with [addEndNotifier] *)
  endNotifier : nat
}.

Definition set_value (v : list Z) (s : ConfigSequence) : ConfigSequence :=
  mkSeq (seperator s) (limits s) (default s) v (marked_pos s) (endNotifier s).

Definition set_marked_pos (p : Z) (s : ConfigSequence) : ConfigSequence :=
  mkSeq (seperator s) (limits s) (default s) (_value s) p (endNotifier s).

(** [ConfigSequence.__init__]; the first assertion needs [limits[0]]. *)
Definition init (seperator : string) (limits : list (Z * Z)) (default : list Z)
  : result ConfigSequence :=
  match limits with
  | [] => Exc IndexError
  | _ => ret (mkSeq seperator limits default default 0 0)
  end.

(** The loop of [validate]: [n] iterations remain, [num] is the running
    index. *)
Fixpoint validate_loop (n : nat) (num : Z) (limits : list (Z * Z))
    (value : list Z) (max_pos : Z) : result (list Z * Z) :=
  match n with
  | O => ret (value, max_pos)
  | S n' =>
      lim <- getitem limits num ;;
      let max_pos := max_pos + str_len (snd lim) in
      v <- getitem value num ;;
      value <- (if v <? fst lim then setitem value num (fst lim) else ret value) ;;
      v <- getitem value num ;;
      value <- (if v >? snd lim then setitem value num (snd lim) else ret value) ;;
      validate_loop n' (num + 1) limits value max_pos
  end.

Fixpoint call_end_notifiers (n : nat) : result unit :=
  match n with
  | O => ret tt
  | S n' => emit EndReached ;;; call_end_notifiers n'
  end.

Definition validate (s : ConfigSequence) : result ConfigSequence :=
  r <- validate_loop (List.length (_value s)) 0 (limits s) (_value s) 0 ;;
  let s := set_value (fst r) s in
  let max_pos := snd r in
  s <- (if marked_pos s >=? max_pos then
          call_end_notifiers (endNotifier s) ;;;
          ret (set_marked_pos (max_pos - 1) s)
        else ret s) ;;
  if marked_pos s <? 0 then ret (set_marked_pos 0 s) else ret s.

Definition block_lens (limits : list (Z * Z)) : list Z :=
  map (fun x => str_len (snd x)) limits.

Definition sum (l : list Z) : Z := fold_left Z.add l 0.

Definition validatePos (s : ConfigSequence) : ConfigSequence :=
  let s := if marked_pos s <? 0 then set_marked_pos 0 s else s in
  let total_len := sum (block_lens (limits s)) in
  if marked_pos s >=? total_len then set_marked_pos (total_len - 1) s else s.

(** The loop of [handleKey] that finds the block under the cursor. *)
Fixpoint find_block (n : nat) (block_len : list Z) (marked_pos pos blocknumber : Z)
    (block_len_total : list Z) : result (Z * list Z) :=
  match n with
  | O => ret (blocknumber, block_len_total)
  | S n' =>
      bl <- getitem block_len blocknumber ;;
      let pos := pos + bl in
      let block_len_total := block_len_total ++ [pos] in
      if pos - 1 >=? marked_pos
      then find_block n' block_len marked_pos pos blocknumber block_len_total
      else find_block n' block_len marked_pos pos (blocknumber + 1) block_len_total
  end.

(** The loop of the [ACTIONKEY_LAST] branch. *)
Fixpoint last_loop (n : nat) (num : Z) (limits : list (Z * Z)) (max_pos : Z) : result Z :=
  match n with
  | O => ret max_pos
  | S n' =>
      lim <- getitem limits num ;;
      last_loop n' (num + 1) limits (max_pos + str_len (snd lim))
  end.

(** [10 ** e]; a negative exponent would give a float, which no value of
    the model is, and is reported as a [TypeError]. *)
Definition pow10 (e : Z) : result Z :=
  if e <? 0 then Exc TypeError else ret (10 ^ e).

Definition handleKey (a : action) (s : ConfigSequence) : result ConfigSequence :=
  let key := act_key a in
  if key =? ACTIONKEY_FIRST then
    ret (validatePos (set_marked_pos 0 s))
  else if key =? ACTIONKEY_LEFT then
    ret (validatePos (set_marked_pos (marked_pos s - 1) s))
  else if key =? ACTIONKEY_RIGHT then
    ret (validatePos (set_marked_pos (marked_pos s + 1) s))
  else if key =? ACTIONKEY_LAST then
    max_pos <- last_loop (List.length (_value s)) 0 (limits s) 0 ;;
    ret (validatePos (set_marked_pos (max_pos - 1) s))
  else if in_ACTIONKEY_NUMBERS key || (key =? ACTIONKEY_ASCII) then
    d <- digit_of a ;;
    match d with
    | inl _ => ret s
    | inr number =>
        let block_len := block_lens (limits s) in
        r <- find_block (List.length block_len) block_len (marked_pos s) 0 0 [0] ;;
        let blocknumber := fst r in
        let block_len_total := snd r in
        lim <- getitem (limits s) blocknumber ;;
        let number_len := str_len (snd lim) in
        blt <- getitem block_len_total blocknumber ;;
        let posinblock := marked_pos s - blt in
        v <- getitem (_value s) blocknumber ;;
        let oldvalue := Z.abs v in
        hi <- pow10 (number_len - posinblock) ;;
        lo <- pow10 (number_len - posinblock - 1) ;;
        let olddec := oldvalue mod hi - oldvalue mod lo in
        let newvalue := oldvalue - olddec + lo * number in
        value <- setitem (_value s) blocknumber newvalue ;;
        let s := set_marked_pos (marked_pos s + 1) (set_value value s) in
        s <- validate s ;;
        emit Changed ;;;
        ret s
    end
  else ret s.

(** [tostring], [saveSingle] and [fromstring]; they read [self.seperator]
    and [self.limits] only, which are their first arguments here. *)
Definition saveSingle (v : Z) : string := str_of_Z v.

Definition tostring (seperator : string) (val : list Z) : string :=
  join seperator (map saveSingle val).

Fixpoint int_all (l : list string) : result (list Z) :=
  match l with
  | [] => ret []
  | x :: l' => n <- int_of_str x ;; r <- int_all l' ;; ret (n :: r)
  end.

Definition fromstring (seperator : string) (limits : list (Z * Z)) (value : string)
  : result (list Z) :=
  parts <- split seperator value ;;
  r <- int_all parts ;;
  ret (r ++ map fst (skipn (List.length r) limits)).

End Sequence.

(** ** ConfigIP (and ConfigCECAddress, whose methods are the same text) *)

Module IP.

Import Sequence.

Definition ip_limits : list (Z * Z) := [(0, 255); (0, 255); (0, 255); (0, 255)].
Definition cec_limits : list (Z * Z) := [(0, 15); (0, 15); (0, 15); (0, 15)].

Record ConfigIP := mkIP {
  seq : ConfigSequence;
  block_len : list Z;
  marked_block : Z;
  overwrite : bool;
  auto_jump : bool
}.

Definition set_seq (q : ConfigSequence) (s : ConfigIP) : ConfigIP :=
  mkIP q (block_len s) (marked_block s) (overwrite s) (auto_jump s).

Definition set_marked_block (b : Z) (s : ConfigIP) : ConfigIP :=
  mkIP (seq s) (block_len s) b (overwrite s) (auto_jump s).

Definition set_overwrite (o : bool) (s : ConfigIP) : ConfigIP :=
  mkIP (seq s) (block_len s) (marked_block s) o (auto_jump s).

(** [ConfigIP.__init__] *)
Definition init (default : list Z) (auto_jump : bool) : result ConfigIP :=
  q <- Sequence.init "." ip_limits default ;;
  ret (mkIP q (block_lens (limits q)) 0 true auto_jump).

(** [ConfigCECAddress.__init__] *)
Definition init_cec (default : list Z) (auto_jump : bool) : result ConfigIP :=
  q <- Sequence.init "." cec_limits default ;;
  ret (mkIP q (block_lens (limits q)) 0 true auto_jump).

Definition len_limits (s : ConfigIP) : Z := Z.of_nat (List.length (limits (seq s))).

(** The body of [handleKey]; [self] stands for [self.handleKey], which the
    method calls on itself. *)
Definition handleKey_body (self : action -> ConfigIP -> result ConfigIP)
    (a : action) (s : ConfigIP) : result ConfigIP :=
  let key := act_key a in
  if key =? ACTIONKEY_LEFT then
    let s := if marked_block s >? 0 then set_marked_block (marked_block s - 1) s else s in
    ret (set_overwrite true s)
  else if key =? ACTIONKEY_RIGHT then
    let s := if marked_block s <? len_limits s - 1
             then set_marked_block (marked_block s + 1) s else s in
    ret (set_overwrite true s)
  else if key =? ACTIONKEY_FIRST then
    ret (set_overwrite true (set_marked_block 0 s))
  else if key =? ACTIONKEY_LAST then
    ret (set_overwrite true (set_marked_block (len_limits s - 1) s))
  else if in_ACTIONKEY_NUMBERS key || (key =? ACTIONKEY_ASCII) then
    d <- digit_of a ;;
    match d with
    | inl _ => ret s
    | inr number =>
        oldvalue <- getitem (_value (seq s)) (marked_block s) ;;
        (* [inl]: the branch returned; [inr]: carry on after the [if] *)
        r <- (if overwrite s then
                value <- setitem (_value (seq s)) (marked_block s) number ;;
                ret (inr (set_overwrite false (set_seq (set_value value (seq s)) s)))
              else
                let oldvalue := oldvalue * 10 in
                let newvalue := oldvalue + number in
                jump <- (if auto_jump s then
                           lim <- getitem (limits (seq s)) (marked_block s) ;;
                           ret ((newvalue >? snd lim)
                                && (marked_block s <? len_limits s - 1))
                         else ret false) ;;
                if jump : bool then
                  s <- self (Action ACTIONKEY_RIGHT (act_code a)) s ;;
                  s <- self a s ;;
                  ret (inl s)
                else
                  value <- setitem (_value (seq s)) (marked_block s) newvalue ;;
                  ret (inr (set_seq (set_value value (seq s)) s))) ;;
        match r with
        | inl s => ret s
        | inr s =>
            v <- getitem (_value (seq s)) (marked_block s) ;;
            bl <- getitem (block_len s) (marked_block s) ;;
            s <- (if str_len v >=? bl
                  then self (Action ACTIONKEY_RIGHT (act_code a)) s
                  else ret s) ;;
            q <- validate (seq s) ;;
            emit Changed ;;;
            ret (set_seq q s)
        end
    end
  else ret s.

(** [handleKey] with the nesting of its calls of itself bounded by [fuel].
    Three levels are all it ever uses (a digit that jumps to the next
    block, the same digit there, the move right after it), see
    [handleKey_rec_fuel]. *)
Fixpoint handleKey_rec (fuel : nat) (a : action) (s : ConfigIP) : result ConfigIP :=
  match fuel with
  | O => Fuel
  | S fuel' => handleKey_body (handleKey_rec fuel') a s
  end.

Definition handleKey (a : action) (s : ConfigIP) : result ConfigIP :=
  handleKey_rec 3 a s.

End IP.

(** ** ConfigClock *)

Module Clock.

Import Sequence.

Definition clock_limits : list (Z * Z) := [(0, 23); (0, 59)].

(** A [ConfigClock] is a [ConfigSequence] over [clock_limits]; [hour] and
    [minute] are what [localtime(default)] gives. *)
Definition init (hour minute : Z) : result ConfigSequence :=
  Sequence.init ":" clock_limits [hour; minute].

Definition increment (s : ConfigSequence) : result ConfigSequence :=
  m <- getitem (_value s) 1 ;;
  value <- (if m =? 59 then
              h <- getitem (_value s) 0 ;;
              value <- (if h <? 23 then setitem (_value s) 0 (h + 1)
                        else setitem (_value s) 0 0) ;;
              setitem value 1 0
            else
              setitem (_value s) 1 (m + 1)) ;;
  emit Changed ;;;
  ret (set_value value s).

Definition decrement (s : ConfigSequence) : result ConfigSequence :=
  m <- getitem (_value s) 1 ;;
  value <- (if m =? 0 then
              h <- getitem (_value s) 0 ;;
              value <- (if h >? 0 then setitem (_value s) 0 (h - 1)
                        else setitem (_value s) 0 23) ;;
              setitem value 1 59
            else
              setitem (_value s) 1 (m - 1)) ;;
  emit Changed ;;;
  ret (set_value value s).

(** The hour as the editor shows it: on the 12 hour display 0 and 12
    read 12 and the afternoon hours read 1 to 11. *)
Definition display_hour (wide : bool) (hour : Z) : Z :=
  if wide then
    let hour := if hour >? 11 then hour - 12 else hour in
    if hour =? 0 then 12 else hour
  else hour.

(** The digits [handleKey] turns down: the [return] statements between
    the reading of the digit and the scratch buffer.  [hour] is the hour as
    displayed. *)
Definition illegal (wide : bool) (marked_pos hour digit : Z) : bool :=
  (if wide then
     ((marked_pos =? 0) && (digit >=? 2))
     || ((marked_pos =? 1) && (hour >? 9) && (digit >=? 3))
     || ((marked_pos =? 1) && (hour <? 10) && (digit =? 0))
   else
     ((marked_pos =? 0) && (digit >=? 3))
     || ((marked_pos =? 1) && (hour >? 19) && (digit >=? 4)))
  || ((marked_pos =? 2) && (digit >=? 6)).

(** [ConfigClock.handleKey]; [wide] is [config.usage.time.wide.value], the
    setting of the 12 hour display. *)
Definition handleKey (wide : bool) (a : action) (s : ConfigSequence)
  : result ConfigSequence :=
  let key := act_key a in
  if (key =? ACTIONKEY_DELETE) && wide then
    h <- getitem (_value s) 0 ;;
    if h <? 12 then
      value <- setitem (_value s) 0 (h + 12) ;;
      s <- validate (set_value value s) ;;
      emit Changed ;;;
      ret s
    else ret s
  else if (key =? ACTIONKEY_BACKSPACE) && wide then
    h <- getitem (_value s) 0 ;;
    if h >=? 12 then
      value <- setitem (_value s) 0 (h - 12) ;;
      s <- validate (set_value value s) ;;
      emit Changed ;;;
      ret s
    else ret s
  else if in_ACTIONKEY_NUMBERS key || (key =? ACTIONKEY_ASCII) then
    d <- digit_of a ;;
    match d with
    | inl _ => ret s
    | inr digit =>
        hour <- getitem (_value s) 0 ;;
        let pmadjust := if wide && (hour >? 11) then 12 else 0 in
        let hour := display_hour wide hour in
        if illegal wide (marked_pos s) hour digit then ret s
        else
          minute <- getitem (_value s) 1 ;;
          let value := (fmt02 hour ++ fmt02 minute)%string in
          value <- bytearray_setitem value (marked_pos s) (digit + 48) ;;
          hour <- int_of_str (str_take 2 value) ;;
          minute <- int_of_str (str_drop 2 value) ;;
          let hour := if wide then
                        (if hour =? 12 then 0 else if hour >? 12 then 10 else hour)
                        + pmadjust
                      else if hour >? 23 then 20 else hour in
          value <- setitem (_value s) 0 hour ;;
          value <- setitem value 1 minute ;;
          s <- validate (set_marked_pos (marked_pos s + 1) (set_value value s)) ;;
          emit Changed ;;;
          ret s
    end
  else Sequence.handleKey a s.

(** [n] calls of [increment] in a row. *)
Fixpoint increment_n (n : nat) (s : ConfigSequence) : result ConfigSequence :=
  match n with
  | O => ret s
  | S n' => s <- increment s ;; increment_n n' s
  end.

End Clock.

(** ** choicesList *)

Module Choices.

(** An entry of a choices list: a bare identifier or an
    [(identifier, description)] tuple. *)
Inductive choice :=
| Plain (x : pyval)
| Tuple (id descr : pyval).

(** [choicesList]: [self.type] and [self.choices] together.  The dict of
    [LIST_TYPE_DICT] maps identifiers to descriptions, in insertion order. *)
Inductive choicesList :=
| LIST_TYPE_LIST (choices : list choice)
| LIST_TYPE_DICT (choices : list (pyval * pyval)).

(** [x[0]] for a value [x] that is no tuple and is false in a condition. *)
Definition subscript0 (x : pyval) : result pyval :=
  match x with
  | PStr _ | PSeq _ => Exc IndexError
  | PDict _ => Exc KeyError
  | _ => Exc TypeError
  end.

(** [not isinstance(x, tuple) and x or x[0]] *)
Definition ident (c : choice) : result pyval :=
  match c with
  | Tuple id _ => ret id
  | Plain x => if truthy x then ret x else subscript0 x
  end.

(** [ret or [""]] *)
Definition or_empty (l : list pyval) : list pyval :=
  match l with
  | [] => [PStr ""]
  | _ => l
  end.

Section WithPython.

(** [six.PY2]: whether the interpreter is Python 2. *)
Variable PY2 : bool.

Definition __list__ (c : choicesList) : result (list pyval) :=
  match c with
  | LIST_TYPE_LIST choices =>
      r <- mapM ident choices ;; ret (or_empty r)
  | LIST_TYPE_DICT choices =>
      if PY2 then ret (or_empty (map fst choices))
      else Exc UnboundLocalError
  end.

Definition __iter__ (c : choicesList) : result (list pyval) :=
  match c with
  | LIST_TYPE_LIST choices =>
      r <- mapM ident choices ;; ret (or_empty r)
  | LIST_TYPE_DICT choices => ret (or_empty (map fst choices))
  end.

Definition raw_len (c : choicesList) : nat :=
  match c with
  | LIST_TYPE_LIST choices => List.length choices
  | LIST_TYPE_DICT choices => List.length choices
  end.

(** [len(self.choices) or 1] *)
Definition __len__ (c : choicesList) : Z :=
  match raw_len c with
  | O => 1
  | n => Z.of_nat n
  end.

Definition __getitem__ (c : choicesList) (index : Z) : result pyval :=
  if (index =? 0) && (raw_len c =? 0)%nat then ret (PStr "")
  else match c with
       | LIST_TYPE_LIST choices =>
           r <- getitem choices index ;;
           match r with
           | Tuple id _ => ret id
           | Plain x => ret x
           end
       | LIST_TYPE_DICT choices => getitem (map fst choices) index
       end.

(** Position of the first element of [l] that satisfies [p]. *)
Fixpoint find_index {A} (p : A -> bool) (l : list A) : option Z :=
  match l with
  | [] => None
  | a :: l' => if p a then Some 0
               else match find_index p l' with
                    | Some i => Some (i + 1)
                    | None => None
                    end
  end.

Definition index (c : choicesList) (value : pyval) : result Z :=
  if PY2 then
    match __list__ c with
    | Ret l evs =>
        match find_index (String.eqb (str value)) (map str l) with
        | Some i => Ret i evs
        | None => ret 0
        end
    | Exc ValueError | Exc IndexError => ret 0
    | Exc e => Exc e
    | Fuel => Fuel
    end
  else
    l <- __list__ c ;;
    match find_index (fun x => eqb x value) l with
    | Some i => ret i
    | None => Exc ValueError
    end.

Definition default (c : choicesList) : pyval :=
  match c with
  | LIST_TYPE_LIST [] => PStr ""
  | LIST_TYPE_LIST (Tuple id _ :: _) => id
  | LIST_TYPE_LIST (Plain x :: _) => x
  | LIST_TYPE_DICT [] => PStr ""
  | LIST_TYPE_DICT ((k, _) :: _) => k
  end.

End WithPython.

End Choices.

(** ** ConfigElement and the variants that persist through it *)

Module Element.

Import Choices.

(** The class of an element, with the attributes its constructor fixes. *)
Inductive kind :=
| ConfigBoolean
| ConfigSequence (seperator : string) (limits : list (Z * Z))
| ConfigSelection (choices : choicesList).

Record ConfigElement := mkElement {
  cls : kind;
  _value : pyval;
  default : pyval;
  (* [None], or the text written to the settings file *)
  saved_value : pyval;
  save_disabled : bool;
  save_forced : bool;
  callNotifiersOnSaveAndCancel : bool;
  lastValue : pyval
}.

Definition set__value (v : pyval) (e : ConfigElement) : ConfigElement :=
  mkElement (cls e) v (default e) (saved_value e) (save_disabled e) (save_forced e)
            (callNotifiersOnSaveAndCancel e) (lastValue e).

Definition set_saved_value (v : pyval) (e : ConfigElement) : ConfigElement :=
  mkElement (cls e) (_value e) (default e) v (save_disabled e) (save_forced e)
            (callNotifiersOnSaveAndCancel e) (lastValue e).

(** [ConfigElement.__init__] followed by the assignments of the variant's
    constructor. *)
Definition new (k : kind) (default : pyval) : ConfigElement :=
  mkElement k default default PNone false false false default.

Definition ConfigBoolean_init (default : pyval) : ConfigElement :=
  new ConfigBoolean default.

Definition ConfigSequence_init (seperator : string) (limits : list (Z * Z))
    (default : list Z) : result ConfigElement :=
  match limits with
  | [] => Exc IndexError
  | _ => ret (new (ConfigSequence seperator limits) (PSeq default))
  end.

Definition ConfigSelection_init (choices : choicesList) (default : option pyval)
  : ConfigElement :=
  match default with
  | Some d => new (ConfigSelection choices) d
  | None => new (ConfigSelection choices) (Choices.default choices)
  end.

Definition trueValues : list string := ["1"; "enable"; "on"; "true"; "yes"].

Definition changed : result unit := emit Changed.
Definition changedFinal : result unit := emit ChangedFinal.

Definition getValue (e : ConfigElement) : pyval := _value e.

Fixpoint chars (s : string) : list string :=
  match s with
  | EmptyString => []
  | String c s' => String c EmptyString :: chars s'
  end.

Definition fromstring (e : ConfigElement) (value : pyval) : result pyval :=
  match cls e with
  | ConfigBoolean => ret (PBool (str_in (lower (str value)) trueValues))
  | ConfigSequence seperator limits =>
      match value with
      | PStr v => r <- Sequence.fromstring seperator limits v ;; ret (PSeq r)
      | _ => Exc AttributeError
      end
  | ConfigSelection _ => ret value
  end.

Definition tostring (e : ConfigElement) (value : pyval) : result string :=
  match cls e with
  | ConfigBoolean =>
      ret (if truthy value && str_in (lower (str value)) trueValues
           then "True" else "False")
  | ConfigSequence seperator _ =>
      match value with
      | PSeq l => ret (Sequence.tostring seperator l)
      | PStr v => ret (join seperator (chars v))
      | PDict d => ret (join seperator (map fst d))
      | _ => Exc TypeError
      end
  | ConfigSelection _ => ret (str value)
  end.

Section WithPython.

Variable PY2 : bool.

(** [ConfigElement.setValue] *)
Definition ConfigElement_setValue (e : ConfigElement) (value : pyval)
  : result ConfigElement :=
  changed ;;;
  ret (set__value value e).

(** [ConfigSelection.setValue]; [_descr], a cache of the description, is
    not part of the state. *)
Definition ConfigSelection_setValue (e : ConfigElement) (value : pyval)
  : result ConfigElement :=
  match cls e with
  | ConfigSelection choices =>
      it <- __iter__ choices ;;
      v <- (if str_in (str value) (map str it) then
              i <- index PY2 choices value ;;
              __getitem__ choices i
            else ret (default e)) ;;
      changed ;;;
      ret (set__value v e)
  | _ => Exc AttributeError
  end.

(** [self.value = value], through the property of the element's class. *)
Definition setValue (e : ConfigElement) (value : pyval) : result ConfigElement :=
  match cls e with
  | ConfigSelection _ => ConfigSelection_setValue e value
  | _ => ConfigElement_setValue e value
  end.

(** [ConfigElement.load] *)
Definition ConfigElement_load (e : ConfigElement) : result ConfigElement :=
  v <- (if is_None (saved_value e) then ret (default e)
        else fromstring e (saved_value e)) ;;
  setValue e v.

(** [ConfigSelection.load] *)
Definition ConfigSelection_load (e : ConfigElement) : result ConfigElement :=
  match cls e with
  | ConfigSelection choices =>
      let sv := saved_value e in
      if is_None sv then setValue e (default e)
      else
        i <- index PY2 choices sv ;;
        v <- __getitem__ choices i ;;
        setValue e v
  | _ => Exc AttributeError
  end.

Definition load (e : ConfigElement) : result ConfigElement :=
  match cls e with
  | ConfigSelection _ => ConfigSelection_load e
  | _ => ConfigElement_load e
  end.

(** [ConfigElement.save], which no modelled variant overrides. *)
Definition save (e : ConfigElement) : result ConfigElement :=
  e <- (if save_disabled e
           || (eqb (getValue e) (default e) && negb (save_forced e))
        then ret (set_saved_value PNone e)
        else
          t <- tostring e (getValue e) ;;
          ret (set_saved_value (PStr t) e)) ;;
  (if callNotifiersOnSaveAndCancel e then changedFinal else ret tt) ;;;
  ret e.



(** [ConfigSelection.handleKey] *)
Definition ConfigSelection_handleKey (key : Z) (e : ConfigElement)
  : result ConfigElement :=
  match cls e with
  | ConfigSelection choices =>
      let nchoices := __len__ choices in
      if nchoices >? 1 then
        i <- index PY2 choices (getValue e) ;;
        if key =? ACTIONKEY_LEFT then
          v <- __getitem__ choices ((i + nchoices - 1) mod nchoices) ;; setValue e v
        else if key =? ACTIONKEY_RIGHT then
          v <- __getitem__ choices ((i + 1) mod nchoices) ;; setValue e v
        else if key =? ACTIONKEY_FIRST then
          v <- __getitem__ choices 0 ;; setValue e v
        else if key =? ACTIONKEY_LAST then
          v <- __getitem__ choices (nchoices - 1) ;; setValue e v
        else ret e
      else ret e
  | _ => Exc AttributeError
  end.

End WithPython.

End Element.

(** ** The containers: ConfigSubsection, ConfigSubList, ConfigSubDict *)

Module Tree.

Import Element.

(** A member of the configuration tree.  [stored_values] is the cache of
    persisted values a container keeps for the keys of its children. *)
#[warnings="-register-all"]
Inductive node :=
| Elem (e : ConfigElement)
| Subsection (items : list (string * node)) (stored_values : list (string * pyval))
| SubList (items : list node) (stored_values : list (string * pyval))
| SubDict (items : list (pyval * node)) (stored_values : list (string * pyval)).

(** [ConfigSubsection()], [ConfigSubList()], [ConfigSubDict()], [Config()] *)
Definition ConfigSubsection_init : node := Subsection [] [].
Definition ConfigSubList_init : node := SubList [] [].
Definition ConfigSubDict_init : node := SubDict [] [].
Definition Config_init : node := Subsection [] [].

(** [dict(values)] for the value a container is given as its
    [saved_value]. *)
Definition to_dict (values : pyval) : result (list (string * pyval)) :=
  match values with
  | PDict d => ret d
  | PStr EmptyString => ret []
  | PStr _ => Exc ValueError
  | PSeq [] => ret []
  | _ => Exc TypeError
  end.

Fixpoint depth (n : node) : nat :=
  match n with
  | Elem _ => 1
  | Subsection items _ =>
      S (fold_right (fun kc m => Nat.max (depth (snd kc)) m) O items)
  | SubList items _ =>
      S (fold_right (fun c m => Nat.max (depth c) m) O items)
  | SubDict items _ =>
      S (fold_right (fun kc m => Nat.max (depth (snd kc)) m) O items)
  end.

Fixpoint enumerate_from {A} (i : nat) (l : list A) : list (nat * A) :=
  match l with
  | [] => []
  | a :: l' => (i, a) :: enumerate_from (S i) l'
  end.

(** [str(i)] for a list position. *)
Definition str_of_nat (i : nat) : string := str_of_Z (Z.of_nat i).

Section WithPython.

Variable PY2 : bool.

(** [load()] of a member: an element loads itself, a container tells each
    child in turn. *)
Fixpoint load (n : node) : result node :=
  match n with
  | Elem e => e <- Element.load PY2 e ;; ret (Elem e)
  | Subsection items stored =>
      items <- mapM (fun kc => c <- load (snd kc) ;; ret (fst kc, c)) items ;;
      ret (Subsection items stored)
  | SubList items stored =>
      items <- mapM load items ;;
      ret (SubList items stored)
  | SubDict items stored =>
      items <- mapM (fun kc => c <- load (snd kc) ;; ret (fst kc, c)) items ;;
      ret (SubDict items stored)
  end.

Fixpoint save (n : node) : result node :=
  match n with
  | Elem e => e <- Element.save e ;; ret (Elem e)
  | Subsection items stored =>
      items <- mapM (fun kc => c <- save (snd kc) ;; ret (fst kc, c)) items ;;
      ret (Subsection items stored)
  | SubList items stored =>
      items <- mapM save items ;;
      ret (SubList items stored)
  | SubDict items stored =>
      items <- mapM (fun kc => c <- save (snd kc) ;; ret (fst kc, c)) items ;;
      ret (SubDict items stored)
  end.

(** Reading [n.saved_value]: the value, and the member afterwards, since
    [ConfigSubsection.getSavedValue] updates [stored_values] in place. *)
Fixpoint getSavedValue (n : node) : node * pyval :=
  match n with
  | Elem e => (n, saved_value e)
  | Subsection items stored =>
      let r :=
        (fix loop (items : list (string * node)) (res : list (string * pyval)) :=
           match items with
           | [] => ([], res)
           | (key, val) :: rest =>
               let (val', sv) := getSavedValue val in
               let res := if negb (is_None sv) then dict_set key sv res
                          else if dict_has key res then dict_del key res
                          else res in
               let (rest', res') := loop rest res in
               ((key, val') :: rest', res')
           end) items stored in
      (Subsection (fst r) (snd r), PDict (snd r))
  | SubList items stored =>
      let r :=
        (fix loop (i : nat) (items : list node) (res : list (string * pyval)) :=
           match items with
           | [] => ([], res)
           | val :: rest =>
               let (val', sv) := getSavedValue val in
               let res := if negb (is_None sv) then dict_set (str_of_nat i) sv res
                          else res in
               let (rest', res') := loop (S i) rest res in
               (val' :: rest', res')
           end) O items [] in
      (SubList (fst r) stored, PDict (snd r))
  | SubDict items stored =>
      let r :=
        (fix loop (items : list (pyval * node)) (res : list (string * pyval)) :=
           match items with
           | [] => ([], res)
           | (key, val) :: rest =>
               let (val', sv) := getSavedValue val in
               let res := if negb (is_None sv) then dict_set (str key) sv res
                          else res in
               let (rest', res') := loop rest res in
               ((key, val') :: rest', res')
           end) items [] in
      (SubDict (fst r) stored, PDict (snd r))
  end.

(** The loop of [ConfigSubList.setSavedValue] over the stored values;
    [assign c val] stands for [c.saved_value = val]. *)
Fixpoint sublist_loop (assign : node -> pyval -> result node)
    (entries : list (string * pyval)) (items : list node) : result (list node) :=
  match entries with
  | [] => ret items
  | (key, val) :: rest =>
      k <- int_of_str key ;;
      items <- (if k <? Z.of_nat (List.length items) then
                  c <- getitem items k ;;
                  c <- assign c val ;;
                  setitem items k c
                else ret items) ;;
      sublist_loop assign rest items
  end.

(** The assignment [n.saved_value = values]: a plain attribute of an
    element, [setSavedValue] of a container.  A container hands parts of
    [values] to its children; [fuel] bounds the nesting, and [depth n] is
    enough of it. *)
Fixpoint setSavedValue_rec (fuel : nat) (n : node) (values : pyval) : result node :=
  match fuel with
  | O => Fuel
  | S fuel' =>
      match n with
      | Elem e => ret (Elem (set_saved_value values e))
      | Subsection items _ =>
          values <- to_dict values ;;
          items <- mapM (fun kc =>
                     match dict_get (fst kc) values with
                     | Some value =>
                         if is_None value then ret kc
                         else c <- setSavedValue_rec fuel' (snd kc) value ;;
                              ret (fst kc, c)
                     | None => ret kc
                     end) items ;;
          ret (Subsection items values)
      | SubList items _ =>
          stored <- to_dict values ;;
          items <- sublist_loop (setSavedValue_rec fuel') stored items ;;
          ret (SubList items stored)
      | SubDict items _ =>
          stored <- to_dict values ;;
          items <- mapM (fun kc =>
                     match dict_get (str (fst kc)) stored with
                     | Some value =>
                         c <- setSavedValue_rec fuel' (snd kc) value ;;
                         ret (fst kc, c)
                     | None => ret kc
                     end) items ;;
          ret (SubDict items stored)
      end
  end.

Definition setSavedValue (n : node) (values : pyval) : result node :=
  setSavedValue_rec (depth n) n values.

(** [ConfigSubsection.__setattr__(name, value)] for a member [value].
    Under the name ["saved_value"] the member would be taken for a mapping
    of persisted values, which it is not. *)
Definition __setattr__ (n : node) (name : string) (value : node) : result node :=
  match n with
  | Subsection items stored =>
      if String.eqb name "saved_value" then Exc TypeError
      else
        match dict_get name stored with
        | Some x =>
            if negb (is_None x) then
              value <- setSavedValue value x ;;
              value <- load value ;;
              ret (Subsection (dict_set name value items) stored)
            else ret (Subsection (dict_set name value items) stored)
        | None => ret (Subsection (dict_set name value items) stored)
        end
  | _ => Exc AttributeError
  end.

(** [ConfigSubsection.__getattr__(name)] *)
Definition __getattr__ (n : node) (name : string) : result node :=
  match n with
  | Subsection items _ =>
      match dict_get name items with
      | Some c => ret c
      | None => Exc AttributeError
      end
  | _ => Exc AttributeError
  end.

(** [ConfigSubList.append(item)] *)
Definition append (n : node) (item : node) : result node :=
  match n with
  | SubList items stored =>
      let i := str_of_nat (List.length items) in
      match dict_get i stored with
      | Some x =>
          item <- setSavedValue item x ;;
          item <- load item ;;
          ret (SubList (items ++ [item]) stored)
      | None => ret (SubList (items ++ [item]) stored)
      end
  | _ => Exc AttributeError
  end.

(** [dict.__setitem__] on the children of a [ConfigSubDict]. *)
Fixpoint items_set (key : pyval) (item : node) (items : list (pyval * node))
  : list (pyval * node) :=
  match items with
  | [] => [(key, item)]
  | (k, c) :: rest =>
      if eqb k key then (k, item) :: rest else (k, c) :: items_set key item rest
  end.

Fixpoint items_get (key : pyval) (items : list (pyval * node)) : option node :=
  match items with
  | [] => None
  | (k, c) :: rest => if eqb k key then Some c else items_get key rest
  end.

(** Lists and dicts cannot be keys of a dict. *)
Definition hashable (key : pyval) : bool :=
  match key with
  | PSeq _ | PDict _ => false
  | _ => true
  end.

(** [ConfigSubDict.__setitem__(key, item)] *)
Definition __setitem__ (n : node) (key : pyval) (item : node) : result node :=
  match n with
  | SubDict items stored =>
      if hashable key then
        match dict_get (str key) stored with
        | Some x =>
            item <- setSavedValue item x ;;
            item <- load item ;;
            ret (SubDict (items_set key item items) stored)
        | None => ret (SubDict (items_set key item items) stored)
        end
      else Exc TypeError
  | _ => Exc AttributeError
  end.

End WithPython.

End Tree.

(** ** Config: the root of the tree, [pickle] and [unpickle] *)

Module Codec.

Import Element Tree.

(** The key [sorted] compares by in [pickle_this]:
    [str(x[0]) if x[0].isdigit() else x[0].lower()]. *)
Definition sort_key (key : string) : string :=
  if isdigit key then str (PStr key) else lower key.

(** [sorted(l, key=...)]: a stable sort; an element goes in front of the
    first one whose key is not smaller than its own. *)
Fixpoint insert_by {A} (key : A -> string) (x : A) (l : list A) : list A :=
  match l with
  | [] => [x]
  | y :: l' => if str_lt (key y) (key x) then y :: insert_by key x l'
               else x :: y :: l'
  end.

Definition sorted_by {A} (key : A -> string) (l : list A) : list A :=
  fold_right (insert_by key) [] l.

(** What [pickle_this] appends to [result] for the entry [name] with the
    value [val]; for a dict these are the entries of its own call of
    [pickle_this], see [pickle_this_eq]. *)
Fixpoint pickle_entry (name : string) (val : pyval) : list string :=
  match val with
  | PDict topickle =>
      List.concat (map snd
        (sorted_by (fun kr => sort_key (fst kr))
           (map (fun kv => (fst kv, pickle_entry (join "." [name; fst kv]) (snd kv)))
                topickle)))
  | _ => [name; "="; str val; newline]
  end.

(** [pickle_this(prefix, topickle, result)]: the strings appended to
    [result]. *)
Definition pickle_this (prefix : string) (topickle : list (string * pyval))
  : list string :=
  pickle_entry prefix (PDict topickle).

(** [pickle()]: the text, and the tree after [self.saved_value] was read. *)
Definition pickle (config : node) : node * string :=
  let (config, saved) := getSavedValue config in
  match saved with
  | PDict d => (config, join "" (pickle_this "config" d))
  | _ => (config, "")
  end.

(** The strings [pickle] joins. *)
Definition pickle_result (config : node) : list string :=
  match snd (getSavedValue config) with
  | PDict d => pickle_this "config" d
  | _ => []
  end.

(** [names[1:-1]] and [names[-1]] *)
Definition middle (names : list string) : list string := removelast (tl names).
Definition last_name (names : list string) : string := last names "".

(** The walk of [unpickle] from [base] along [names[1:-1]], creating
    missing dicts, and the assignment [base[names[-1]] = val] at its end. *)
Fixpoint put (path : list string) (name : string) (val : string)
    (base : list (string * pyval)) : result (list (string * pyval)) :=
  match path with
  | [] => ret (dict_set name (PStr val) base)
  | n :: rest =>
      match dict_get n base with
      | Some (PDict sub) =>
          sub <- put rest name val sub ;; ret (dict_set n (PDict sub) base)
      | Some _ =>
          (* the walk has reached a string *)
          match rest with
          | [] => Exc TypeError
          | _ => Exc AttributeError
          end
      | None =>
          sub <- put rest name val [] ;; ret (dict_set n (PDict sub) base)
      end
  end.

(** One turn of the loop of [unpickle]. *)
Definition unpickle_line (line : string) (configbase : list (string * pyval))
  : result (list (string * pyval)) :=
  match line with
  | EmptyString => ret configbase
  | String "#" _ => ret configbase
  | _ =>
      match split1 "=" line with
      | [name; val] =>
          let val := strip val in
          names <- split "." name ;;
          put (middle names) (last_name names) val configbase
      | _ => ret configbase
      end
  end.

Fixpoint unpickle_lines (lines : list string) (configbase : list (string * pyval))
  : result (list (string * pyval)) :=
  match lines with
  | [] => ret configbase
  | line :: rest =>
      configbase <- unpickle_line line configbase ;;
      unpickle_lines rest configbase
  end.

(** [unpickle(lines)] with [base_file=True], the load of the settings
    file. *)
Definition unpickle (config : node) (lines : list string) : result node :=
  configbase <- unpickle_lines lines [] ;;
  setSavedValue config (PDict configbase).

End Codec.

(** ** Vocabulary of the properties *)

Module Props.

Import Sequence.

(** Every field of [value] lies within the bounds [limits] gives it. *)
Definition in_bounds (limits : list (Z * Z)) (value : list Z) : Prop :=
  Forall2 (fun lim v => fst lim <= v <= snd lim) limits value.

(** An action that enters a digit: a number key, or an ASCII action whose
    code is that of a digit. *)
Definition digit_action (a : action) : Prop :=
  in_ACTIONKEY_NUMBERS (act_key a) = true
  \/ (act_key a = ACTIONKEY_ASCII /\ 48 <= act_code a <= 57).

(** The actions [acts], one after the other, on a [ConfigSequence]. *)
Fixpoint handleKeys (acts : list action) (s : ConfigSequence) : result ConfigSequence :=
  match acts with
  | [] => ret s
  | a :: rest => s <- Sequence.handleKey a s ;; handleKeys rest s
  end.

(** The actions [acts], one after the other, on a [ConfigIP]. *)
Fixpoint ip_handleKeys (acts : list action) (s : IP.ConfigIP) : result IP.ConfigIP :=
  match acts with
  | [] => ret s
  | a :: rest => s <- IP.handleKey a s ;; ip_handleKeys rest s
  end.

(** What [validate] makes of one field. *)
Definition clamp (lim : Z * Z) (v : Z) : Z :=
  let v := if v <? fst lim then fst lim else v in
  if v >? snd lim then snd lim else v.

Definition clamp_all (limits : list (Z * Z)) (value : list Z) : list Z :=
  map (fun p => clamp (fst p) (snd p)) (combine limits value).

(** Width of the text of the fields: the sum of the block lengths. *)
Definition total_len (limits : list (Z * Z)) : Z :=
  fold_right (fun lim acc => str_len (snd lim) + acc) 0 limits.

(** The actions [acts], one after the other, on a [ConfigClock]. *)
Fixpoint clock_handleKeys (wide : bool) (acts : list action) (s : ConfigSequence)
  : result ConfigSequence :=
  match acts with
  | [] => ret s
  | a :: rest => s <- Clock.handleKey wide a s ;; clock_handleKeys wide rest s
  end.



(** The bounds are ranges, and there is one for every field of the value. *)
Definition well_formed (limits : list (Z * Z)) (value : list Z) : Prop :=
  limits <> [] /\ List.length value = List.length limits
  /\ Forall (fun lim => fst lim <= snd lim) limits.

(** The state of a sequence editor the constructor and the handlers keep:
    the bounds are well formed and the cursor is on a column of the text. *)
Definition seq_ok (s : ConfigSequence) : Prop :=
  well_formed (limits s) (_value s)
  /\ 0 <= marked_pos s < total_len (limits s).



(** A character [str] writes an integer with. *)
Definition numeric (c : ascii) : bool := is_digit c || Ascii.eqb c "-".

(** A character of a name that [unpickle] does not split at. *)
Definition plain (c : ascii) : bool :=
  negb (Ascii.eqb c ".") && negb (Ascii.eqb c "=").

(** A separator that [fromstring] finds again between the fields
    [tostring] wrote: it is not empty, and its first character is none a
    number is written with. *)
Definition separates (seperator : string) : Prop :=
  exists c rest, seperator = String c rest
                 /\ is_digit c = false /\ c <> "-"%char.

(** The value a tree of persisted values holds at the end of [path]. *)
Fixpoint tree_get (path : list string) (t : pyval) : option pyval :=
  match path with
  | [] => Some t
  | k :: rest =>
      match t with
      | PDict d =>
          match dict_get k d with
          | Some v => tree_get rest v
          | None => None
          end
      | _ => None
      end
  end.

(** [path] leads through subsections of the tree and leaves the attached
    members at one of them: some name on it, not the last, is no child of
    the subsection reached.  The children of a subsection have distinct
    names, as the keys of a dict do. *)
Fixpoint unattached (path : list string) (n : Tree.node) : Prop :=
  match path with
  | [] => False
  | k :: rest =>
      match n with
      | Tree.Subsection items _ =>
          NoDup (map fst items)
          /\ match dict_get k items with
             | Some c => unattached rest c
             | None => True
             end
      | _ => False
      end
  end.

(** The subsection at which [path] leaves the attached members has the
    value [v] for the rest of [path] among its stored values. *)
Fixpoint holds (path : list string) (v : pyval) (n : Tree.node) : Prop :=
  match path with
  | [] => False
  | k :: rest =>
      match n with
      | Tree.Subsection items stored =>
          match dict_get k items with
          | Some c => holds rest v c
          | None => tree_get (k :: rest) (PDict stored) = Some v
          end
      | _ => False
      end
  end.

(** The deepest of the children of a container. *)
Definition children_depth (l : list nat) : nat := fold_right Nat.max O l.

(** The loop of [ConfigSubsection.getSavedValue]. *)
Fixpoint section_loop (items : list (string * Tree.node)) (res : list (string * pyval))
  : list (string * Tree.node) * list (string * pyval) :=
  match items with
  | [] => ([], res)
  | (key, val) :: rest =>
      let (val', sv) := Tree.getSavedValue val in
      let res := if negb (is_None sv) then dict_set key sv res
                 else if dict_has key res then dict_del key res
                 else res in
      let (rest', res') := section_loop rest res in
      ((key, val') :: rest', res')
  end.

(** The snapshot of the tree: what reading [saved_value] gives. *)
Definition snapshot (n : Tree.node) : pyval := snd (Tree.getSavedValue n).

(** The name [pickle_this] builds for the entry at the end of [path],
    starting from [prefix]. *)
Definition dotted (prefix : string) (path : list string) : string :=
  fold_left (fun name key => join "." [name; key]) path prefix.

(** What [handleKey(ACTIONKEY_RIGHT)] makes of an address editor. *)
Definition move_right (s : IP.ConfigIP) : IP.ConfigIP :=
  IP.set_overwrite true
    (if IP.marked_block s <? IP.len_limits s - 1
     then IP.set_marked_block (IP.marked_block s + 1) s else s).

(** [self] does what [handleKey] does for [ACTIONKEY_RIGHT]. *)
Definition moves_right (self : action -> IP.ConfigIP -> result IP.ConfigIP) : Prop :=
  forall c s, self (Action ACTIONKEY_RIGHT c) s = Ret (move_right s) [].

End Props.

(** ** ConfigSlider *)

Module Slider.

Record ConfigSlider := mkSlider {
  _value : Z;
  default : Z;
  min : Z;
  max : Z;
  increment : Z;
  (* [None], or the text written to the settings file *)
  saved_value : option string;
  save_disabled : bool;
  save_forced : bool;
  callNotifiersOnSaveAndCancel : bool
}.

Definition set__value (v : Z) (s : ConfigSlider) : ConfigSlider :=
  mkSlider v (default s) (min s) (max s) (increment s) (saved_value s)
           (save_disabled s) (save_forced s) (callNotifiersOnSaveAndCancel s).

Definition set_saved_value (v : option string) (s : ConfigSlider) : ConfigSlider :=
  mkSlider (_value s) (default s) (min s) (max s) (increment s) v
           (save_disabled s) (save_forced s) (callNotifiersOnSaveAndCancel s).

(** [ConfigSlider.__init__] *)
Definition init (default increment : Z) (limits : Z * Z) : ConfigSlider :=
  mkSlider default default (fst limits) (snd limits) increment None false false false.

(** [self.value = value], the setter of [ConfigElement]. *)
Definition setValue (s : ConfigSlider) (value : Z) : result ConfigSlider :=
  Element.changed ;;;
  ret (set__value value s).

Definition checkValues (value : option Z) (s : ConfigSlider) : result ConfigSlider :=
  let value := match value with
               | None => _value s
               | Some v => v
               end in
  let value := if value <? min s then min s else value in
  let value := if value >? max s then max s else value in
  if negb (_value s =? value) then setValue s value else ret s.

Definition handleKey (key : Z) (s : ConfigSlider) : result ConfigSlider :=
  if key =? ACTIONKEY_LEFT then
    s <- setValue s (_value s - increment s) ;; checkValues None s
  else if key =? ACTIONKEY_RIGHT then
    s <- setValue s (_value s + increment s) ;; checkValues None s
  else if key =? ACTIONKEY_FIRST then
    s <- setValue s (min s) ;; checkValues None s
  else if key =? ACTIONKEY_LAST then
    s <- setValue s (max s) ;; checkValues None s
  else ret s.

Definition fromstring (value : string) : result Z := int_of_str value.

(** [ConfigElement.tostring] *)
Definition tostring (value : Z) : string := str_of_Z value.

(** [ConfigElement.load] *)
Definition load (s : ConfigSlider) : result ConfigSlider :=
  v <- (match saved_value s with
        | None => ret (default s)
        | Some sv => fromstring sv
        end) ;;
  setValue s v.

(** [ConfigElement.save] *)
Definition save (s : ConfigSlider) : result ConfigSlider :=
  let s := if save_disabled s || ((_value s =? default s) && negb (save_forced s))
           then set_saved_value None s
           else set_saved_value (Some (tostring (_value s))) s in
  (if callNotifiersOnSaveAndCancel s then Element.changedFinal else ret tt) ;;;
  ret s.

(** [ConfigElement.cancel] *)
Definition cancel (s : ConfigSlider) : result ConfigSlider :=
  s <- load s ;;
  (if callNotifiersOnSaveAndCancel s then Element.changedFinal else ret tt) ;;;
  ret s.

End Slider.

(** ** ConfigSelectionNumber *)

Module SelectionNumber.

Import Choices Element.

(** [int(v)] *)
Definition int_of (v : pyval) : result Z :=
  match v with
  | PStr s => int_of_str s
  | PInt z => ret z
  | PBool b => ret (if b then 1 else 0)
  | _ => Exc TypeError
  end.

Record ConfigSelectionNumber := mkNumber {
  sel : ConfigElement;
  wraparound : bool
}.

Definition set_sel (e : ConfigElement) (s : ConfigSelectionNumber)
  : ConfigSelectionNumber :=
  mkNumber e (wraparound s).

(** The loop of the constructor, [while step <= max]; [fuel] bounds the
    number of its turns. *)
Fixpoint steps (fuel : nat) (step max stepwidth : Z) : result (list string) :=
  match fuel with
  | O => Fuel
  | S fuel' =>
      if step <=? max then
        r <- steps fuel' (step + stepwidth) max stepwidth ;;
        ret (str_of_Z step :: r)
      else ret []
  end.

(** [ConfigSelectionNumber.__init__] *)
Definition init (fuel : nat) (min max stepwidth : Z) (default : option Z)
    (wraparound : bool) : result ConfigSelectionNumber :=
  let default := match default with
                 | None => min
                 | Some d => d
                 end in
  let default := str_of_Z default in
  choices <- steps fuel min max stepwidth ;;
  ret (mkNumber
         (ConfigSelection_init (LIST_TYPE_LIST (map (fun c => Plain (PStr c)) choices))
                               (Some (PStr default)))
         wraparound).

Section WithPython.

Variable PY2 : bool.

Definition getValue (s : ConfigSelectionNumber) : result Z :=
  int_of (Element.getValue (sel s)).

Definition setValue (s : ConfigSelectionNumber) (val : pyval)
  : result ConfigSelectionNumber :=
  e <- ConfigSelection_setValue PY2 (sel s) (PStr (str val)) ;;
  ret (set_sel e s).

(** [ConfigSelection.handleKey] as it runs on a [ConfigSelectionNumber]:
    [self.value] is the property of the subclass. *)
Definition ConfigSelection_handleKey (key : Z) (s : ConfigSelectionNumber)
  : result ConfigSelectionNumber :=
  match cls (sel s) with
  | ConfigSelection choices =>
      let nchoices := __len__ choices in
      if nchoices >? 1 then
        value <- getValue s ;;
        i <- index PY2 choices (PInt value) ;;
        if key =? ACTIONKEY_LEFT then
          v <- __getitem__ choices ((i + nchoices - 1) mod nchoices) ;; setValue s v
        else if key =? ACTIONKEY_RIGHT then
          v <- __getitem__ choices ((i + 1) mod nchoices) ;; setValue s v
        else if key =? ACTIONKEY_FIRST then
          v <- __getitem__ choices 0 ;; setValue s v
        else if key =? ACTIONKEY_LAST then
          v <- __getitem__ choices (nchoices - 1) ;; setValue s v
        else ret s
      else ret s
  | _ => Exc AttributeError
  end.

Definition handleKey (key : Z) (s : ConfigSelectionNumber)
  : result ConfigSelectionNumber :=
  match cls (sel s) with
  | ConfigSelection choices =>
      (* [true]: the method returns at once *)
      stop <- (if negb (wraparound s) then
                 stop <- (if key =? ACTIONKEY_RIGHT then
                            value <- getValue s ;;
                            i <- index PY2 choices (PInt value) ;;
                            ret (__len__ choices =? i + 1)
                          else ret false) ;;
                 if stop : bool then ret true
                 else if key =? ACTIONKEY_LEFT then
                   value <- getValue s ;;
                   i <- index PY2 choices (PInt value) ;;
                   ret (i =? 0)
                 else ret false
               else ret false) ;;
      if stop : bool then ret s else ConfigSelection_handleKey key s
  | _ => Exc AttributeError
  end.

End WithPython.

End SelectionNumber.

(** ** ConfigElement: [cancel], [isChanged], [disableSave] *)

Module Persist.

Import Element.

Section WithPython.

Variable PY2 : bool.

(** [ConfigElement.cancel] *)
Definition cancel (e : ConfigElement) : result ConfigElement :=
  e <- load PY2 e ;;
  (if callNotifiersOnSaveAndCancel e then changedFinal else ret tt) ;;;
  ret e.

End WithPython.

(** [ConfigElement.isChanged] *)
Definition isChanged (e : ConfigElement) : result bool :=
  saved <- (if truthy (saved_value e) then ret (saved_value e)
            else t <- tostring e (default e) ;; ret (PStr t)) ;;
  valueString <- tostring e (getValue e) ;;
  ret (negb (eqb (PStr valueString) saved)).

(** [ConfigElement.disableSave] *)
Definition disableSave (e : ConfigElement) : ConfigElement :=
  mkElement (cls e) (_value e) (default e) (saved_value e) true (save_forced e)
            (callNotifiersOnSaveAndCancel e) (lastValue e).

(** [NoSave(element)] *)
Definition NoSave (element : ConfigElement) : ConfigElement := disableSave element.

End Persist.

(** ** ConfigText: the editing primitives, and ConfigNumber *)

Module Text.

(** [len(s)] *)
Definition len (s : string) : Z := Z.of_nat (String.length s).

(** A bound of a slice of a sequence of length [n], as Python places it. *)
Definition slice_bound (n : Z) (i : Z) : Z :=
  if i <? 0 then Z.max (i + n) 0 else Z.min i n.

(** [s[lo:hi]]; [hi] is [None] where the source leaves it out. *)
Definition slice (s : string) (lo : Z) (hi : option Z) : string :=
  let n := len s in
  let lo := slice_bound n lo in
  let hi := match hi with
            | Some h => slice_bound n h
            | None => n
            end in
  str_take (Z.to_nat (hi - lo)) (str_drop (Z.to_nat lo) s).

(** [c * n] for a one-character string [c]. *)
Fixpoint repeat_char (c : ascii) (n : nat) : string :=
  match n with
  | O => EmptyString
  | S n' => String c (repeat_char c n')
  end.

(** [s.lstrip("0")] *)
Fixpoint lstrip0 (s : string) : string :=
  match s with
  | String "0" s' => lstrip0 s'
  | _ => s
  end.

Record ConfigText := mkText {
  text : string;
  marked_pos : Z;
  allmarked : bool;
  fixed_size : bool;
  (* [False] is 0 *)
  visible_width : Z;
  offset : Z;
  overwrite : bool;
  default : string
}.

Definition set_text (t : string) (s : ConfigText) : ConfigText :=
  mkText t (marked_pos s) (allmarked s) (fixed_size s) (visible_width s) (offset s)
         (overwrite s) (default s).

Definition set_marked_pos (p : Z) (s : ConfigText) : ConfigText :=
  mkText (text s) p (allmarked s) (fixed_size s) (visible_width s) (offset s)
         (overwrite s) (default s).

Definition set_allmarked (b : bool) (s : ConfigText) : ConfigText :=
  mkText (text s) (marked_pos s) b (fixed_size s) (visible_width s) (offset s)
         (overwrite s) (default s).

Definition set_offset (o : Z) (s : ConfigText) : ConfigText :=
  mkText (text s) (marked_pos s) (allmarked s) (fixed_size s) (visible_width s) o
         (overwrite s) (default s).

(** [ConfigText.__init__] *)
Definition init (default : string) (fixed_size : bool) (visible_width : Z) : ConfigText :=
  mkText default 0 (negb (String.eqb default "")) fixed_size visible_width 0 fixed_size
         default.

Definition insertChar (ch : string) (pos : Z) (owr : bool) (s : ConfigText) : ConfigText :=
  if owr || overwrite s then
    set_text (slice (text s) 0 (Some pos) ++ ch ++ slice (text s) (pos + 1) None)%string s
  else if fixed_size s then
    set_text (slice (text s) 0 (Some pos) ++ ch ++ slice (text s) pos (Some (-1)))%string s
  else
    set_text (slice (text s) 0 (Some pos) ++ ch ++ slice (text s) pos None)%string s.


Definition deleteAllChars (s : ConfigText) : ConfigText :=
  let s := if fixed_size s
           then set_text (repeat_char " " (String.length (text s))) s
           else set_text "" s in
  set_marked_pos 0 s.

(** [ConfigText.validateMarker].  Its last assignment subtracts from the
    builtin [len], which is a [TypeError]. *)
Definition validateMarker (s : ConfigText) : result ConfigText :=
  let textlen := len (text s) in
  let s := if fixed_size s then
             if marked_pos s >? textlen - 1 then set_marked_pos (textlen - 1) s else s
           else
             if marked_pos s >? textlen then set_marked_pos textlen s else s in
  let s := if marked_pos s <? 0 then set_marked_pos 0 s else s in
  if negb (visible_width s =? 0) then
    let s := if marked_pos s <? offset s then set_offset (marked_pos s) s else s in
    let s := if marked_pos s >=? offset s + visible_width s then
               if marked_pos s =? textlen
               then set_offset (marked_pos s - visible_width s) s
               else set_offset (marked_pos s - visible_width s + 1) s
             else s in
    if (offset s >? 0) && (offset s + visible_width s >? textlen)
    then Exc TypeError
    else ret s
  else ret s.

End Text.

Module Number.

Import Text.

(** [ConfigNumber.__init__]: a [ConfigText] over [str(default)] that is not
    of fixed size. *)
Definition init (default : Z) : ConfigText := Text.init (str_of_Z default) false 0.

(** [ConfigNumber.validateMarker] *)
Definition validateMarker (s : ConfigText) : ConfigText :=
  let pos := len (text s) - marked_pos s in
  let s := set_text (lstrip0 (text s)) s in
  let s := if String.eqb (text s) "" then set_text "0" s else s in
  if pos >? len (text s) then set_marked_pos 0 s
  else set_marked_pos (len (text s) - pos) s.

(** [ConfigNumber.getValue]: the number, and the element, whose text the
    handler of the [ValueError] replaces. *)
Definition getValue (s : ConfigText) : result (Z * ConfigText) :=
  match int_of_str (text s) with
  | Exc ValueError =>
      let s := set_text (if String.eqb (lower (text s)) "true" then "1" else default s) s in
      v <- int_of_str (text s) ;; ret (v, s)
  | r => v <- r ;; ret (v, s)
  end.

(** [ConfigNumber.setValue] for a number. *)
Definition setValue (value : Z) (s : ConfigText) : ConfigText :=
  set_text (str_of_Z value) s.

Section WithText.

(** [ConfigText.handleKey], the handler of the keys that enter no digit;
    it runs the timer and the key tables of [NumericalTextInput]. *)
Variable ConfigText_handleKey : Z -> ConfigText -> result ConfigText.

(** [ConfigNumber.handleKey] *)
Definition handleKey (a : action) (s : ConfigText) : result ConfigText :=
  let key := act_key a in
  if in_ACTIONKEY_NUMBERS key || (key =? ACTIONKEY_ASCII) then
    r <- (if key =? ACTIONKEY_ASCII then
            let ascii := act_code a in
            if negb ((48 <=? ascii) && (ascii <=? 57)) then ret None
            else ret (Some ascii)
          else
            n <- getKeyNumber key ;; ret (Some (n + 48))) ;;
    match r with
    | None => ret s
    | Some ascii =>
        let newChar := String (ascii_of_nat (Z.to_nat ascii)) EmptyString in
        let s := if allmarked s then set_allmarked false (deleteAllChars s) else s in
        let s := insertChar newChar (marked_pos s) false s in
        let s := set_marked_pos (marked_pos s + 1) s in
        Element.changed ;;;
        ret (validateMarker s)
    end
  else
    s <- ConfigText_handleKey key s ;;
    ret (validateMarker s).

End WithText.

End Number.

(** ** Vocabulary of the further properties *)

(** ** ConfigDictionarySet *)

Module DictionarySet.

(** A dict object with string keys, in insertion order; the dict stored
    under a key is a value ([PDict]) of its own. *)
Definition dict := list (string * pyval).

(** The dict objects that exist, by address.  [self.default] and
    [self.dirs] are references, and may be references to one object. *)
Definition heap := list dict.

Definition deref (h : heap) (a : nat) : dict := nth a h [].

(** Mutation of the object at [a] in place. *)
Definition assign (h : heap) (a : nat) (d : dict) : heap := update h a d.

(** An argument of [setValue]: a reference to a dict, or anything else. *)
Inductive object :=
| Dict (a : nat)
| NoDict.

Record ConfigDictionarySet := mkDictionarySet {
  default : nat;
  dirs : nat;
  saved_value : option string;
  callNotifiersOnSaveAndCancel : bool
}.

Definition set_dirs (a : nat) (s : ConfigDictionarySet) : ConfigDictionarySet :=
  mkDictionarySet (default s) a (saved_value s) (callNotifiersOnSaveAndCancel s).

Definition set_saved_value (v : option string) (s : ConfigDictionarySet)
  : ConfigDictionarySet :=
  mkDictionarySet (default s) (dirs s) v (callNotifiersOnSaveAndCancel s).

Definition setValue (h : heap) (s : ConfigDictionarySet) (value : object)
  : result (heap * ConfigDictionarySet) :=
  match value with
  | Dict a => emit Changed ;;; ret (h, set_dirs a s)
  | NoDict => ret (h, s)
  end.

Definition getValue (s : ConfigDictionarySet) : nat := dirs s.

(** [__init__]: [self.dirs = {}] makes a new object, [self.value =
    self.default] then replaces the reference by the one of the default. *)
Definition init (h : heap) (default : nat) : result (heap * ConfigDictionarySet) :=
  let s := mkDictionarySet default (List.length h) None false in
  setValue (h ++ [[]]) s (Dict default).

Definition tostring (value : dict) : string := str (PDict value).

(** [k in o] for a string [k] *)
Definition contains (k : string) (o : pyval) : result bool :=
  match o with
  | PDict d => ret (dict_has k d)
  | PStr s => ret (match String.index 0 k s with Some _ => true | None => false end)
  | PSeq _ => ret false
  | _ => Exc TypeError
  end.

(** [o[k]] for a string [k] *)
Definition subscript (o : pyval) (k : string) : result pyval :=
  match o with
  | PDict d => match dict_get k d with Some v => ret v | None => Exc KeyError end
  | _ => Exc TypeError
  end.

(** [o[k] = v] for a string [k] *)
Definition subscript_set (o : pyval) (k : string) (v : pyval) : result pyval :=
  match o with
  | PDict d => ret (PDict (dict_set k v d))
  | _ => Exc TypeError
  end.

(** [del o[k]] for a string [k] *)
Definition subscript_del (o : pyval) (k : string) : result pyval :=
  match o with
  | PDict d => if dict_has k d then ret (PDict (dict_del k d)) else Exc KeyError
  | _ => Exc TypeError
  end.

(** [len(o)] *)
Definition len (o : pyval) : result Z :=
  match o with
  | PDict d => ret (Z.of_nat (List.length d))
  | PStr s => ret (Z.of_nat (String.length s))
  | PSeq l => ret (Z.of_nat (List.length l))
  | _ => Exc TypeError
  end.

Definition changeConfigValue (h : heap) (s : ConfigDictionarySet)
    (value config_key config_value : pyval) : result (heap * ConfigDictionarySet) :=
  match value, config_key with
  | PStr value, PStr config_key =>
      let d := deref h (dirs s) in
      d <- match dict_get value d with
           | Some o =>
               o <- subscript_set o config_key config_value ;;
               ret (dict_set value o d)
           | None => ret (dict_set value (PDict [(config_key, config_value)]) d)
           end ;;
      emit Changed ;;;
      ret (assign h (dirs s) d, s)
  | _, _ => ret (h, s)
  end.

Definition getConfigValue (h : heap) (s : ConfigDictionarySet)
    (value config_key : pyval) : result pyval :=
  match value, config_key with
  | PStr value, PStr config_key =>
      match dict_get value (deref h (dirs s)) with
      | Some o =>
          b <- contains config_key o ;;
          if b then subscript o config_key else ret PNone
      | None => ret PNone
      end
  | _, _ => ret PNone
  end.

Definition removeConfigValue (h : heap) (s : ConfigDictionarySet)
    (value config_key : pyval) : result (heap * ConfigDictionarySet) :=
  match value, config_key with
  | PStr value, PStr config_key =>
      let d := deref h (dirs s) in
      match dict_get value d with
      | Some o =>
          b <- contains config_key o ;;
          if b then
            d <- match subscript_del o config_key with
                 | Ret o evs => Ret (dict_set value o d) evs
                 | Exc KeyError => ret d
                 | Exc e => Exc e
                 | Fuel => Fuel
                 end ;;
            emit Changed ;;;
            ret (assign h (dirs s) d, s)
          else ret (h, s)
      | None => ret (h, s)
      end
  | _, _ => ret (h, s)
  end.

(** The first loop of [save]: the keys whose entry has length 0. *)
Fixpoint del_keys (d : dict) (keys : list string) : result (list string) :=
  match keys with
  | [] => ret []
  | key :: keys' =>
      o <- match dict_get key d with Some o => ret o | None => Exc KeyError end ;;
      n <- len o ;;
      r <- del_keys d keys' ;;
      ret (if n =? 0 then key :: r else r)
  end.

(** The second loop of [save]. *)
Fixpoint del_all (keys : list string) (d : dict) : result dict :=
  match keys with
  | [] => ret d
  | del_key :: keys' =>
      let d := if dict_has del_key d then dict_del del_key d else d in
      emit Changed ;;;
      del_all keys' d
  end.

Definition save (h : heap) (s : ConfigDictionarySet)
  : result (heap * ConfigDictionarySet) :=
  let d := deref h (dirs s) in
  keys <- del_keys d (map fst d) ;;
  d <- del_all keys d ;;
  ret (assign h (dirs s) d, set_saved_value (Some (tostring d)) s).

(** [saved_value or tostring(default)] against [tostring(value)] *)
Definition isChanged (h : heap) (s : ConfigDictionarySet) : bool :=
  let saved := match saved_value s with
               | Some (String c t) => String c t
               | _ => tostring (deref h (default s))
               end in
  negb (String.eqb (tostring (deref h (dirs s))) saved).

Section WithEval.

(** [eval(val)], which builds a new dict from the text that was saved. *)
Variable eval : string -> result dict.

Definition fromstring (val : string) : result dict := eval val.

Definition load (h : heap) (s : ConfigDictionarySet)
  : result (heap * ConfigDictionarySet) :=
  match saved_value s with
  | None => ret (h, set_dirs (default s) s)
  | Some sv =>
      tmp <- fromstring sv ;;
      ret (h ++ [tmp], set_dirs (List.length h) s)
  end.

Definition cancel (h : heap) (s : ConfigDictionarySet)
  : result (heap * ConfigDictionarySet) :=
  r <- load h s ;;
  (if callNotifiersOnSaveAndCancel s then emit ChangedFinal else ret tt) ;;;
  ret r.

End WithEval.

End DictionarySet.

(** ** ConfigSequence with the lists as objects

    [self._value] and [self.default] refer to list objects.  The constructor
    copies the default, [load] does not: after it both names refer to one
    list, and the handlers, which assign to the items of [self._value],
    change that list in place. *)

Module Refs.

(** The list objects that exist, by address. *)
Definition heap := list (list Z).

Definition deref (h : heap) (a : nat) : list Z := nth a h [].

(** Mutation of the object at [a] in place. *)
Definition assign (h : heap) (a : nat) (l : list Z) : heap := update h a l.

Record ConfigSequence := mkRefs {
  seperator : string;
  limits : list (Z * Z);
  default : nat;
  _value : nat;
  marked_pos : Z;
  endNotifier : nat;
  saved_value : option string;
  save_disabled : bool;
  save_forced : bool;
  callNotifiersOnSaveAndCancel : bool
}.

Definition set__value (a : nat) (s : ConfigSequence) : ConfigSequence :=
  mkRefs (seperator s) (limits s) (default s) a (marked_pos s) (endNotifier s)
         (saved_value s) (save_disabled s) (save_forced s)
         (callNotifiersOnSaveAndCancel s).

Definition set_saved_value (v : option string) (s : ConfigSequence) : ConfigSequence :=
  mkRefs (seperator s) (limits s) (default s) (_value s) (marked_pos s)
         (endNotifier s) v (save_disabled s) (save_forced s)
         (callNotifiersOnSaveAndCancel s).

(** The element as the methods of [Sequence] read it: the lists by their
    items. *)
Definition contents (h : heap) (s : ConfigSequence) : Sequence.ConfigSequence :=
  Sequence.mkSeq (seperator s) (limits s) (deref h (default s)) (deref h (_value s))
                 (marked_pos s) (endNotifier s).

(** The attributes of the element after such a method has run; the
    references stay as they are. *)
Definition absorb (v : Sequence.ConfigSequence) (s : ConfigSequence) : ConfigSequence :=
  mkRefs (Sequence.seperator v) (Sequence.limits v) (default s) (_value s)
         (Sequence.marked_pos v) (Sequence.endNotifier v)
         (saved_value s) (save_disabled s) (save_forced s)
         (callNotifiersOnSaveAndCancel s).

(** [ConfigElement.setValue]: the reference is stored, nothing is copied. *)
Definition setValue (h : heap) (s : ConfigSequence) (value : nat)
  : result (heap * ConfigSequence) :=
  emit Changed ;;;
  ret (h, set__value value s).

(** [ConfigSequence.__init__], with [self.value = shallowcopy(default)]. *)
Definition init (h : heap) (seperator : string) (limits : list (Z * Z)) (default : nat)
  : result (heap * ConfigSequence) :=
  match limits with
  | [] => Exc IndexError
  | _ =>
      setValue (h ++ [deref h default])
        (mkRefs seperator limits default default 0 0 None false false false)
        (List.length h)
  end.

(** [ConfigSequence.handleKey]: the items are assigned in the list
    [self._value] refers to. *)
Definition handleKey (a : action) (h : heap) (s : ConfigSequence)
  : result (heap * ConfigSequence) :=
  v <- Sequence.handleKey a (contents h s) ;;
  ret (assign h (_value s) (Sequence._value v), absorb v s).

(** [ConfigElement.load] *)
Definition load (h : heap) (s : ConfigSequence) : result (heap * ConfigSequence) :=
  match saved_value s with
  | None => setValue h s (default s)
  | Some sv =>
      l <- Sequence.fromstring (seperator s) (limits s) sv ;;
      setValue (h ++ [l]) s (List.length h)
  end.

(** [ConfigElement.save] *)
Definition save (h : heap) (s : ConfigSequence) : result ConfigSequence :=
  let s := if save_disabled s
              || (list_Z_eqb (deref h (_value s)) (deref h (default s))
                  && negb (save_forced s))
           then set_saved_value None s
           else set_saved_value
                  (Some (Sequence.tostring (seperator s) (deref h (_value s)))) s in
  (if callNotifiersOnSaveAndCancel s then emit ChangedFinal else ret tt) ;;;
  ret s.

(** [ConfigElement.cancel] *)
Definition cancel (h : heap) (s : ConfigSequence) : result (heap * ConfigSequence) :=
  r <- load h s ;;
  (if callNotifiersOnSaveAndCancel s then emit ChangedFinal else ret tt) ;;;
  ret r.

(** [ConfigElement.isChanged] *)
Definition isChanged (h : heap) (s : ConfigSequence) : bool :=
  let saved := match saved_value s with
               | Some (String c t) => String c t
               | _ => Sequence.tostring (seperator s) (deref h (default s))
               end in
  negb (String.eqb (Sequence.tostring (seperator s) (deref h (_value s))) saved).

End Refs.

(** ** The notifiers of a ConfigElement *)

Module Notifiers.

(** A notifier is a callable; two are equal when they are the same object,
    which a number stands for. *)
Definition notifier := nat.

(** What [self.__notifiers] and [self.__notifiers_final] hold: [None], a
    list, or the empty dict [clearNotifiers] assigns. *)
Inductive container :=
| Unset
| Listed (l : list notifier)
| Cleared.

Record ConfigElement := mkNotified {
  __notifiers : container;
  __notifiers_final : container;
  extra_args : list (notifier * pyval)
}.

(** A call [x(self)] or [x(self, extra_args)] of a notifier, which is taken
    to return and to leave the element alone. *)
Inductive call :=
| Call (x : notifier) (extra_args : option pyval).

Definition set_notifiers (c : container) (s : ConfigElement) : ConfigElement :=
  mkNotified c (__notifiers_final s) (extra_args s).

Definition set_notifiers_final (c : container) (s : ConfigElement) : ConfigElement :=
  mkNotified (__notifiers s) c (extra_args s).

Definition set_extra_args (l : list (notifier * pyval)) (s : ConfigElement)
  : ConfigElement :=
  mkNotified (__notifiers s) (__notifiers_final s) l.

(** [ConfigElement.__init__] *)
Definition init : ConfigElement := mkNotified Unset Unset [].

(** The property [notifiers]: [None] becomes a new list. *)
Definition getNotifiers (s : ConfigElement) : container * ConfigElement :=
  match __notifiers s with
  | Unset => (Listed [], set_notifiers (Listed []) s)
  | c => (c, s)
  end.

Definition getNotifiersFinal (s : ConfigElement) : container * ConfigElement :=
  match __notifiers_final s with
  | Unset => (Listed [], set_notifiers_final (Listed []) s)
  | c => (c, s)
  end.

(** [c.append(x)] *)
Definition append (c : container) (x : notifier) : result container :=
  match c with
  | Listed l => ret (Listed (l ++ [x]))
  | _ => Exc AttributeError
  end.

(** [x in c and c.remove(x)] *)
Fixpoint remove_first (x : notifier) (l : list notifier) : list notifier :=
  match l with
  | [] => []
  | y :: l' => if (y =? x)%nat then l' else y :: remove_first x l'
  end.

Definition discard (c : container) (x : notifier) : container :=
  match c with
  | Listed l => if existsb (Nat.eqb x) l then Listed (remove_first x l) else c
  | _ => c
  end.

Definition __addExtraArgs (x : notifier) (args : pyval) (s : ConfigElement)
  : ConfigElement :=
  set_extra_args (extra_args s ++ [(x, args)]) s.

(** [del l[i]] *)
Fixpoint delete_at {A} (i : nat) (l : list A) : list A :=
  match l, i with
  | [], _ => []
  | _ :: l', O => l'
  | a :: l', S i' => a :: delete_at i' l'
  end.

(** The loop of [__removeExtraArgs]: [n] indices of [range(len(...))] are
    left, the next one is [i]. *)
Fixpoint removeExtraArgs_loop (x : notifier) (n i : nat) (l : list (notifier * pyval))
  : result (list (notifier * pyval)) :=
  match n with
  | O => ret l
  | S n' =>
      match nth_error l i with
      | Some e =>
          removeExtraArgs_loop x n' (S i)
            (if (fst e =? x)%nat then delete_at i l else l)
      | None => Exc IndexError
      end
  end.

Definition __removeExtraArgs (x : notifier) (s : ConfigElement) : result ConfigElement :=
  l <- removeExtraArgs_loop x (List.length (extra_args s)) 0 (extra_args s) ;;
  ret (set_extra_args l s).

Fixpoint __getExtraArgs (x : notifier) (l : list (notifier * pyval)) : option pyval :=
  match l with
  | [] => None
  | e :: l' => if (fst e =? x)%nat then Some (snd e) else __getExtraArgs x l'
  end.

(** [addNotifier]; the result holds the calls made. *)
Definition addNotifier (x : notifier) (initial_call immediate_feedback : bool)
    (args : option pyval) (s : ConfigElement) : result (ConfigElement * list call) :=
  let s := match args with
           | Some a => __addExtraArgs x a s
           | None => s
           end in
  s <- (if immediate_feedback then
          let (c, s) := getNotifiers s in
          c <- append c x ;; ret (set_notifiers c s)
        else
          let (c, s) := getNotifiersFinal s in
          c <- append c x ;; ret (set_notifiers_final c s)) ;;
  ret (s, if initial_call then
            [Call x (match args with
                     | Some a => if truthy a then Some a else None
                     | None => None
                     end)]
          else []).

(** [removeNotifier]; the two [del] statements at its end raise for a list
    and for the empty dict, and the exception is dropped. *)
Definition removeNotifier (x : notifier) (s : ConfigElement) : result ConfigElement :=
  let (c, s) := getNotifiers s in
  let s := set_notifiers (discard c x) s in
  let (c, s) := getNotifiersFinal s in
  let s := set_notifiers_final (discard c x) s in
  __removeExtraArgs x s.

Definition clearNotifiers (s : ConfigElement) : ConfigElement :=
  set_notifiers_final Cleared (set_notifiers Cleared s).

(** The calls [changed()] makes. *)
Definition changed (s : ConfigElement) : list call :=
  match __notifiers s with
  | Listed l => map (fun x => Call x (__getExtraArgs x (extra_args s))) l
  | _ => []
  end.

(** The calls [changedFinal()] makes. *)
Definition changedFinal (s : ConfigElement) : list call :=
  match __notifiers_final s with
  | Listed l => map (fun x => Call x (__getExtraArgs x (extra_args s))) l
  | _ => []
  end.

End Notifiers.

(** ** The text of a ConfigIP *)

Module AddressText.

Import Sequence.

(** [l[:n]] *)
Definition upto {A} (l : list A) (n : Z) : list A :=
  firstn (Z.to_nat (Text.slice_bound (Z.of_nat (List.length l)) n)) l.

(** The loop of [ConfigIP.genText]. *)
Fixpoint genText_loop (seperator : string) (todo : list Z) (value : string)
    (block_strlen : list Z) : string * list Z :=
  match todo with
  | [] => (value, block_strlen)
  | i :: todo' =>
      let block_strlen := block_strlen ++ [str_len i] in
      let value := if negb (String.eqb value "") then (value ++ seperator)%string
                   else value in
      genText_loop seperator todo' (value ++ str_of_Z i)%string block_strlen
  end.

(** [ConfigIP.genText]: the text, and the bounds of the [range] of marked
    columns. *)
Definition genText (s : IP.ConfigIP) : string * (Z * Z) :=
  let r := genText_loop (seperator (IP.seq s)) (_value (IP.seq s)) "" [] in
  let value := fst r in
  let block_strlen := snd r in
  let leftPos := sum (upto block_strlen (IP.marked_block s)) + IP.marked_block s in
  let rightPos := sum (upto block_strlen (IP.marked_block s + 1)) + IP.marked_block s in
  (value, (leftPos, rightPos)).

End AddressText.

(** ** ConfigFile.getResolvedKey *)

Module Resolve.

Import Tree.

(** The mapping [__resolveValue] looks a name up in: a dict with string
    keys, or the [ConfigSubDict] itself, whose keys are what they are. *)
Inductive cmap :=
| StrMap (m : list (string * node))
| ValMap (m : list (pyval * node)).

(** [n.dict()]; an element has no such method. *)
Definition dict (n : node) : result cmap :=
  match n with
  | Subsection items _ => ret (StrMap items)
  | SubList items _ =>
      ret (StrMap (map (fun iv => (str_of_nat (fst iv), snd iv))
                     (enumerate_from 0 items)))
  | SubDict items _ => ret (ValMap items)
  | Elem _ => Exc AttributeError
  end.

Fixpoint val_get (key : pyval) (m : list (pyval * node)) : option node :=
  match m with
  | [] => None
  | (k, c) :: m' => if eqb key k then Some c else val_get key m'
  end.

(** [cmap[key]] when [key in cmap] *)
Definition lookup (key : string) (c : cmap) : option node :=
  match c with
  | StrMap m => dict_get key m
  | ValMap m => val_get (PStr key) m
  end.

Section WithObjects.

(** [str(x)] for a member [x] of the tree, the text of an object. *)
Variable object_str : node -> string.

(** [str(n.value)]: the value of an element, the child of that name of a
    subsection. *)
Definition value_str (n : node) : result string :=
  match n with
  | Elem e => ret (str (Element.getValue e))
  | Subsection items _ =>
      match dict_get "value" items with
      | Some c => ret (object_str c)
      | None => Exc AttributeError
      end
  | _ => Exc AttributeError
  end.

Fixpoint __resolveValue (pickles : list string) (c : cmap) : result (option string) :=
  match pickles with
  | [] => Exc IndexError
  | key :: rest =>
      match lookup key c with
      | Some n =>
          match rest with
          | _ :: _ => c' <- dict n ;; __resolveValue rest c'
          | [] => v <- value_str n ;; ret (Some v)
          end
      | None => ret None
      end
  end.

(** [getResolvedKey]; [items] is [config.content.items]. *)
Definition getResolvedKey (items : list (string * node)) (key : string)
  : result string :=
  names <- split "." key ;;
  if 1 <? Z.of_nat (List.length names) then
    match names with
    | n0 :: rest =>
        if String.eqb n0 "config" then
          r <- __resolveValue rest (StrMap items) ;;
          match r with
          | Some v => ret v
          | None => ret ""
          end
        else ret ""
    | [] => ret ""
    end
  else ret "".

End WithObjects.

End Resolve.

(** ** The persisted form of the variants without a model of their own *)

Module Variants.






End Variants.

Module Props2.

(** The keys a slider moves on. *)
Definition slider_key (key : Z) : Prop :=
  key = ACTIONKEY_LEFT \/ key = ACTIONKEY_RIGHT
  \/ key = ACTIONKEY_FIRST \/ key = ACTIONKEY_LAST.

(** The actions [keys], one after the other, on a [ConfigSlider]. *)
Fixpoint slider_handleKeys (keys : list Z) (s : Slider.ConfigSlider)
  : result Slider.ConfigSlider :=
  match keys with
  | [] => ret s
  | key :: rest => s <- Slider.handleKey key s ;; slider_handleKeys rest s
  end.

(** The identifier of an entry of a choices list. *)
Definition ident_of (c : Choices.choice) : pyval :=
  match c with
  | Choices.Tuple id _ => id
  | Choices.Plain x => x
  end.

Definition ids (choices : list Choices.choice) : list pyval := map ident_of choices.

(** Choices a selection can step through: a bare identifier is true in a
    condition, and no identifier is found at the place of another, by its
    text on Python 2 and by [==] on Python 3. *)
Definition usable (PY2 : bool) (choices : list Choices.choice) : Prop :=
  Forall (fun c => match c with
                   | Choices.Plain x => truthy x = true
                   | Choices.Tuple _ _ => True
                   end) choices
  /\ forall i j a b,
       nth_error (ids choices) i = Some a -> nth_error (ids choices) j = Some b ->
       ((if PY2 then String.eqb (str a) (str b) else Py.eqb b a) = true <-> i = j).

(** The identifier at the position [k]. *)
Definition id_at (choices : list Choices.choice) (k : Z) : pyval :=
  nth (Z.to_nat k) (ids choices) PNone.

(** [n] numbers from [start] on, [stepwidth] apart. *)
Fixpoint arith (n : nat) (start stepwidth : Z) : list Z :=
  match n with
  | O => []
  | S n' => start :: arith n' (start + stepwidth) stepwidth
  end.

(** How many of the numbers [min], [min + stepwidth], ... are not above
    [max], for a positive [stepwidth]. *)
Definition count (min max stepwidth : Z) : nat :=
  if min <=? max then Z.to_nat ((max - min) / stepwidth + 1) else O.

(** The identifiers of the choices are strings, none of them empty. *)
Definition string_ids (choices : list Choices.choice) : Prop :=
  Forall (fun c => exists s, ident_of c = PStr s /\ s <> ""%string) choices.

(** A [ConfigSelectionNumber] over the numbers [l] whose value is [v]. *)
Definition number_state (l : list Z) (v : Z)
    (s : SelectionNumber.ConfigSelectionNumber) : Prop :=
  Element.cls (SelectionNumber.sel s)
  = Element.ConfigSelection
      (Choices.LIST_TYPE_LIST (map (fun c => Choices.Plain (PStr c)) (map str_of_Z l)))
  /\ Element._value (SelectionNumber.sel s) = PStr (str_of_Z v).

(** The selection with the number [v] as its value. *)
Definition set_number (v : Z) (s : SelectionNumber.ConfigSelectionNumber)
  : SelectionNumber.ConfigSelectionNumber :=
  SelectionNumber.set_sel
    (Element.set__value (PStr (str_of_Z v)) (SelectionNumber.sel s)) s.

(** The children of every subsection of the tree have distinct names, as
    the keys of a dict do. *)
Fixpoint well_keyed (n : Tree.node) : Prop :=
  match n with
  | Tree.Elem _ => True
  | Tree.Subsection items _ =>
      NoDup (map fst items)
      /\ (fix all (l : list (string * Tree.node)) : Prop :=
            match l with
            | [] => True
            | kc :: r => well_keyed (snd kc) /\ all r
            end) items
  | Tree.SubList items _ =>
      (fix all (l : list Tree.node) : Prop :=
         match l with
         | [] => True
         | c :: r => well_keyed c /\ all r
         end) items
  | Tree.SubDict items _ =>
      (fix all (l : list (pyval * Tree.node)) : Prop :=
         match l with
         | [] => True
         | kc :: r => well_keyed (snd kc) /\ all r
         end) items
  end.

(** The tree after its [saved_value] was read. *)
Definition saved (n : Tree.node) : Tree.node := fst (Tree.getSavedValue n).

(** What [ConfigSubsection.getSavedValue] does to [res] for the child
    [key] whose persisted form is [sv]. *)
Definition upd (key : string) (sv : pyval) (res : list (string * pyval))
  : list (string * pyval) :=
  if negb (is_None sv) then dict_set key sv res
  else if dict_has key res then dict_del key res
  else res.

(** What [ConfigSubList.getSavedValue] and [ConfigSubDict.getSavedValue]
    do to [res] for the child [key] whose persisted form is [sv]. *)
Definition add (key : string) (sv : pyval) (res : list (string * pyval))
  : list (string * pyval) :=
  if negb (is_None sv) then dict_set key sv res else res.

(** An element whose value [v] is written and read back as it is: a
    ConfigBoolean with a truth value, a ConfigSequence with a field for each
    of its limits and a separator that is found again, a ConfigSelection
    over a list of non-empty strings among which [v] is, with a string as
    its default. *)
Definition persists (e : Element.ConfigElement) (v : pyval) : Prop :=
  match Element.cls e with
  | Element.ConfigBoolean => exists b, v = PBool b
  | Element.ConfigSequence seperator limits =>
      exists l, v = PSeq l /\ Props.well_formed limits l /\ Props.separates seperator
  | Element.ConfigSelection (Choices.LIST_TYPE_LIST choices) =>
      string_ids choices /\ In v (ids choices)
      /\ exists d, Element.default e = PStr d
  | Element.ConfigSelection (Choices.LIST_TYPE_DICT _) => False
  end.

(** *** Numerals *)

(** The character of a decimal digit, and the text of a list of digits. *)
Definition digit_char (d : DecimalFacts.digits) : ascii :=
  match d with
  | DecimalFacts.d0 => "0" | DecimalFacts.d1 => "1" | DecimalFacts.d2 => "2"
  | DecimalFacts.d3 => "3" | DecimalFacts.d4 => "4" | DecimalFacts.d5 => "5"
  | DecimalFacts.d6 => "6" | DecimalFacts.d7 => "7" | DecimalFacts.d8 => "8"
  | DecimalFacts.d9 => "9"
  end%char.

Fixpoint render (l : list DecimalFacts.digits) : string :=
  match l with
  | [] => EmptyString
  | d :: l' => String (digit_char d) (render l')
  end.

Definition digit_N (d : DecimalFacts.digits) : N :=
  match d with
  | DecimalFacts.d0 => 0 | DecimalFacts.d1 => 1 | DecimalFacts.d2 => 2
  | DecimalFacts.d3 => 3 | DecimalFacts.d4 => 4 | DecimalFacts.d5 => 5
  | DecimalFacts.d6 => 6 | DecimalFacts.d7 => 7 | DecimalFacts.d8 => 8
  | DecimalFacts.d9 => 9
  end%N.

Definition digit_of_Z (d : Z) : DecimalFacts.digits :=
  match d with
  | 0 => DecimalFacts.d0 | 1 => DecimalFacts.d1 | 2 => DecimalFacts.d2
  | 3 => DecimalFacts.d3 | 4 => DecimalFacts.d4 | 5 => DecimalFacts.d5
  | 6 => DecimalFacts.d6 | 7 => DecimalFacts.d7 | 8 => DecimalFacts.d8
  | _ => DecimalFacts.d9
  end.

(** The number a row of digits is read as. *)
Definition number (ds : list Z) : Z := fold_left (fun acc d => 10 * acc + d) ds 0.

(** The actions [acts], one after the other, on a [ConfigNumber]. *)
Fixpoint number_handleKeys (ConfigText_handleKey : Z -> Text.ConfigText -> result Text.ConfigText)
    (acts : list action) (s : Text.ConfigText) : result Text.ConfigText :=
  match acts with
  | [] => ret s
  | a :: rest =>
      s <- Number.handleKey ConfigText_handleKey a s ;;
      number_handleKeys ConfigText_handleKey rest s
  end.

(** A [ConfigNumber] that shows the number [v] with the cursor behind it,
    in insert mode. *)
Definition shows (v : Z) (s : Text.ConfigText) : Prop :=
  Text.text s = str_of_Z v /\ 0 <= v
  /\ Text.marked_pos s = Text.len (Text.text s)
  /\ Text.allmarked s = false /\ Text.fixed_size s = false /\ Text.overwrite s = false.

(** The entry of [value] in a dict of a [ConfigDictionarySet] is a dict, if
    there is one. *)
Definition entry_is_dict (value : string) (d : DictionarySet.dict) : bool :=
  match dict_get value d with
  | Some (PDict _) | None => true
  | Some _ => false
  end.

(** An entry that has a length. *)
Definition sized (o : pyval) : bool :=
  match o with
  | PDict _ | PStr _ | PSeq _ => true
  | _ => false
  end.

(** An entry of length 0. *)
Definition empty (o : pyval) : bool :=
  match o with
  | PDict [] | PStr EmptyString | PSeq [] => true
  | _ => false
  end.

(** The element [s] with another default. *)
Definition with_default (d : list Z) (s : Sequence.ConfigSequence)
  : Sequence.ConfigSequence :=
  Sequence.mkSeq (Sequence.seperator s) (Sequence.limits s) d (Sequence._value s)
                 (Sequence.marked_pos s) (Sequence.endNotifier s).

(** The actions [acts], one after the other, on a [ConfigSequence] whose
    lists are objects. *)
Fixpoint refs_handleKeys (acts : list action) (h : Refs.heap) (s : Refs.ConfigSequence)
  : result (Refs.heap * Refs.ConfigSequence) :=
  match acts with
  | [] => ret (h, s)
  | a :: rest => r <- Refs.handleKey a h s ;; refs_handleKeys rest (fst r) (snd r)
  end.

(** The text of the fields [pre] with the separator behind each, and of
    the fields [post] with the separator before each. *)
Fixpoint before (sep : string) (pre : list Z) : string :=
  match pre with
  | [] => EmptyString
  | j :: pre' => (str_of_Z j ++ sep ++ before sep pre')%string
  end.

Fixpoint after (sep : string) (post : list Z) : string :=
  match post with
  | [] => EmptyString
  | j :: post' => (sep ++ str_of_Z j ++ after sep post')%string
  end.

(** The names [names] lead from the member [n] to the element [e]: a name
    of a subsection, the text of a position of a list, a string that is a
    key of a dict. *)
Inductive reaches : list string -> Tree.node -> Element.ConfigElement -> Prop :=
| reaches_elem e : reaches [] (Tree.Elem e) e
| reaches_sub k names items st c e :
    dict_get k items = Some c -> reaches names c e ->
    reaches (k :: names) (Tree.Subsection items st) e
| reaches_list i names items st c e :
    nth_error items i = Some c -> reaches names c e ->
    reaches (Tree.str_of_nat i :: names) (Tree.SubList items st) e
| reaches_dict k names items st c e :
    Resolve.val_get (PStr k) items = Some c -> reaches names c e ->
    reaches (k :: names) (Tree.SubDict items st) e.

(** No dot in the name. *)
Definition dotless (name : string) : Prop :=
  all_chars (fun c => negb (Ascii.eqb c ".")) name = true.

(** The choices of a dict as pairs of identifier and description. *)
Definition entries (d : list (pyval * pyval)) : list Choices.choice :=
  map (fun kv => Choices.Tuple (fst kv) (snd kv)) d.





End Props2.

(** * Properties *)

Import Props.

(** ** Lists and the result monad *)

Section ListFacts.
Context {A : Type}.

Lemma norm_index_nonneg (n : nat) (i : nat) :
  (i < n)%nat -> norm_index n (Z.of_nat i) = Some i.
Proof.
  intros H. unfold norm_index.
  destruct (Z.ltb_spec (Z.of_nat i) 0); [lia|].
  destruct (Z.leb_spec 0 (Z.of_nat i)); [|lia].
  destruct (Z.ltb_spec (Z.of_nat i) (Z.of_nat n)); [|lia].
  simpl. now rewrite Nat2Z.id.
Qed.

Lemma norm_index_range (n : nat) (i : Z) :
  0 <= i < Z.of_nat n -> norm_index n i = Some (Z.to_nat i).
Proof.
  intros H. rewrite <- (Z2Nat.id i) at 1 by lia.
  apply norm_index_nonneg. lia.
Qed.

Lemma norm_index_beyond (n : nat) (i : Z) :
  Z.of_nat n <= i -> norm_index n i = None.
Proof.
  intros H. unfold norm_index.
  destruct (Z.ltb_spec i 0); [lia|].
  destruct (Z.leb_spec 0 i); [|lia].
  destruct (Z.ltb_spec i (Z.of_nat n)); [lia|]. reflexivity.
Qed.

Lemma getitem_nth (l : list A) (i : nat) (a : A) :
  nth_error l i = Some a -> getitem l (Z.of_nat i) = ret a.
Proof.
  intros H. unfold getitem.
  rewrite norm_index_nonneg by (apply nth_error_Some; congruence).
  now rewrite H.
Qed.

Lemma getitem_range (l : list A) (i : Z) :
  0 <= i < Z.of_nat (List.length l) ->
  exists a, nth_error l (Z.to_nat i) = Some a /\ getitem l i = ret a.
Proof.
  intros H. unfold getitem. rewrite norm_index_range by assumption.
  destruct (nth_error l (Z.to_nat i)) eqn:E.
  - eauto.
  - apply nth_error_None in E. lia.
Qed.

Lemma setitem_range (l : list A) (i : Z) (a : A) :
  0 <= i < Z.of_nat (List.length l) ->
  setitem l i a = ret (update l (Z.to_nat i) a).
Proof.
  intros H. unfold setitem. now rewrite norm_index_range.
Qed.

Lemma update_length (l : list A) (n : nat) (a : A) :
  List.length (update l n a) = List.length l.
Proof.
  revert n. induction l as [|h t IH]; intros [|n]; simpl; auto.
Qed.

Lemma nth_error_update_same (l : list A) (n : nat) (a : A) :
  (n < List.length l)%nat -> nth_error (update l n a) n = Some a.
Proof.
  revert n. induction l as [|h t IH]; intros [|n]; simpl; intros H; try lia; auto.
  apply IH. lia.
Qed.

Lemma nth_error_update_other (l : list A) (n m : nat) (a : A) :
  n <> m -> nth_error (update l n a) m = nth_error l m.
Proof.
  revert n m. induction l as [|h t IH]; intros [|n] [|m] H; simpl; auto;
    try congruence.
Qed.

End ListFacts.

Lemma bind_ret_l {A B} (a : A) (f : A -> result B) : bind (ret a) f = f a.
Proof. unfold bind, ret. destruct (f a); reflexivity. Qed.

Lemma bind_Ret_inv {A B} (m : result A) (f : A -> result B) b evs :
  bind m f = Ret b evs ->
  exists a e1 e2, m = Ret a e1 /\ f a = Ret b e2 /\ evs = e1 ++ e2.
Proof.
  unfold bind. destruct m as [a e1| |]; try discriminate.
  destruct (f a) as [b' e2| |] eqn:E; try discriminate.
  intros [= <- <-]. eauto 6.
Qed.

Lemma bind_no_fuel {A B} (m : result A) (f : A -> result B) :
  m <> Fuel -> (forall a, f a <> Fuel) -> bind m f <> Fuel.
Proof.
  intros Hm Hf. unfold bind. destruct m as [a e| |]; try congruence.
  specialize (Hf a). destruct (f a); congruence.
Qed.

Lemma bind_no_fuel_of {A B} (m : result A) (f : A -> result B) :
  m <> Fuel -> (forall a e, m = Ret a e -> f a <> Fuel) -> bind m f <> Fuel.
Proof.
  intros Hm Hf. unfold bind. destruct m as [a e| |]; try congruence.
  specialize (Hf a e eq_refl). destruct (f a); congruence.
Qed.

Lemma getitem_no_fuel {A} (l : list A) i : getitem l i <> Fuel.
Proof.
  unfold getitem. destruct (norm_index _ _); [|discriminate].
  destruct (nth_error _ _); discriminate.
Qed.

Lemma setitem_no_fuel {A} (l : list A) i a : setitem l i a <> Fuel.
Proof. unfold setitem. destruct (norm_index _ _); discriminate. Qed.

Lemma digit_of_no_fuel a : digit_of a <> Fuel.
Proof.
  unfold digit_of, getKeyNumber. destruct (_ =? _).
  - destruct (_ || _); discriminate.
  - destruct (in_ACTIONKEY_NUMBERS _); discriminate.
Qed.

(** ** ConfigClock: increment and decrement *)

Section ClockFacts.

Import Sequence Clock.

Lemma getitem_0 {A} (a : A) l : getitem (a :: l) 0 = ret a.
Proof. apply (getitem_nth (a :: l) 0). reflexivity. Qed.

Lemma getitem_1 {A} (a b : A) l : getitem (a :: b :: l) 1 = ret b.
Proof. apply (getitem_nth (a :: b :: l) 1). reflexivity. Qed.

Lemma setitem_0 {A} (a x : A) l : setitem (a :: l) 0 x = ret (x :: l).
Proof. rewrite setitem_range by (simpl List.length; lia). reflexivity. Qed.

Lemma setitem_1 {A} (a b x : A) l : setitem (a :: b :: l) 1 x = ret (a :: x :: l).
Proof. rewrite setitem_range by (simpl List.length; lia). reflexivity. Qed.

Lemma increment_eq s h m rest :
  _value s = h :: m :: rest ->
  increment s =
  Ret (set_value (if m =? 59 then (if h <? 23 then h + 1 else 0) :: 0 :: rest
                  else h :: (m + 1) :: rest) s) [Changed].
Proof.
  intros H. unfold increment. rewrite H, getitem_1, bind_ret_l.
  destruct (m =? 59).
  - rewrite getitem_0, bind_ret_l.
    destruct (h <? 23); rewrite setitem_0, bind_ret_l, setitem_1; reflexivity.
  - rewrite setitem_1. reflexivity.
Qed.

Lemma decrement_eq s h m rest :
  _value s = h :: m :: rest ->
  decrement s =
  Ret (set_value (if m =? 0 then (if h >? 0 then h - 1 else 23) :: 59 :: rest
                  else h :: (m - 1) :: rest) s) [Changed].
Proof.
  intros H. unfold decrement. rewrite H, getitem_1, bind_ret_l.
  destruct (m =? 0).
  - rewrite getitem_0, bind_ret_l.
    destruct (h >? 0); rewrite setitem_0, bind_ret_l, setitem_1; reflexivity.
  - rewrite setitem_1. reflexivity.
Qed.

Lemma set_value_twice v w s : set_value v (set_value w s) = set_value v s.
Proof. reflexivity. Qed.

Lemma set_value_same s : set_value (_value s) s = s.
Proof. now destruct s. Qed.

(** [k] increments that stay within the hour only move the minute. *)
Lemma increment_n_minutes k s h m rest :
  _value s = h :: m :: rest -> m + Z.of_nat k <= 59 ->
  increment_n k s = Ret (set_value (h :: (m + Z.of_nat k) :: rest) s) (repeat Changed k).
Proof.
  revert s m. induction k as [|k IH]; intros s m H Hk.
  - simpl. rewrite Z.add_0_r, <- H, set_value_same. reflexivity.
  - cbn [increment_n]. rewrite (increment_eq _ _ _ _ H).
    destruct (Z.eqb_spec m 59); [lia|].
    cbn [bind]. rewrite (IH _ (m + 1)); [| reflexivity | lia].
    rewrite set_value_twice. cbn [repeat app].
    replace (m + 1 + Z.of_nat k) with (m + Z.of_nat (S k)) by lia. reflexivity.
Qed.

Lemma increment_n_add a b s :
  increment_n (a + b) s = (s' <- increment_n a s ;; increment_n b s').
Proof.
  revert s. induction a as [|a IH]; intros s; cbn [increment_n Nat.add].
  - now rewrite bind_ret_l.
  - destruct (increment s) as [s1 e1| |]; cbn [bind]; try reflexivity.
    rewrite IH. destruct (increment_n a s1) as [s2 e2| |]; cbn [bind]; try reflexivity.
    destruct (increment_n b s2); try reflexivity. now rewrite app_assoc.
Qed.

End ClockFacts.

(** C8. For every ConfigClock state with hour in 0..23 and minute in 0..59,
    sixty calls of [increment] give the next hour (0 after 23) and the same
    minute, each call running [changed()] once, and [decrement] undoes
    [increment]: it returns to the very state [increment] started from. *)
Theorem clock_increment_decrement (s : Sequence.ConfigSequence) (h m : Z) (rest : list Z) :
  Sequence._value s = h :: m :: rest ->
  0 <= h <= 23 -> 0 <= m <= 59 ->
  Clock.increment_n 60 s
    = Ret (Sequence.set_value ((h + 1) mod 24 :: m :: rest) s) (repeat Changed 60)
  /\ (exists s1, Clock.increment s = Ret s1 [Changed]
                 /\ Clock.decrement s1 = Ret s [Changed]).
Proof.
  intros H Hh Hm. split.
  - replace 60%nat with (Z.to_nat (59 - m) + (1 + Z.to_nat m))%nat by lia.
    rewrite increment_n_add.
    rewrite (increment_n_minutes _ _ _ _ _ H) by lia.
    rewrite Z2Nat.id by lia. replace (m + (59 - m)) with 59 by lia.
    cbn [bind]. rewrite increment_n_add.
    cbn [Clock.increment_n].
    erewrite increment_eq by reflexivity. rewrite Z.eqb_refl. cbn [bind ret].
    erewrite increment_n_minutes; [| reflexivity | lia].
    rewrite !set_value_twice, Z2Nat.id by lia.
    cbn [bind Z.add].
    replace (if h <? 23 then h + 1 else 0) with ((h + 1) mod 24).
    + f_equal. rewrite !repeat_app. reflexivity.
    + destruct (Z.ltb_spec h 23).
      * now rewrite Z.mod_small by lia.
      * replace h with 23 by lia. reflexivity.
  - rewrite (increment_eq _ _ _ _ H). eexists. split; [reflexivity|].
    destruct (Z.eqb_spec m 59) as [->|Hne].
    + erewrite decrement_eq by reflexivity. rewrite Z.eqb_refl, set_value_twice.
      destruct (Z.ltb_spec h 23).
      * destruct (Z.gtb_spec (h + 1) 0); [|lia].
        replace (h + 1 - 1) with h by lia. now rewrite <- H, set_value_same.
      * replace h with 23 in * by lia. cbn. now rewrite <- H, set_value_same.
    + erewrite decrement_eq by reflexivity. rewrite set_value_twice.
      destruct (Z.eqb_spec (m + 1) 0); [lia|].
      replace (m + 1 - 1) with m by lia. now rewrite <- H, set_value_same.
Qed.

Lemma clock_increment_decrement_witness :
  let s := Sequence.mkSeq ":" Clock.clock_limits [23; 59] [23; 59] 0 0 in
  Clock.increment_n 60 s
    = Ret (Sequence.set_value ((23 + 1) mod 24 :: 59 :: []) s) (repeat Changed 60)
  /\ (exists s1, Clock.increment s = Ret s1 [Changed]
                 /\ Clock.decrement s1 = Ret s [Changed]).
Proof.
  apply (clock_increment_decrement
           (Sequence.mkSeq ":" Clock.clock_limits [23; 59] [23; 59] 0 0) 23 59 []);
    [reflexivity | lia | lia].
Defined.

(** ** ConfigIP: the scenario of the specification *)

(** C7. A ConfigIP with auto_jump enabled that starts at 0.0.0.0, the first
    block marked and in overwrite mode, is fed the digits 2, 5 and 6, as
    number keys or as ASCII codes.  The first field ends at 25, the marked
    block is the second one, and the second field holds the 6. *)
Theorem ip_auto_jump_scenario (c1 c2 c3 : Z) :
  let result :=
    IP.mkIP (Sequence.mkSeq "." IP.ip_limits [0; 0; 0; 0] [25; 6; 0; 0] 0 0)
            [3; 3; 3; 3] 1 false true in
  (s <- IP.init [0; 0; 0; 0] true ;;
   ip_handleKeys [Action (ACTIONKEY_0 + 2) c1; Action (ACTIONKEY_0 + 5) c2;
                  Action (ACTIONKEY_0 + 6) c3] s)
    = Ret result [Changed; Changed; Changed]
  /\ (s <- IP.init [0; 0; 0; 0] true ;;
      ip_handleKeys [Action ACTIONKEY_ASCII 50; Action ACTIONKEY_ASCII 53;
                     Action ACTIONKEY_ASCII 54] s)
    = Ret result [Changed; Changed; Changed].
Proof. split; reflexivity. Qed.

(** ** ConfigSelection *)

(** [ConfigSelection.handleKey] itself ignores every key when the choices
    have fewer than two entries: it returns the element as it was (value,
    and with it the index, and choices) and runs no notifier. *)
Theorem selection_handleKey_few_choices (PY2 : bool) (key : Z)
    (e : Element.ConfigElement) (choices : Choices.choicesList) :
  Element.cls e = Element.ConfigSelection choices ->
  (Choices.raw_len choices < 2)%nat ->
  Element.ConfigSelection_handleKey PY2 key e = Ret e [].
Proof.
  intros Hc Hn. unfold Element.ConfigSelection_handleKey. rewrite Hc.
  unfold Choices.__len__.
  destruct (Choices.raw_len choices) as [|[|n]]; try reflexivity. lia.
Qed.

Lemma selection_handleKey_few_choices_witness :
  Element.ConfigSelection_handleKey false ACTIONKEY_RIGHT
    (Element.ConfigSelection_init (Choices.LIST_TYPE_LIST [Choices.Plain (PStr "a")]) None)
  = Ret (Element.ConfigSelection_init (Choices.LIST_TYPE_LIST [Choices.Plain (PStr "a")]) None)
        [].
Proof.
  apply (selection_handleKey_few_choices false ACTIONKEY_RIGHT _
           (Choices.LIST_TYPE_LIST [Choices.Plain (PStr "a")])).
  - reflexivity.
  - simpl. lia.
Defined.

(** C10. A ConfigSelection with fewer than two choices does not ignore
    every key when it is a ConfigSelectionNumber: its [handleKey] looks the
    value up among the choices before it hands the key to
    [ConfigSelection.handleKey].  The value is an [int] and the choices are
    strings, so on Python 3, without wraparound, RIGHT and LEFT raise
    [ValueError], with the one choice of [ConfigSelectionNumber(5, 5, 1)] and
    with no choice at all ([ConfigSelectionNumber(5, 4, 1)]); the other keys,
    and every key on Python 2, where [index] compares the texts, leave the
    element as it was and call no notifier. *)
Theorem selection_number_few_choices_raises :
  let one := SelectionNumber.mkNumber
               (Element.ConfigSelection_init
                  (Choices.LIST_TYPE_LIST [Choices.Plain (PStr "5")]) (Some (PStr "5")))
               false in
  let none := SelectionNumber.mkNumber
                (Element.ConfigSelection_init (Choices.LIST_TYPE_LIST [])
                   (Some (PStr "5")))
                false in
  SelectionNumber.init 2 5 5 1 None false = Ret one []
  /\ SelectionNumber.init 1 5 4 1 None false = Ret none []
  /\ SelectionNumber.handleKey false ACTIONKEY_RIGHT one = Exc ValueError
  /\ SelectionNumber.handleKey false ACTIONKEY_LEFT one = Exc ValueError
  /\ SelectionNumber.handleKey false ACTIONKEY_RIGHT none = Exc ValueError
  /\ SelectionNumber.handleKey false ACTIONKEY_LEFT none = Exc ValueError
  /\ SelectionNumber.handleKey false ACTIONKEY_FIRST one = Ret one []
  /\ SelectionNumber.handleKey false ACTIONKEY_LAST one = Ret one []
  /\ (forall key, SelectionNumber.handleKey true key one = Ret one [])
  /\ (forall key, SelectionNumber.handleKey true key none = Ret none []).
Proof.
  cbv zeta. repeat split; try reflexivity.
  - intros key. unfold SelectionNumber.handleKey. cbn.
    destruct (key =? ACTIONKEY_RIGHT); [reflexivity|].
    destruct (key =? ACTIONKEY_LEFT); reflexivity.
  - intros key. unfold SelectionNumber.handleKey. cbn.
    destruct (key =? ACTIONKEY_RIGHT); [reflexivity|].
    destruct (key =? ACTIONKEY_LEFT); reflexivity.
Qed.

(** C5. [ConfigSelection.setValue] does raise.  On Python 3
    [choicesList.index] looks the value itself up, so the string form of an
    integer choice is a [ValueError], and [__list__] of dict choices reads a
    variable that was never assigned; on either Python a bare choice that is
    false in a condition, such as [0], is subscripted.  The Python 2 branch
    of [index] does what the comment of the class promises: it sets the
    choice whose string form is that of the value. *)
Theorem selection_setValue_raises :
  Element.ConfigSelection_setValue false
    (Element.ConfigSelection_init
       (Choices.LIST_TYPE_LIST [Choices.Plain (PInt 1); Choices.Plain (PInt 2)]) None)
    (PStr "2") = Exc ValueError
  /\ Element.ConfigSelection_setValue true
    (Element.ConfigSelection_init
       (Choices.LIST_TYPE_LIST [Choices.Plain (PInt 1); Choices.Plain (PInt 2)]) None)
    (PStr "2")
     = Ret (Element.set__value (PInt 2)
             (Element.ConfigSelection_init
               (Choices.LIST_TYPE_LIST [Choices.Plain (PInt 1); Choices.Plain (PInt 2)])
               None)) [Changed]
  /\ Element.ConfigSelection_setValue false
    (Element.ConfigSelection_init
       (Choices.LIST_TYPE_DICT [(PStr "a", PStr "A"); (PStr "b", PStr "B")]) None)
    (PStr "b") = Exc UnboundLocalError
  /\ (forall PY2,
      Element.ConfigSelection_setValue PY2
        (Element.ConfigSelection_init
           (Choices.LIST_TYPE_LIST [Choices.Plain (PInt 0); Choices.Plain (PInt 1)]) None)
        (PInt 1) = Exc TypeError).
Proof. repeat split. Qed.

(** ** The codec *)

Section CodecFacts.

Import Codec.

Lemma sorted_by_map {A B} (f : A -> B) (k1 : A -> string) (k2 : B -> string) l :
  (forall x, k2 (f x) = k1 x) ->
  sorted_by k2 (map f l) = map f (sorted_by k1 l).
Proof.
  intros Hk. induction l as [|a l IH]; [reflexivity|].
  cbn [map sorted_by fold_right]. fold (sorted_by k2 (map f l)).
  fold (sorted_by k1 l). rewrite IH. clear IH.
  induction (sorted_by k1 l) as [|y t IHt]; [reflexivity|].
  cbn [map insert_by]. rewrite !Hk. destruct (str_lt (k1 y) (k1 a)).
  - cbn [map]. now rewrite IHt.
  - reflexivity.
Qed.

(** [pickle_this] as the source writes it: the entries in sorted order, a
    call of its own for a dict, one line for anything else. *)
Lemma pickle_this_eq prefix topickle :
  pickle_this prefix topickle =
  flat_map (fun kv =>
              let name := join "." [prefix; fst kv] in
              match snd kv with
              | PDict d => pickle_this name d
              | val => [name; "="; str val; newline]
              end)
           (sorted_by (fun kv => sort_key (fst kv)) topickle).
Proof.
  unfold pickle_this at 1. cbn [pickle_entry].
  rewrite (sorted_by_map _ (fun kv : string * pyval => sort_key (fst kv)))
    by reflexivity.
  rewrite map_map, flat_map_concat_map. f_equal.
  apply map_ext. intros [k v]. cbn [fst snd]. now destruct v.
Qed.

End CodecFacts.

(** C4. [pickle] does not sort keys of digits by their number: the key
    [sorted] is given for them is [str(x[0])], the key itself, so the
    children ["2"] and ["10"] of a level are written ["10"] first. *)
Theorem pickle_digit_keys_as_text :
  Codec.sort_key "10" = "10" /\ Codec.sort_key "2" = "2"
  /\ Codec.pickle_this "config" [("2", PStr "a"); ("10", PStr "b")]
     = ["config.10"; "="; "b"; newline; "config.2"; "="; "a"; newline]
  /\ (config <- Codec.unpickle Tree.Config_init ["config.2=a"; "config.10=b"] ;;
      ret (snd (Codec.pickle config)))
     = Ret ("config.10=b" ++ newline ++ "config.2=a" ++ newline)%string [].
Proof. repeat split. Qed.

(** ** ConfigSequence: validation and digit entry *)

Section SequenceFacts.

Import Sequence.

Lemma getitem_app_mid {A} (l1 l2 : list A) (a : A) :
  getitem (l1 ++ a :: l2) (Z.of_nat (List.length l1)) = ret a.
Proof.
  apply getitem_nth. rewrite nth_error_app2 by lia.
  now rewrite Nat.sub_diag.
Qed.

Lemma update_app_mid {A} (l1 l2 : list A) (a x : A) :
  update (l1 ++ a :: l2) (List.length l1) x = l1 ++ x :: l2.
Proof. induction l1 as [|h t IH]; simpl; [reflexivity | now rewrite IH]. Qed.

Lemma setitem_app_mid {A} (l1 l2 : list A) (a x : A) :
  setitem (l1 ++ a :: l2) (Z.of_nat (List.length l1)) x = ret (l1 ++ x :: l2).
Proof.
  rewrite setitem_range.
  - now rewrite Nat2Z.id, update_app_mid.
  - rewrite length_app. simpl. lia.
Qed.

Lemma validate_loop_spec ltodo : forall todo ldone done mp,
  List.length done = List.length ldone ->
  List.length todo = List.length ltodo ->
  validate_loop (List.length todo) (Z.of_nat (List.length done))
                (ldone ++ ltodo) (done ++ todo) mp
  = Ret (done ++ clamp_all ltodo todo, mp + total_len ltodo) [].
Proof.
  induction ltodo as [|lim ltodo IH]; intros [|v todo] ldone done mp Hd Ht;
    try discriminate.
  - cbn. now rewrite Z.add_0_r.
  - cbn [List.length validate_loop].
    rewrite Hd at 1. rewrite getitem_app_mid, bind_ret_l.
    rewrite getitem_app_mid, bind_ret_l.
    assert (Hstep :
      (value <- (if v <? fst lim then setitem (done ++ v :: todo)
                                        (Z.of_nat (List.length done)) (fst lim)
                 else ret (done ++ v :: todo)) ;;
       v0 <- getitem value (Z.of_nat (List.length done)) ;;
       value0 <- (if v0 >? snd lim
                  then setitem value (Z.of_nat (List.length done)) (snd lim)
                  else ret value) ;;
       validate_loop (List.length todo) (Z.of_nat (List.length done) + 1)
                     (ldone ++ lim :: ltodo) value0 (mp + str_len (snd lim)))
      = validate_loop (List.length todo) (Z.of_nat (List.length done) + 1)
                      (ldone ++ lim :: ltodo) (done ++ clamp lim v :: todo)
                      (mp + str_len (snd lim))).
    { unfold clamp. destruct (v <? fst lim).
      - rewrite setitem_app_mid, bind_ret_l, getitem_app_mid, bind_ret_l.
        destruct (fst lim >? snd lim).
        + now rewrite setitem_app_mid, bind_ret_l.
        + now rewrite bind_ret_l.
      - rewrite bind_ret_l, getitem_app_mid, bind_ret_l.
        destruct (v >? snd lim).
        + now rewrite setitem_app_mid, bind_ret_l.
        + now rewrite bind_ret_l. }
    rewrite Hstep. clear Hstep.
    replace (Z.of_nat (List.length done) + 1)
      with (Z.of_nat (List.length (done ++ [clamp lim v])))
      by (rewrite length_app; simpl; lia).
    replace (ldone ++ lim :: ltodo) with ((ldone ++ [lim]) ++ ltodo)
      by (now rewrite <- app_assoc).
    replace (done ++ clamp lim v :: todo) with ((done ++ [clamp lim v]) ++ todo)
      by (now rewrite <- app_assoc).
    rewrite IH.
    + rewrite <- app_assoc. unfold clamp_all, total_len. cbn. f_equal.
      f_equal. lia.
    + rewrite !length_app. simpl. lia.
    + simpl in Ht. lia.
Qed.

Lemma call_end_notifiers_eq n : call_end_notifiers n = Ret tt (repeat EndReached n).
Proof.
  induction n as [|n IH]; [reflexivity|].
  cbn [call_end_notifiers]. rewrite IH. reflexivity.
Qed.

Lemma clamp_bounds lim v : fst lim <= snd lim -> fst lim <= clamp lim v <= snd lim.
Proof.
  intros H. unfold clamp.
  destruct (Z.ltb_spec v (fst lim)).
  - destruct (Z.gtb_spec (fst lim) (snd lim)); lia.
  - destruct (Z.gtb_spec v (snd lim)); lia.
Qed.

Lemma clamp_all_length limits value :
  List.length value = List.length limits ->
  List.length (clamp_all limits value) = List.length limits.
Proof.
  intros H. unfold clamp_all. rewrite length_map, length_combine. lia.
Qed.

Lemma clamp_all_in_bounds limits : forall value,
  List.length value = List.length limits ->
  Forall (fun lim => fst lim <= snd lim) limits ->
  in_bounds limits (clamp_all limits value).
Proof.
  induction limits as [|lim limits IH]; intros [|v value] Hl Hf; try discriminate.
  - constructor.
  - inversion Hf; subst. constructor.
    + now apply clamp_bounds.
    + apply IH; [simpl in Hl; lia | assumption].
Qed.

Lemma str_len_pos z : 1 <= str_len z.
Proof.
  unfold str_len, str_of_Z.
  destruct (Z.to_int z) as [d|d]; cbn [NilZero.string_of_int].
  - destruct d; cbn; lia.
  - cbn [String.length]. lia.
Qed.

Lemma total_len_nonneg limits : 0 <= total_len limits.
Proof.
  induction limits as [|lim t IH]; cbn; [lia|].
  pose proof (str_len_pos (snd lim)). fold (total_len t). lia.
Qed.

Lemma total_len_pos limits : limits <> [] -> 1 <= total_len limits.
Proof.
  destruct limits as [|lim t]; [congruence|]. intros _. cbn.
  pose proof (str_len_pos (snd lim)). pose proof (total_len_nonneg t).
  fold (total_len t). lia.
Qed.

Lemma fold_left_add_acc l acc : fold_left Z.add l acc = acc + fold_left Z.add l 0.
Proof.
  revert acc. induction l as [|x l IH]; intros acc; simpl; [lia|].
  rewrite (IH (acc + x)), (IH x). lia.
Qed.

Lemma sum_block_lens limits : sum (block_lens limits) = total_len limits.
Proof.
  unfold sum. induction limits as [|lim t IH]; [reflexivity|].
  cbn [block_lens map fold_left total_len fold_right].
  rewrite fold_left_add_acc. unfold block_lens in IH. rewrite IH.
  reflexivity.
Qed.

Lemma validate_spec s :
  well_formed (limits s) (_value s) ->
  exists p evs,
    validate s = Ret (set_marked_pos p (set_value (clamp_all (limits s) (_value s)) s)) evs
    /\ 0 <= p < total_len (limits s).
Proof.
  intros (Hne & Hlen & Hf). unfold validate.
  pose proof (validate_loop_spec (limits s) (_value s) [] [] 0 eq_refl Hlen) as Hv.
  change (validate_loop (List.length (_value s)) 0 (limits s) (_value s) 0
          = Ret (clamp_all (limits s) (_value s), 0 + total_len (limits s)) []) in Hv.
  rewrite Hv. cbn [bind fst snd app].
  pose proof (total_len_pos _ Hne) as Hpos. rewrite Z.add_0_l.
  set (s1 := set_value _ s).
  destruct (Z.geb_spec (marked_pos s1) (total_len (limits s))) as [Hge|Hlt].
  - rewrite call_end_notifiers_eq. cbn [bind ret].
    cbn [marked_pos set_marked_pos].
    destruct (Z.ltb_spec (total_len (limits s) - 1) 0); [lia|].
    eexists _, _. split; [reflexivity | lia].
  - cbn [bind ret]. destruct (Z.ltb_spec (marked_pos s1) 0).
    + exists 0, []. split; [reflexivity | lia].
    + exists (marked_pos s1), []. split; [|lia].
      f_equal. now destruct s.
Qed.

Lemma last_loop_spec ltodo : forall ldone mp,
  last_loop (List.length ltodo) (Z.of_nat (List.length ldone)) (ldone ++ ltodo) mp
  = Ret (mp + total_len ltodo) [].
Proof.
  induction ltodo as [|lim ltodo IH]; intros ldone mp.
  - cbn. now rewrite Z.add_0_r.
  - cbn [List.length last_loop]. rewrite getitem_app_mid, bind_ret_l.
    replace (Z.of_nat (List.length ldone) + 1)
      with (Z.of_nat (List.length (ldone ++ [lim])))
      by (rewrite length_app; simpl; lia).
    replace (ldone ++ lim :: ltodo) with ((ldone ++ [lim]) ++ ltodo)
      by (now rewrite <- app_assoc).
    rewrite IH. unfold total_len. cbn. f_equal. lia.
Qed.

(** Once the block is found the loop of [find_block] only lengthens
    [block_len_total]. *)
Lemma find_block_stopped bl mp bn : forall n pos blt,
  (Z.to_nat bn < List.length bl)%nat -> 0 <= bn ->
  Forall (fun x => 0 <= x) bl ->
  pos - 1 >= mp ->
  exists extra, find_block n bl mp pos bn blt = Ret (bn, blt ++ extra) [].
Proof.
  intros n. induction n as [|n IH]; intros pos blt Hb Hb0 Hpos Hge.
  - exists []. cbn. now rewrite app_nil_r.
  - cbn [find_block].
    destruct (getitem_range bl bn) as (x & Hx & ->); [lia|].
    rewrite bind_ret_l.
    assert (0 <= x).
    { rewrite Forall_forall in Hpos. apply Hpos. eapply nth_error_In; eauto. }
    destruct (Z.geb_spec (pos + x - 1) mp); [|lia].
    destruct (IH (pos + x) (blt ++ [pos + x]) Hb Hb0 Hpos) as (extra & ->); [lia|].
    exists ([pos + x] ++ extra). now rewrite app_assoc.
Qed.

Lemma find_block_spec mp suf : forall pre pos blt,
  Forall (fun x => 1 <= x) (pre ++ suf) ->
  pos <= mp < pos + fold_right Z.add 0 suf ->
  List.length blt = S (List.length pre) ->
  nth_error blt (List.length pre) = Some pos ->
  exists b blt' p x,
    find_block (List.length suf) (pre ++ suf) mp pos (Z.of_nat (List.length pre)) blt
      = Ret (Z.of_nat b, blt') []
    /\ nth_error blt' b = Some p
    /\ nth_error (pre ++ suf) b = Some x
    /\ p <= mp < p + x.
Proof.
  induction suf as [|x suf IH]; intros pre pos blt Hpos Hmp Hlen Hnth.
  - cbn in Hmp. lia.
  - cbn [List.length find_block]. rewrite getitem_app_mid, bind_ret_l.
    destruct (Z.geb_spec (pos + x - 1) mp) as [Hge|Hlt].
    + destruct (find_block_stopped (pre ++ x :: suf) mp (Z.of_nat (List.length pre))
                  (List.length suf) (pos + x) (blt ++ [pos + x])) as (extra & ->).
      * rewrite Nat2Z.id, length_app. simpl. lia.
      * lia.
      * eapply Forall_impl; [|exact Hpos]. cbn. intros. lia.
      * lia.
      * exists (List.length pre), ((blt ++ [pos + x]) ++ extra), pos, x.
        split; [reflexivity|]. repeat split.
        -- rewrite <- app_assoc, nth_error_app1 by lia. assumption.
        -- rewrite nth_error_app2 by lia. now rewrite Nat.sub_diag.
        -- lia.
        -- lia.
    + replace (Z.of_nat (List.length pre) + 1)
        with (Z.of_nat (List.length (pre ++ [x])))
        by (rewrite length_app; simpl; lia).
      replace (pre ++ x :: suf) with ((pre ++ [x]) ++ suf) in *
        by (now rewrite <- app_assoc).
      apply IH.
      * assumption.
      * cbn in Hmp. lia.
      * rewrite !length_app. simpl. lia.
      * rewrite length_app. simpl.
        rewrite nth_error_app2 by lia.
        replace (List.length pre + 1 - List.length blt)%nat with O by lia.
        reflexivity.
Qed.

Lemma block_lens_pos limits : Forall (fun x => 1 <= x) (block_lens limits).
Proof.
  unfold block_lens. apply Forall_forall. intros x Hx.
  apply in_map_iff in Hx. destruct Hx as (lim & <- & _). apply str_len_pos.
Qed.

Lemma block_lens_total limits : fold_right Z.add 0 (block_lens limits) = total_len limits.
Proof.
  induction limits as [|lim t IH]; [reflexivity|].
  cbn. unfold block_lens in IH. rewrite IH. reflexivity.
Qed.

Lemma digit_of_cases a :
  in_ACTIONKEY_NUMBERS (act_key a) || (act_key a =? ACTIONKEY_ASCII) = true ->
  (digit_of a = Ret (inl tt) [] /\ ~ digit_action a)
  \/ (exists number, digit_of a = Ret (inr number) [] /\ digit_action a).
Proof.
  intros H. unfold digit_of, digit_action.
  destruct (Z.eqb_spec (act_key a) ACTIONKEY_ASCII) as [He|Hne].
  - destruct ((act_code a <? 48) || (act_code a >? 57)) eqn:Hc.
    + left. split; [reflexivity|]. intros [Hn|[_ Hr]].
      * rewrite He in Hn. discriminate.
      * apply orb_true_iff in Hc. destruct Hc as [Hc|Hc].
        -- apply Z.ltb_lt in Hc. lia.
        -- apply Z.gtb_lt in Hc. lia.
    + right. eexists. split; [reflexivity|]. right. split; [assumption|].
      apply orb_false_iff in Hc. destruct Hc as [H1 H2].
      apply Z.ltb_ge in H1. rewrite Z.gtb_ltb in H2. apply Z.ltb_ge in H2. lia.
  - rewrite orb_false_r in H. unfold getKeyNumber. rewrite H.
    right. eexists. split; [reflexivity|]. now left.
Qed.

Lemma digit_action_keys a :
  digit_action a ->
  in_ACTIONKEY_NUMBERS (act_key a) || (act_key a =? ACTIONKEY_ASCII) = true
  /\ (act_key a =? ACTIONKEY_FIRST) = false /\ (act_key a =? ACTIONKEY_LEFT) = false
  /\ (act_key a =? ACTIONKEY_RIGHT) = false /\ (act_key a =? ACTIONKEY_LAST) = false.
Proof.
  unfold digit_action, in_ACTIONKEY_NUMBERS.
  intros [H|[H _]].
  - rewrite H. apply andb_true_iff in H. destruct H as [H1 H2].
    apply Z.leb_le in H1. apply Z.ltb_lt in H2.
    repeat split; try (apply Z.eqb_neq; unfold ACTIONKEY_FIRST, ACTIONKEY_LEFT,
      ACTIONKEY_RIGHT, ACTIONKEY_LAST; lia).
  - rewrite H. repeat split.
Qed.

Lemma pow10_nonneg e : 0 <= e -> pow10 e = ret (10 ^ e).
Proof. intros H. unfold pow10. destruct (Z.ltb_spec e 0); [lia | reflexivity]. Qed.

Lemma validatePos_spec s x :
  limits s <> [] ->
  exists p, validatePos (set_marked_pos x s) = set_marked_pos p s
            /\ 0 <= p < total_len (limits s).
Proof.
  intros Hne. pose proof (total_len_pos _ Hne) as Hpos.
  unfold validatePos. cbn [marked_pos set_marked_pos].
  destruct (Z.ltb_spec x 0); cbn [marked_pos set_marked_pos limits];
    rewrite sum_block_lens.
  - destruct (Z.geb_spec 0 (total_len (limits s))); [lia|].
    exists 0. split; [reflexivity | lia].
  - destruct (Z.geb_spec x (total_len (limits s))).
    + eexists. split; [reflexivity | lia].
    + exists x. split; [reflexivity | lia].
Qed.

Lemma seq_ok_set_marked_pos s p :
  well_formed (limits s) (_value s) -> 0 <= p < total_len (limits s) ->
  seq_ok (set_marked_pos p s).
Proof. intros H Hp. split; assumption. Qed.

End SequenceFacts.

Ltac not_a_digit :=
  let Hd := fresh "Hd" in
  intros Hd; apply digit_action_keys in Hd; intuition congruence.

Ltac nav_done :=
  split; [reflexivity|];
  split; [apply seq_ok_set_marked_pos; assumption|];
  split; [not_a_digit | auto].

Section SequenceHandlers.

Import Sequence.

(** Every action leaves a sequence editor in a good state; a digit leaves
    every field within its bounds, and no action takes a field out of
    them. *)
Lemma seq_handleKey_ok a s :
  seq_ok s ->
  exists s' evs,
    Sequence.handleKey a s = Ret s' evs
    /\ limits s' = limits s
    /\ seq_ok s'
    /\ (digit_action a -> in_bounds (limits s) (_value s'))
    /\ (in_bounds (limits s) (_value s) -> in_bounds (limits s) (_value s')).
Proof.
  intros [Hwf Hmp]. pose proof Hwf as (Hne & Hlen & Hf).
  unfold Sequence.handleKey.
  destruct (act_key a =? ACTIONKEY_FIRST) eqn:K1.
  { destruct (validatePos_spec s 0 Hne) as (p & -> & Hp).
    eexists _, _. split; [reflexivity|]. nav_done. }
  destruct (act_key a =? ACTIONKEY_LEFT) eqn:K2.
  { destruct (validatePos_spec s (marked_pos s - 1) Hne) as (p & -> & Hp).
    eexists _, _. split; [reflexivity|]. nav_done. }
  destruct (act_key a =? ACTIONKEY_RIGHT) eqn:K3.
  { destruct (validatePos_spec s (marked_pos s + 1) Hne) as (p & -> & Hp).
    eexists _, _. split; [reflexivity|]. nav_done. }
  destruct (act_key a =? ACTIONKEY_LAST) eqn:K4.
  { pose proof (last_loop_spec (limits s) [] 0) as Hl.
    change (last_loop (List.length (limits s)) 0 (limits s) 0
            = Ret (0 + total_len (limits s)) []) in Hl.
    rewrite Hlen, Hl. cbn [bind ret app].
    destruct (validatePos_spec s (0 + total_len (limits s) - 1) Hne) as (p & -> & Hp).
    eexists _, _. split; [reflexivity|]. nav_done. }
  destruct (in_ACTIONKEY_NUMBERS (act_key a) || (act_key a =? ACTIONKEY_ASCII)) eqn:K5.
  2:{ exists s, []. split; [reflexivity|]. split; [reflexivity|].
      split; [split; assumption|]. split; [not_a_digit | auto]. }
  destruct (digit_of_cases a K5) as [[-> Hnd] | (number & -> & Hd)].
  { exists s, []. split; [reflexivity|]. split; [reflexivity|].
    split; [split; assumption|]. split; [intros; contradiction | auto]. }
  cbn [bind app].
  destruct (find_block_spec (marked_pos s) (block_lens (limits s)) [] 0 [0])
    as (b & blt & p & x & Hfb & Hp & Hx & Hpx).
  { apply block_lens_pos. }
  { rewrite block_lens_total. lia. }
  { reflexivity. }
  { reflexivity. }
  change ([] ++ block_lens (limits s)) with (block_lens (limits s)) in Hfb, Hx.
  change (Z.of_nat (@List.length Z [])) with 0 in Hfb.
  rewrite Hfb. cbn [bind fst snd app].
  unfold block_lens in Hx. rewrite nth_error_map in Hx.
  destruct (nth_error (limits s) b) as [lim|] eqn:Hlim; [|discriminate].
  cbn in Hx. injection Hx as <-.
  rewrite (getitem_nth _ _ _ Hlim), bind_ret_l.
  rewrite (getitem_nth _ _ _ Hp), bind_ret_l.
  assert (Hb : (b < List.length (_value s))%nat).
  { rewrite Hlen. apply nth_error_Some. congruence. }
  destruct (getitem_range (_value s) (Z.of_nat b)) as (v & _ & ->); [lia|].
  rewrite bind_ret_l.
  rewrite !pow10_nonneg by lia. rewrite !bind_ret_l.
  rewrite setitem_range by lia. rewrite bind_ret_l, Nat2Z.id.
  match goal with
  | |- context [validate ?t] =>
      destruct (validate_spec t) as (p' & evs & -> & Hp')
  end.
  { cbn [limits _value set_marked_pos set_value].
    split; [assumption|]. split; [|assumption]. now rewrite update_length. }
  cbn [bind emit ret limits _value set_marked_pos set_value].
  eexists _, _. split; [reflexivity|].
  cbn [limits _value set_marked_pos set_value] in *.
  assert (Hlen' : List.length (update (_value s) b
            (Z.abs v - (Z.abs v mod 10 ^ (str_len (snd lim) - (marked_pos s - p))
                        - Z.abs v mod 10 ^ (str_len (snd lim) - (marked_pos s - p) - 1))
             + 10 ^ (str_len (snd lim) - (marked_pos s - p) - 1) * number))
          = List.length (limits s)) by now rewrite update_length.
  split; [reflexivity|]. split.
  - split; [|assumption]. split; [assumption|]. split; [|assumption].
    cbn [limits _value set_marked_pos set_value]. now apply clamp_all_length.
  - split; intros _; now apply clamp_all_in_bounds.
Qed.



End SequenceHandlers.

(** ** ConfigIP: digit entry *)

Section IPFacts.

Import Sequence IP.

Lemma body_moves_right self : moves_right (handleKey_body self).
Proof. intros c s. reflexivity. Qed.

Lemma rec_moves_right f : moves_right (handleKey_rec (S f)).
Proof. intros c s. reflexivity. Qed.








Lemma validate_loop_no_fuel n : forall num limits value mp,
  validate_loop n num limits value mp <> Fuel.
Proof.
  induction n as [|n IH]; intros num limits value mp; [discriminate|].
  cbn [validate_loop].
  apply bind_no_fuel; [apply getitem_no_fuel | intros lim].
  apply bind_no_fuel; [apply getitem_no_fuel | intros v].
  apply bind_no_fuel;
    [destruct (_ <? _); [apply setitem_no_fuel | discriminate] | intros value1].
  apply bind_no_fuel; [apply getitem_no_fuel | intros v1].
  apply bind_no_fuel;
    [destruct (_ >? _); [apply setitem_no_fuel | discriminate] | intros value2].
  apply IH.
Qed.

Lemma validate_no_fuel q : validate q <> Fuel.
Proof.
  unfold validate.
  apply bind_no_fuel; [apply validate_loop_no_fuel | intros r].
  apply bind_no_fuel.
  - destruct (_ >=? _); [|discriminate].
    rewrite call_end_notifiers_eq. discriminate.
  - intros q'. destruct (_ <? _); discriminate.
Qed.

(** The calls a digit makes of [handleKey] itself: the move to the right,
    and the digit again on a state in overwrite mode when the digit came in
    append mode.  Two versions of [self] that agree on these give the same
    result. *)
Lemma handleKey_body_ext self1 self2 a s :
  moves_right self1 -> moves_right self2 ->
  (overwrite s = false ->
   forall s', overwrite s' = true -> self1 a s' = self2 a s') ->
  handleKey_body self1 a s = handleKey_body self2 a s.
Proof.
  intros H1 H2 H3. unfold handleKey_body.
  repeat (destruct (act_key a =? _); [reflexivity|]).
  destruct (_ || _); [|reflexivity].
  destruct (digit_of a) as [[[]|number] e0| |]; cbn [bind]; try reflexivity.
  destruct (getitem (_value (seq s)) (marked_block s)) as [v e1| |];
    cbn [bind]; try reflexivity.
  assert (Htail : forall s1 : ConfigIP,
    (v0 <- getitem (_value (seq s1)) (marked_block s1) ;;
     bl <- getitem (block_len s1) (marked_block s1) ;;
     s2 <- (if str_len v0 >=? bl
            then self1 (Action ACTIONKEY_RIGHT (act_code a)) s1 else ret s1) ;;
     q <- validate (seq s2) ;; emit Changed ;;; ret (set_seq q s2))
    = (v0 <- getitem (_value (seq s1)) (marked_block s1) ;;
       bl <- getitem (block_len s1) (marked_block s1) ;;
       s2 <- (if str_len v0 >=? bl
              then self2 (Action ACTIONKEY_RIGHT (act_code a)) s1 else ret s1) ;;
       q <- validate (seq s2) ;; emit Changed ;;; ret (set_seq q s2))).
  { intros s1.
    destruct (getitem (_value (seq s1)) (marked_block s1)) as [v0 e2| |];
      cbn [bind]; try reflexivity.
    destruct (getitem (block_len s1) (marked_block s1)) as [bl e3| |];
      cbn [bind]; try reflexivity.
    now rewrite H1, H2. }
  destruct (overwrite s) eqn:How.
  - destruct (setitem _ _ _) as [value e2| |]; cbn [bind ret]; try reflexivity.
    now rewrite Htail.
  - specialize (H3 eq_refl).
    destruct (auto_jump s).
    + destruct (getitem (limits (seq s)) (marked_block s)) as [lim e2| |];
        cbn [bind ret]; try reflexivity.
      destruct (_ && _).
      * rewrite H1, H2. cbn [bind].
        rewrite (H3 (move_right s)) by reflexivity.
        destruct (self2 a (move_right s)); reflexivity.
      * destruct (setitem _ _ _) as [value e3| |]; cbn [bind ret]; try reflexivity.
        now rewrite Htail.
    + cbn [bind ret].
      destruct (setitem _ _ _) as [value e3| |]; cbn [bind ret]; try reflexivity.
      now rewrite Htail.
Qed.

(** More than three levels of [fuel] change nothing. *)
Lemma handleKey_rec_fuel n a s : handleKey_rec (3 + n) a s = IP.handleKey a s.
Proof.
  unfold IP.handleKey.
  change (handleKey_body (handleKey_rec (S (S n))) a s
          = handleKey_body (handleKey_rec 2) a s).
  apply handleKey_body_ext; try apply rec_moves_right.
  intros _ s' How.
  change (handleKey_body (handleKey_rec (S n)) a s'
          = handleKey_body (handleKey_rec 1) a s').
  apply handleKey_body_ext; try apply rec_moves_right.
  congruence.
Qed.

Lemma handleKey_body_no_fuel self a s :
  moves_right self ->
  (overwrite s = false -> forall s', overwrite s' = true -> self a s' <> Fuel) ->
  handleKey_body self a s <> Fuel.
Proof.
  intros H1 H3. unfold handleKey_body.
  repeat (destruct (act_key a =? _); [discriminate|]).
  destruct (_ || _); [|discriminate].
  apply bind_no_fuel; [apply digit_of_no_fuel | intros [[]|number]];
    [discriminate|].
  apply bind_no_fuel; [apply getitem_no_fuel | intros v].
  assert (Htail : forall s1 : ConfigIP,
    (v0 <- getitem (_value (seq s1)) (marked_block s1) ;;
     bl <- getitem (block_len s1) (marked_block s1) ;;
     s2 <- (if str_len v0 >=? bl
            then self (Action ACTIONKEY_RIGHT (act_code a)) s1 else ret s1) ;;
     q <- validate (seq s2) ;; emit Changed ;;; ret (set_seq q s2)) <> Fuel).
  { intros s1.
    apply bind_no_fuel; [apply getitem_no_fuel | intros v0].
    apply bind_no_fuel; [apply getitem_no_fuel | intros bl].
    apply bind_no_fuel.
    - destruct (_ >=? _); [rewrite H1|]; discriminate.
    - intros s2. apply bind_no_fuel; [apply validate_no_fuel | intros q].
      discriminate. }
  apply bind_no_fuel.
  - destruct (overwrite s) eqn:How.
    + apply bind_no_fuel; [apply setitem_no_fuel | discriminate].
    + specialize (H3 eq_refl). apply bind_no_fuel.
      * destruct (auto_jump s); [|discriminate].
        apply bind_no_fuel; [apply getitem_no_fuel | discriminate].
      * intros [|].
        -- rewrite H1. cbn [bind].
           specialize (H3 (move_right s) eq_refl).
           destruct (self a (move_right s)); [discriminate | discriminate | congruence].
        -- apply bind_no_fuel; [apply setitem_no_fuel | discriminate].
  - intros [s1|s1]; [discriminate | apply Htail].
Qed.

(** [handleKey] never runs out of [fuel]. *)
Lemma handleKey_no_fuel a s : IP.handleKey a s <> Fuel.
Proof.
  unfold IP.handleKey.
  change (handleKey_body (handleKey_rec 2) a s <> Fuel).
  apply handleKey_body_no_fuel; [apply rec_moves_right|].
  intros _ s' How.
  change (handleKey_body (handleKey_rec 1) a s' <> Fuel).
  apply handleKey_body_no_fuel; [apply rec_moves_right | congruence].
Qed.

End IPFacts.

(** ** Round trips through the persisted form *)

Section RoundTrip.

Import Sequence.

Lemma string_of_uint_digits d : all_chars is_digit (NilEmpty.string_of_uint d) = true.
Proof. induction d; cbn; auto. Qed.

Lemma nilzero_string_of_uint_digits d :
  all_chars is_digit (NilZero.string_of_uint d) = true.
Proof. destruct d; try reflexivity; apply (string_of_uint_digits (_ d)). Qed.

Lemma all_chars_impl (p q : ascii -> bool) s :
  (forall c, p c = true -> q c = true) ->
  all_chars p s = true -> all_chars q s = true.
Proof.
  intros Hpq. induction s as [|c s IH]; [reflexivity|]. cbn.
  intros H. apply andb_true_iff in H. destruct H as [H1 H2].
  now rewrite (Hpq _ H1), IH.
Qed.

Lemma str_of_Z_numeric z : all_chars numeric (str_of_Z z) = true.
Proof.
  unfold str_of_Z. destruct (Z.to_int z) as [d|d]; cbn [NilZero.string_of_int].
  - eapply all_chars_impl; [|apply nilzero_string_of_uint_digits].
    intros c Hc. unfold numeric. now rewrite Hc.
  - cbn [all_chars]. apply andb_true_iff. split; [reflexivity|].
    eapply all_chars_impl; [|apply nilzero_string_of_uint_digits].
    intros c Hc. unfold numeric. now rewrite Hc.
Qed.

Lemma numeric_not_space c : numeric c = true -> is_space c = false.
Proof.
  unfold numeric, is_digit, is_space. intros H.
  apply orb_true_iff in H. destruct H as [H|H].
  - apply andb_true_iff in H. destruct H as [H1 H2].
    apply Nat.leb_le in H1. apply Nat.leb_le in H2.
    apply orb_false_iff. split.
    + apply andb_false_iff. right. apply Nat.leb_gt. lia.
    + apply Nat.eqb_neq. lia.
  - apply Ascii.eqb_eq in H. subst. reflexivity.
Qed.

Lemma rstrip_no_space s :
  all_chars (fun c => negb (is_space c)) s = true -> rstrip s = s.
Proof.
  induction s as [|c s IH]; [reflexivity|]. cbn. intros H.
  apply andb_true_iff in H. destruct H as [H1 H2].
  rewrite (IH H2). apply negb_true_iff in H1. rewrite H1.
  now destruct s.
Qed.

Lemma strip_no_space s :
  all_chars (fun c => negb (is_space c)) s = true -> strip s = s.
Proof.
  intros H. unfold strip.
  destruct s as [|c s]; [reflexivity|].
  cbn [lstrip]. pose proof H as H'. cbn in H'.
  apply andb_true_iff in H'. destruct H' as [H1 _].
  apply negb_true_iff in H1. rewrite H1. now apply rstrip_no_space.
Qed.

Lemma int_digits_uint d :
  d <> Nil -> int_digits (NilZero.string_of_uint d) = Ret (Z.of_uint d) [].
Proof. intros H. unfold int_digits. now rewrite NilZero.usu. Qed.

Lemma nilzero_first_digit d :
  exists c rest, NilZero.string_of_uint d = String c rest /\ is_digit c = true.
Proof. destruct d; cbn; eexists _, _; split; reflexivity. Qed.

Lemma is_digit_not_sign c :
  is_digit c = true -> Ascii.eqb c "-" = false /\ Ascii.eqb c "+" = false.
Proof.
  intros H. split; apply Ascii.eqb_neq; intros ->; discriminate.
Qed.

(** [int(str(z))] is [z]. *)
Lemma int_of_str_of_Z z : int_of_str (str_of_Z z) = Ret z [].
Proof.
  unfold int_of_str. rewrite strip_no_space.
  2:{ eapply all_chars_impl; [|apply str_of_Z_numeric].
      intros c Hc. now rewrite (numeric_not_space c Hc). }
  unfold str_of_Z. destruct z as [|p|p]; [reflexivity| |].
  - cbn [Z.to_int NilZero.string_of_int].
    destruct (nilzero_first_digit (Pos.to_uint p)) as (c & rest & E & Hc).
    rewrite E. destruct (is_digit_not_sign c Hc) as [-> ->].
    rewrite <- E, int_digits_uint by apply DecimalPos.Unsigned.to_uint_nonnil.
    unfold Z.of_uint. now rewrite DecimalPos.Unsigned.of_to.
  - cbn [Z.to_int NilZero.string_of_int]. rewrite Ascii.eqb_refl.
    rewrite int_digits_uint by apply DecimalPos.Unsigned.to_uint_nonnil.
    unfold Z.of_uint. rewrite DecimalPos.Unsigned.of_to. reflexivity.
Qed.

Lemma int_all_strs l : int_all (map str_of_Z l) = Ret l [].
Proof.
  induction l as [|z l IH]; [reflexivity|].
  cbn [map int_all]. rewrite int_of_str_of_Z. cbn [bind]. rewrite IH. reflexivity.
Qed.

Lemma prefix_app sep rest : String.prefix sep (sep ++ rest) = true.
Proof.
  induction sep as [|c sep IH]; cbn.
  - now destruct rest.
  - destruct (ascii_dec c c); [assumption | congruence].
Qed.

Lemma prefix_first c0 sep c s :
  c <> c0 -> String.prefix (String c0 sep) (String c s) = false.
Proof. intros H. cbn. destruct (ascii_dec c0 c); [congruence | reflexivity]. Qed.

Lemma split_go_skip sep skipped rest :
  split_go sep (String.length skipped) (skipped ++ rest) = split_go sep O rest.
Proof. induction skipped as [|c sk IH]; [reflexivity | exact IH]. Qed.

Lemma join_cons sep p q ps :
  join sep (p :: q :: ps) = (p ++ sep ++ join sep (q :: ps))%string.
Proof. reflexivity. Qed.

Lemma append_assoc (a b c : string) : ((a ++ b) ++ c = a ++ b ++ c)%string.
Proof. induction a as [|x a IH]; cbn; [reflexivity | now rewrite IH]. Qed.

(** [split] undoes [join] on pieces free of the first character of the
    separator. *)
Lemma split_go_join c0 sep ps : forall p,
  Forall (fun q => all_chars (fun c => negb (Ascii.eqb c c0)) q = true) (p :: ps) ->
  split_go (String c0 sep) O (join (String c0 sep) (p :: ps)) = p :: ps.
Proof.
  induction ps as [|q ps IH]; intros p Hall.
  - cbn [join String.concat]. inversion Hall as [|? ? Hp _]; subst. clear Hall.
    induction p as [|c p IHp]; [reflexivity|].
    cbn in Hp. apply andb_true_iff in Hp. destruct Hp as [Hc Hp].
    apply negb_true_iff, Ascii.eqb_neq in Hc.
    cbn [split_go]. rewrite (prefix_first _ _ _ _ Hc), (IHp Hp). reflexivity.
  - rewrite join_cons. inversion Hall as [|? ? Hp Hrest]; subst.
    specialize (IH q Hrest). clear Hall.
    induction p as [|c p IHp].
    + change (("" ++ String c0 sep ++ join (String c0 sep) (q :: ps))%string)
        with (String c0 (sep ++ join (String c0 sep) (q :: ps))).
      cbn [split_go].
      change (String c0 (sep ++ join (String c0 sep) (q :: ps)))
        with ((String c0 sep ++ join (String c0 sep) (q :: ps))%string).
      rewrite prefix_app.
      replace (String.length (String c0 sep) - 1)%nat with (String.length sep)
        by (cbn [String.length]; lia).
      now rewrite split_go_skip, IH.
    + cbn in Hp. apply andb_true_iff in Hp. destruct Hp as [Hc Hp].
      apply negb_true_iff, Ascii.eqb_neq in Hc.
      change ((String c p ++ String c0 sep ++ join (String c0 sep) (q :: ps))%string)
        with (String c (p ++ String c0 sep ++ join (String c0 sep) (q :: ps))).
      cbn [split_go]. rewrite (prefix_first _ _ _ _ Hc), (IHp Hp). reflexivity.
Qed.

Lemma numeric_pieces c0 l :
  is_digit c0 = false -> c0 <> "-"%char ->
  Forall (fun q => all_chars (fun c => negb (Ascii.eqb c c0)) q = true)
         (map str_of_Z l).
Proof.
  intros Hd Hm. apply Forall_forall. intros q Hq.
  apply in_map_iff in Hq. destruct Hq as (z & <- & _).
  eapply all_chars_impl; [|apply str_of_Z_numeric].
  intros c Hc. apply negb_true_iff, Ascii.eqb_neq. intros ->.
  unfold numeric in Hc. rewrite Hd in Hc. cbn in Hc.
  apply Ascii.eqb_eq in Hc. congruence.
Qed.

(** [fromstring] reads back what [tostring] wrote, and fills up from the
    lower bounds when there are more bounds than fields. *)
Lemma sequence_fromstring_tostring seperator limits v :
  separates seperator -> v <> [] ->
  Sequence.fromstring seperator limits (Sequence.tostring seperator v)
  = Ret (v ++ map fst (skipn (List.length v) limits)) [].
Proof.
  intros (c0 & sep & -> & Hd & Hm) Hv.
  unfold Sequence.fromstring, Sequence.tostring, split.
  change saveSingle with str_of_Z.
  destruct v as [|z v]; [congruence|].
  cbn [map]. rewrite split_go_join by (apply (numeric_pieces c0 (z :: v)); assumption).
  rewrite bind_ret_l.
  change (str_of_Z z :: map str_of_Z v) with (map str_of_Z (z :: v)).
  rewrite int_all_strs. reflexivity.
Qed.

End RoundTrip.

(** Takes apart hypotheses that say a computation returned. *)
Ltac inv_ret :=
  repeat match goal with
  | H : bind _ _ = Ret _ _ |- _ =>
      apply bind_Ret_inv in H; destruct H as (? & ? & ? & ? & ? & ?)
  | H : ret _ = Ret _ _ |- _ => unfold ret in H
  | H : emit _ = Ret _ _ |- _ => unfold emit in H
  | H : Ret _ _ = Ret _ _ |- _ => injection H as ? ?
  | H : Exc _ = Ret _ _ |- _ => discriminate H
  | H : Fuel = Ret _ _ |- _ => discriminate H
  | H : (if ?b then _ else _) = Ret _ _ |- _ => destruct b
  | H : match ?x with inl _ => _ | inr _ => _ end = Ret _ _ |- _ => destruct x
  | H : inl _ = inl _ |- _ => injection H as ?
  | H : inr _ = inr _ |- _ => injection H as ?
  | H : inl _ = inr _ |- _ => discriminate H
  | H : inr _ = inl _ |- _ => discriminate H
  end; subst.

Section Frames.

Import Sequence IP.






End Frames.

Section Reachable.

Import Sequence IP.

Lemma seq_handleKeys_reach acts : forall s,
  seq_ok s -> exists s' evs, handleKeys acts s = Ret s' evs /\ seq_ok s'.
Proof.
  induction acts as [|a acts IH]; intros s Hok.
  - exists s, []. split; [reflexivity | assumption].
  - cbn [handleKeys].
    destruct (seq_handleKey_ok a s Hok) as (s1 & e1 & -> & _ & Hok1 & _).
    destruct (IH s1 Hok1) as (s2 & e2 & H2 & Hok2).
    cbn [bind]. rewrite H2. eexists _, _. split; [reflexivity | assumption].
Qed.


Lemma well_formed_round_trip seperator limits v :
  separates seperator -> well_formed limits v ->
  Sequence.fromstring seperator limits (Sequence.tostring seperator v) = Ret v [].
Proof.
  intros Hsep (Hne & Hlen & _).
  rewrite sequence_fromstring_tostring; [|assumption|].
  - rewrite Hlen, skipn_all. cbn [map]. now rewrite app_nil_r.
  - intros ->. destruct limits; [congruence | discriminate].
Qed.



End Reachable.





(** ** The clock editor *)

Section ClockHandlers.

Import Sequence Clock.






Lemma string_length_app (a b : string) :
  String.length (a ++ b) = (String.length a + String.length b)%nat.
Proof. induction a as [|c a IH]; cbn; [reflexivity | now rewrite IH]. Qed.




Lemma digit_of_range a digit : digit_of a = Ret (inr digit) [] -> 0 <= digit <= 9.
Proof.
  unfold digit_of, getKeyNumber, in_ACTIONKEY_NUMBERS, ACTIONKEY_0.
  destruct (act_key a =? ACTIONKEY_ASCII).
  - destruct (Z.ltb_spec (act_code a) 48); cbn [orb]; [discriminate|].
    rewrite Z.gtb_ltb. destruct (Z.ltb_spec 57 (act_code a)); [discriminate|].
    intros E. injection E as <-. lia.
  - destruct (Z.leb_spec 12 (act_key a)); cbn [andb]; [|discriminate].
    destruct (Z.ltb_spec (act_key a) (12 + 10)); [|discriminate].
    cbn [bind ret app]. intros E. injection E as <-. lia.
Qed.








End ClockHandlers.



(** The clock at 13:45 takes the digits 2, 3, 5, 9 on the 24 hour display
    and reads 23:59; a clock that was loaded as 99:99 turns the digit 9 down
    and is left as it was. *)
Lemma clock_digit_entry_scenario :
  let key n := Action (ACTIONKEY_0 + n) 0 in
  let clock := Sequence.mkSeq ":" Clock.clock_limits [13; 45] [13; 45] 0 0 in
  (exists c evs,
     clock_handleKeys false [key 2; key 3; key 5; key 9] clock = Ret c evs
     /\ Sequence._value c = [23; 59])
  /\ (exists c evs,
       clock_handleKeys true [key 1; key 2; key 5; key 9] clock = Ret c evs
       /\ Sequence._value c = [12; 59])
  /\ Clock.handleKey false (key 9) (Sequence.set_value [99; 99] clock)
     = Ret (Sequence.set_value [99; 99] clock) [].
Proof.
  split; [|split]; [eexists _, _; split; vm_compute; reflexivity ..| reflexivity].
Qed.


(** ** The containers *)

Section DictFacts.
Context {V : Type}.

Lemma dict_get_set_same k (v : V) d : dict_get k (dict_set k v d) = Some v.
Proof.
  induction d as [|[k' v'] d IH]; cbn.
  - now rewrite String.eqb_refl.
  - destruct (String.eqb k k') eqn:E; cbn; now rewrite E.
Qed.

Lemma dict_get_set_other k k' (v : V) d :
  k' <> k -> dict_get k' (dict_set k v d) = dict_get k' d.
Proof.
  intros Hne. induction d as [|[k1 v1] d IH]; cbn.
  - apply String.eqb_neq in Hne. now rewrite Hne.
  - destruct (String.eqb k k1) eqn:E; cbn.
    + apply String.eqb_eq in E. subst. apply String.eqb_neq in Hne.
      now rewrite Hne.
    + now rewrite IH.
Qed.

Lemma dict_get_del_same k (d : list (string * V)) : dict_get k (dict_del k d) = None.
Proof.
  induction d as [|[k1 v1] d IH]; cbn; [reflexivity|].
  destruct (String.eqb k k1) eqn:E; cbn; [assumption | now rewrite E].
Qed.

Lemma dict_get_del_other k k' (d : list (string * V)) :
  k' <> k -> dict_get k' (dict_del k d) = dict_get k' d.
Proof.
  intros Hne. induction d as [|[k1 v1] d IH]; cbn; [reflexivity|].
  destruct (String.eqb k k1) eqn:E; cbn.
  - apply String.eqb_eq in E. subst. apply String.eqb_neq in Hne.
    now rewrite Hne.
  - now rewrite IH.
Qed.

Lemma dict_get_In k (v : V) d : dict_get k d = Some v -> In (k, v) d.
Proof.
  induction d as [|[k1 v1] d IH]; cbn; [discriminate|].
  destruct (String.eqb k k1) eqn:E.
  - apply String.eqb_eq in E. intros [= ->]. left. now subst.
  - intros H. right. now apply IH.
Qed.

Lemma dict_get_None_keys k (d : list (string * V)) :
  dict_get k d = None <-> ~ In k (map fst d).
Proof.
  induction d as [|[k1 v1] d IH]; cbn; [tauto|].
  destruct (String.eqb k k1) eqn:E.
  - apply String.eqb_eq in E. subst. split; [discriminate | tauto].
  - apply String.eqb_neq in E. rewrite IH. split.
    + intros H [H1|H1]; [congruence | tauto].
    + tauto.
Qed.

End DictFacts.

Section SnapshotFacts.

Import Tree.

Lemma getSavedValue_Subsection items stored :
  getSavedValue (Subsection items stored)
  = (Subsection (fst (section_loop items stored)) (snd (section_loop items stored)),
     PDict (snd (section_loop items stored))).
Proof. reflexivity. Qed.

(** What the loop of [getSavedValue] leaves under a name: the persisted
    form of the child of that name, nothing if the child has none, and the
    stored value as it was if there is no such child. *)
Lemma section_loop_get items : forall res k,
  NoDup (map fst items) ->
  dict_get k (snd (section_loop items res))
  = match dict_get k items with
    | Some c => if is_None (snapshot c) then None else Some (snapshot c)
    | None => dict_get k res
    end.
Proof.
  induction items as [|[key val] rest IH]; intros res k Hnd; [reflexivity|].
  cbn [section_loop dict_get]. unfold snapshot.
  destruct (getSavedValue val) as [val' sv] eqn:Hval.
  set (res1 := if negb (is_None sv) then _ else _).
  specialize (IH res1 k). destruct (section_loop rest res1) as [rest' res'].
  cbn [snd] in *. inversion Hnd as [|? ? Hnotin Hnd']; subst.
  rewrite (IH Hnd'). cbn [map fst] in Hnotin.
  destruct (String.eqb k key) eqn:E.
  - apply String.eqb_eq in E. subst k.
    apply dict_get_None_keys in Hnotin. rewrite Hnotin.
    rewrite Hval. cbn [snd]. subst res1. destruct (is_None sv) eqn:Hn; cbn [negb].
    + unfold dict_has. destruct (dict_get key res) eqn:Hg.
      * apply dict_get_del_same.
      * assumption.
    + apply dict_get_set_same.
  - apply String.eqb_neq in E.
    destruct (dict_get k rest); [reflexivity|].
    subst res1. destruct (is_None sv); cbn [negb].
    + unfold dict_has. destruct (dict_get key res).
      * now apply dict_get_del_other.
      * reflexivity.
    + now apply dict_get_set_other.
Qed.

Lemma section_loop_keys items : forall res,
  map fst (fst (section_loop items res)) = map fst items.
Proof.
  induction items as [|[key val] rest IH]; intros res; [reflexivity|].
  cbn [section_loop]. destruct (getSavedValue val) as [val' sv].
  set (res1 := if negb (is_None sv) then _ else _).
  specialize (IH res1). destruct (section_loop rest res1) as [rest' res'].
  cbn in *. now rewrite IH.
Qed.

End SnapshotFacts.

Section ElementFacts.

Import Element Tree.



End ElementFacts.




Section AttachFacts.

Import Element Tree.

Lemma eqb_refl_hashable key : hashable key = true -> Py.eqb key key = true.
Proof.
  destruct key; cbn; try discriminate; intros _; auto.
  - now destruct b.
  - apply Z.eqb_refl.
  - apply String.eqb_refl.
Qed.

Lemma items_get_set key item items :
  Py.eqb key key = true -> items_get key (items_set key item items) = Some item.
Proof.
  intros Hk. induction items as [|[k c] rest IH]; cbn.
  - now rewrite Hk.
  - destruct (Py.eqb k key) eqn:E; cbn; now rewrite E.
Qed.

Lemma nth_error_app_last {A} (l : list A) a : nth_error (l ++ [a]) (List.length l) = Some a.
Proof. rewrite nth_error_app2 by lia. now rewrite Nat.sub_diag. Qed.

(** Assigning [saved_value] on an element and loading it. *)
Lemma element_assign_load PY2 e x child2 e1 e2 child1 :
  setSavedValue (Elem e) x = Ret child1 e1 ->
  Tree.load PY2 child1 = Ret child2 e2 ->
  child1 = Elem (set_saved_value x e)
  /\ exists e',
      child2 = Elem e'
      /\ Element.load PY2 (set_saved_value x e) = Ret e' (e1 ++ e2)
      /\ saved_value e' = x.
Proof.
  cbn. intros [= <- <-] H2. split; [reflexivity|].
  cbn [Tree.load] in H2. apply bind_Ret_inv in H2.
  destruct H2 as (e' & a & b & Hl & Hr & ->). inv_ret.
  exists e'. split; [reflexivity|]. split; [now rewrite app_nil_r|].
  unfold Element.load, ConfigSelection_load, ConfigElement_load, setValue,
    ConfigSelection_setValue, ConfigElement_setValue, changed in Hl.
  cbn [cls set_saved_value saved_value default] in Hl.
  destruct (cls e) eqn:Hc; inv_ret; reflexivity.
Qed.

(** The value an element that decodes with [fromstring] has after
    [load()]. *)
Lemma element_load_value PY2 e e' evs :
  (forall choices, cls e <> ConfigSelection choices) ->
  is_None (saved_value e) = false ->
  Element.load PY2 e = Ret e' evs ->
  exists v ev, fromstring e (saved_value e) = Ret v ev /\ _value e' = v.
Proof.
  intros Hk Hn. unfold Element.load, ConfigElement_load, setValue,
    ConfigElement_setValue, changed.
  rewrite Hn.
  destruct (cls e) eqn:Hc; [| |exfalso; eapply Hk; reflexivity];
    intros H; apply bind_Ret_inv in H; destruct H as (v & a & b & Hf & Hs & ->);
    exists v, a; (split; [exact Hf | inv_ret; reflexivity]).
Qed.

End AttachFacts.

(** Attaching a child to a container that holds a stored value [x] under
    the child's key assigns [x] to the child's [saved_value] and calls its
    [load()], for each of the three containers: the member found under the
    key afterwards is the child after both, provided both return.  For a
    child that is an element the assignment always returns and its
    [saved_value] afterwards is [x]. *)
Lemma attach_runs_load (PY2 : bool) (child child1 child2 : Tree.node) (x : pyval)
    (e1 e2 : list event) :
  is_None x = false ->
  Tree.setSavedValue child x = Ret child1 e1 ->
  Tree.load PY2 child1 = Ret child2 e2 ->
  (forall items stored name,
     dict_get name stored = Some x -> name <> "saved_value" ->
     Tree.__setattr__ PY2 (Tree.Subsection items stored) name child
       = Ret (Tree.Subsection (dict_set name child2 items) stored) (e1 ++ e2)
     /\ Tree.__getattr__ (Tree.Subsection (dict_set name child2 items) stored) name
        = Ret child2 [])
  /\ (forall items stored,
        dict_get (Tree.str_of_nat (List.length items)) stored = Some x ->
        Tree.append PY2 (Tree.SubList items stored) child
          = Ret (Tree.SubList (items ++ [child2]) stored) (e1 ++ e2)
        /\ nth_error (items ++ [child2]) (List.length items) = Some child2)
  /\ (forall items stored key,
        Tree.hashable key = true ->
        dict_get (str key) stored = Some x ->
        Tree.__setitem__ PY2 (Tree.SubDict items stored) key child
          = Ret (Tree.SubDict (Tree.items_set key child2 items) stored) (e1 ++ e2)
        /\ Tree.items_get key (Tree.items_set key child2 items) = Some child2)
  /\ (forall e,
        child = Tree.Elem e ->
        exists e',
          child2 = Tree.Elem e'
          /\ Element.saved_value e' = x
          /\ Element.load PY2 (Element.set_saved_value x e) = Ret e' (e1 ++ e2)
          /\ ((forall choices, Element.cls e <> Element.ConfigSelection choices) ->
              exists v ev, Element.fromstring e x = Ret v ev
                           /\ Element._value e' = v)).
Proof.
  intros Hx H1 H2. split; [|split; [|split]].
  - intros items stored name Hg Hname.
    unfold Tree.__setattr__. apply String.eqb_neq in Hname. rewrite Hname, Hg, Hx.
    cbn [negb]. rewrite H1. cbn [bind]. rewrite H2. cbn [bind ret].
    rewrite app_nil_r. split; [reflexivity|].
    unfold Tree.__getattr__. now rewrite dict_get_set_same.
  - intros items stored Hg. unfold Tree.append. rewrite Hg, H1. cbn [bind].
    rewrite H2. cbn [bind ret]. rewrite app_nil_r.
    split; [reflexivity | apply nth_error_app_last].
  - intros items stored key Hh Hg. unfold Tree.__setitem__.
    rewrite Hh, Hg, H1. cbn [bind]. rewrite H2. cbn [bind ret]. rewrite app_nil_r.
    split; [reflexivity|]. apply items_get_set. now apply eqb_refl_hashable.
  - intros e ->.
    destruct (element_assign_load PY2 e x child2 e1 e2 child1 H1 H2)
      as (_ & e' & -> & Hl & Hs).
    exists e'. split; [reflexivity|]. split; [assumption|]. split; [assumption|].
    intros Hk.
    destruct (element_load_value PY2 (Element.set_saved_value x e) e' (e1 ++ e2))
      as (v & ev & Hv & Hval); try assumption.
    exists v, ev. split; [|assumption].
    unfold Element.fromstring in *. exact Hv.
Qed.

Lemma attach_runs_load_example :
  let child := Tree.Elem (Element.ConfigBoolean_init (PBool false)) in
  exists e',
    Tree.Elem (Element.set__value (PBool true)
                 (Element.set_saved_value (PStr "True")
                    (Element.ConfigBoolean_init (PBool false)))) = Tree.Elem e'
    /\ Element.saved_value e' = PStr "True"
    /\ Element.load true
         (Element.set_saved_value (PStr "True") (Element.ConfigBoolean_init (PBool false)))
       = Ret e' ([] ++ [Changed])
    /\ ((forall choices,
           Element.cls (Element.ConfigBoolean_init (PBool false))
           <> Element.ConfigSelection choices) ->
        exists v ev,
          Element.fromstring (Element.ConfigBoolean_init (PBool false)) (PStr "True")
          = Ret v ev
          /\ Element._value e' = v).
Proof.
  refine (proj2 (proj2 (proj2
    (attach_runs_load true
       (Tree.Elem (Element.ConfigBoolean_init (PBool false)))
       (Tree.Elem (Element.set_saved_value (PStr "True")
                     (Element.ConfigBoolean_init (PBool false))))
       (Tree.Elem (Element.set__value (PBool true)
                     (Element.set_saved_value (PStr "True")
                        (Element.ConfigBoolean_init (PBool false)))))
       (PStr "True") [] [Changed] _ _ _)))
    (Element.ConfigBoolean_init (PBool false)) _).
  - reflexivity.
  - reflexivity.
  - reflexivity.
  - reflexivity.
Defined.

(** ** Stored values of unknown keys *)

Section StoredValues.

Import Element Tree Codec.

Lemma mapM_Ret_inv {A B} (f : A -> result B) a l r evs :
  mapM f (a :: l) = Ret r evs ->
  exists b e1 r' e2, f a = Ret b e1 /\ mapM f l = Ret r' e2 /\ r = b :: r'.
Proof.
  cbn [mapM]. destruct (f a) as [b e1| |]; try discriminate.
  destruct (mapM f l) as [r' e2| |]; try discriminate.
  intros [= <- <-]. eauto 8.
Qed.

(** A loop over the children of a dict that keeps their names. *)
Lemma mapM_keyed (f : string * node -> result (string * node)) items :
  (forall kc r e, f kc = Ret r e -> fst r = fst kc) ->
  forall items' evs, mapM f items = Ret items' evs ->
  map fst items' = map fst items
  /\ forall k,
       match dict_get k items with
       | Some c => exists c' e, dict_get k items' = Some c' /\ f (k, c) = Ret (k, c') e
       | None => dict_get k items' = None
       end.
Proof.
  intros Hf. induction items as [|[key val] rest IH]; intros items' evs H.
  - cbn in H. injection H as <- <-. split; [reflexivity | intros k; reflexivity].
  - apply mapM_Ret_inv in H. destruct H as ([key' val'] & e1 & r' & e2 & Hh & Ht & ->).
    pose proof (Hf _ _ _ Hh) as Hk. cbn in Hk. subst key'.
    destruct (IH _ _ Ht) as [Hkeys Hget]. split.
    + cbn. now rewrite Hkeys.
    + intros k. cbn [dict_get]. destruct (String.eqb k key) eqn:E.
      * apply String.eqb_eq in E. subst k. eauto.
      * apply Hget.
Qed.

Lemma save_Subsection items stored :
  Tree.save (Subsection items stored)
  = (items <- mapM (fun kc => c <- Tree.save (snd kc) ;; ret (fst kc, c)) items ;;
     ret (Subsection items stored)).
Proof. reflexivity. Qed.

Lemma tree_get_cons k rest t v :
  tree_get (k :: rest) t = Some v ->
  exists d x, t = PDict d /\ dict_get k d = Some x /\ tree_get rest x = Some v.
Proof.
  cbn. destruct t; try discriminate.
  destruct (dict_get k d) as [x|] eqn:E; [|discriminate]. eauto.
Qed.

Lemma unattached_nonempty path n : unattached path n -> path <> [].
Proof. destruct path; [contradiction | discriminate]. Qed.

(** [setSavedValue] puts the values of unknown keys where [holds] looks
    for them. *)
Lemma setSavedValue_holds path : forall fuel n t n' evs v,
  setSavedValue_rec fuel n (PDict t) = Ret n' evs ->
  unattached path n ->
  tree_get path (PDict t) = Some (PStr v) ->
  holds path (PStr v) n' /\ unattached path n'.
Proof.
  induction path as [|k rest IH]; intros fuel n t n' evs v Hset Hun Hget;
    [contradiction|].
  destruct fuel as [|fuel]; [discriminate|].
  destruct n as [e|items stored|items stored|items stored]; try contradiction.
  destruct Hun as [Hnd Hun]. cbn [setSavedValue_rec to_dict] in Hset.
  rewrite bind_ret_l in Hset. apply bind_Ret_inv in Hset.
  destruct Hset as (items' & e1 & e2 & Hmap & Hret & _). inv_ret.
  apply mapM_keyed in Hmap.
  2:{ intros [key c] r e. cbn [fst snd].
      destruct (dict_get key t) as [value|]; [|intros; inv_ret; reflexivity].
      destruct (is_None value); intros; inv_ret; reflexivity. }
  destruct Hmap as [Hkeys Hitems]. specialize (Hitems k).
  cbn [holds unattached]. rewrite Hkeys.
  destruct (dict_get k items) as [c|].
  - destruct Hitems as (c' & e & -> & Hf). cbn [fst snd] in Hf.
    apply tree_get_cons in Hget. destruct Hget as (d & x & [= <-] & Hx & Hrest).
    rewrite Hx in Hf.
    pose proof (unattached_nonempty _ _ Hun) as Hne.
    destruct rest as [|k2 rest2]; [congruence|].
    apply tree_get_cons in Hrest as Hrest'. destruct Hrest' as (d2 & x2 & -> & _).
    cbn [is_None] in Hf. apply bind_Ret_inv in Hf.
    destruct Hf as (c2 & a & b & Hrec & Hr & _). inv_ret.
    destruct (IH _ _ _ _ _ _ Hrec Hun Hrest) as [H1 H2]. auto.
  - rewrite Hitems. auto.
Qed.

(** [save()] of the tree leaves them there. *)
Lemma save_holds path : forall n n' evs v,
  Tree.save n = Ret n' evs ->
  holds path v n -> unattached path n ->
  holds path v n' /\ unattached path n'.
Proof.
  induction path as [|k rest IH]; intros n n' evs v Hsave Hh Hun; [contradiction|].
  destruct n as [e|items stored|items stored|items stored]; try contradiction.
  destruct Hun as [Hnd Hun]. rewrite save_Subsection in Hsave.
  apply bind_Ret_inv in Hsave.
  destruct Hsave as (items' & e1 & e2 & Hmap & Hret & _). inv_ret.
  apply mapM_keyed in Hmap.
  2:{ intros [key c] r e H. inv_ret. reflexivity. }
  destruct Hmap as [Hkeys Hitems]. specialize (Hitems k).
  cbn [holds unattached] in *. rewrite Hkeys.
  destruct (dict_get k items) as [c|].
  - destruct Hitems as (c' & e & -> & Hf). cbn [fst snd] in Hf.
    apply bind_Ret_inv in Hf. destruct Hf as (c2 & a & b & Hrec & Hr & _). inv_ret.
    destruct (IH _ _ _ _ Hrec Hh Hun) as [H1 H2]. auto.
  - rewrite Hitems. auto.
Qed.

(** Reading [saved_value] finds them. *)
Lemma snapshot_holds path : forall n v,
  holds path (PStr v) n -> unattached path n ->
  tree_get path (snapshot n) = Some (PStr v).
Proof.
  induction path as [|k rest IH]; intros n v Hh Hun; [contradiction|].
  destruct n as [e|items stored|items stored|items stored]; try contradiction.
  destruct Hun as [Hnd Hun]. cbn [holds] in Hh.
  unfold snapshot. rewrite getSavedValue_Subsection. cbn [snd tree_get].
  rewrite (section_loop_get items stored k Hnd).
  destruct (dict_get k items) as [c|].
  - specialize (IH c v Hh Hun).
    pose proof (unattached_nonempty _ _ Hun) as Hne.
    destruct rest as [|k2 rest2]; [congruence|].
    apply tree_get_cons in IH as IH'. destruct IH' as (d & x & Hd & _).
    rewrite Hd. cbn [is_None]. now rewrite <- Hd.
  - exact Hh.
Qed.

(** And reading it leaves them in place for the next time. *)
Lemma getSavedValue_holds path : forall n v,
  holds path (PStr v) n -> unattached path n ->
  holds path (PStr v) (fst (getSavedValue n))
  /\ unattached path (fst (getSavedValue n)).
Proof.
  induction path as [|k rest IH]; intros n v Hh Hun; [contradiction|].
  destruct n as [e|items stored|items stored|items stored]; try contradiction.
  destruct Hun as [Hnd Hun]. cbn [holds] in Hh.
  rewrite getSavedValue_Subsection. cbn [fst holds unattached].
  rewrite section_loop_keys.
  assert (Hchild : forall res,
    dict_get k (fst (section_loop items res))
    = match dict_get k items with
      | Some c => Some (fst (getSavedValue c))
      | None => None
      end).
  { clear. induction items as [|[key val] tl IHl]; intros res; [reflexivity|].
    cbn [section_loop dict_get].
    destruct (getSavedValue val) as [val' sv] eqn:Hv.
    set (res1 := if negb (is_None sv) then _ else _).
    specialize (IHl res1). destruct (section_loop tl res1) as [tl' res'].
    cbn [fst dict_get] in *.
    destruct (String.eqb k key); [now rewrite Hv | exact IHl]. }
  rewrite Hchild.
  pose proof (section_loop_get items stored k Hnd) as Hres.
  destruct (dict_get k items) as [c|].
  - destruct (IH c v Hh Hun). auto.
  - split; [|auto]. cbn [tree_get] in *. now rewrite Hres.
Qed.

End StoredValues.

Section PickleFacts.

Import Tree Codec.

Lemma insert_by_In {A} (key : A -> string) x y l :
  In y (insert_by key x l) <-> y = x \/ In y l.
Proof.
  induction l as [|z l IH]; cbn.
  - intuition.
  - destruct (str_lt (key z) (key x)); cbn; rewrite ?IH; intuition.
Qed.

Lemma sorted_by_In {A} (key : A -> string) y l :
  In y (sorted_by key l) <-> In y l.
Proof.
  induction l as [|x l IH]; [reflexivity|].
  cbn [sorted_by fold_right]. fold (sorted_by key l).
  rewrite insert_by_In, IH. cbn. intuition.
Qed.

(** Every string at the end of a path of the snapshot is written, as one
    line under the dotted name of the path. *)
Lemma pickle_this_emits path : forall prefix d v,
  tree_get path (PDict d) = Some (PStr v) -> path <> [] ->
  exists pre post,
    pickle_this prefix d = pre ++ [dotted prefix path; "="; v; newline] ++ post.
Proof.
  induction path as [|k rest IH]; intros prefix d v Hget Hne; [congruence|].
  apply tree_get_cons in Hget. destruct Hget as (d0 & x & [= <-] & Hx & Hrest).
  apply dict_get_In in Hx.
  apply (sorted_by_In (fun kv : string * pyval => sort_key (fst kv))) in Hx.
  apply in_split in Hx. destruct Hx as (l1 & l2 & Hs).
  rewrite pickle_this_eq, Hs, flat_map_app. cbn [flat_map fst snd].
  destruct rest as [|k2 rest2].
  - cbn in Hrest. injection Hrest as ->. cbn [str dotted fold_left].
    match goal with
    | |- context [flat_map ?F l1] => exists (flat_map F l1), (flat_map F l2)
    end.
    reflexivity.
  - apply tree_get_cons in Hrest as Hd. destruct Hd as (d2 & x2 & -> & _).
    destruct (IH (join "." [prefix; k]) d2 v Hrest) as (pre & post & ->);
      [discriminate|].
    match goal with
    | |- context [flat_map ?F l1] =>
        exists (flat_map F l1 ++ pre), (post ++ flat_map F l2)
    end.
    cbn [dotted fold_left]. rewrite <- !app_assoc. reflexivity.
Qed.

Lemma join_two a b rest :
  join "." (join "." [a; b] :: rest) = join "." (a :: b :: rest).
Proof.
  destruct rest as [|r rs]; [reflexivity|].
  cbn [join String.concat]. now rewrite !append_assoc.
Qed.

Lemma dotted_join path : forall prefix, dotted prefix path = join "." (prefix :: path).
Proof.
  induction path as [|k rest IH]; intros prefix; [reflexivity|].
  cbn [dotted fold_left]. fold (dotted (join "." [prefix; k]) rest).
  rewrite IH. apply join_two.
Qed.

End PickleFacts.

(** What subsections keep.  Let the settings file give the key
    [config.k1. ... .kn] the text [v] (its parse has [v] at the end of the
    path), and let the path run through subsections of the tree only and
    leave the attached members at one of them.  Then, if [unpickle] returns,
    [pickle] writes the line [config.k1. ... .kn=v]: at once, again after the
    first [pickle], and after a [save()] of the whole tree. *)
Theorem unknown_key_is_kept (config : Tree.node) (lines : list string)
    (path : list string) (v : string)
    (configbase : list (string * pyval)) (e0 : list event)
    (config1 : Tree.node) (e1 : list event) :
  Codec.unpickle_lines lines [] = Ret configbase e0 ->
  tree_get path (PDict configbase) = Some (PStr v) ->
  unattached path config ->
  Codec.unpickle config lines = Ret config1 e1 ->
  let line := [join "." ("config" :: path); "="; v; newline] in
  (exists pre post, Codec.pickle_result config1 = pre ++ line ++ post)
  /\ (exists pre post,
        Codec.pickle_result (fst (Codec.pickle config1)) = pre ++ line ++ post)
  /\ (forall config2 e2,
        Tree.save config1 = Ret config2 e2 ->
        exists pre post, Codec.pickle_result config2 = pre ++ line ++ post).
Proof.
  intros Hparse Hget Hun Hunp line.
  unfold Codec.unpickle in Hunp. rewrite Hparse in Hunp. cbn [bind] in Hunp.
  destruct (Tree.setSavedValue config (PDict configbase)) as [c1 ev| |] eqn:Hset;
    try discriminate.
  injection Hunp as <- _.
  destruct (setSavedValue_holds path _ _ _ _ _ v Hset Hun Hget) as [Hh1 Hun1].
  assert (Hemit : forall n, holds path (PStr v) n -> unattached path n ->
            exists pre post, Codec.pickle_result n = pre ++ line ++ post).
  { intros n Hh Hu. pose proof (snapshot_holds path n v Hh Hu) as Hs.
    unfold Codec.pickle_result. fold (snapshot n).
    pose proof (unattached_nonempty _ _ Hu) as Hne.
    destruct path as [|k rest]; [congruence|].
    apply tree_get_cons in Hs as Hd. destruct Hd as (d & x & Hd & _).
    rewrite Hd in Hs |- *.
    destruct (pickle_this_emits (k :: rest) "config" d v Hs Hne) as (pre & post & ->).
    exists pre, post. now rewrite dotted_join. }
  split; [now apply Hemit|]. split.
  - unfold Codec.pickle.
    destruct (getSavedValue_holds path c1 v Hh1 Hun1) as [Hh2 Hun2].
    destruct (Tree.getSavedValue c1) as [c2 saved]. cbn [fst] in *.
    destruct saved; cbn [fst]; now apply Hemit.
  - intros config2 e2 Hsave.
    destruct (save_holds path _ _ _ _ Hsave Hh1 Hun1) as [Hh2 Hun2].
    now apply Hemit.
Qed.

(** ** [setSavedValue] has fuel enough *)

Section FuelFacts.

Import Element Tree.

Lemma mapM_no_fuel {A B} (f : A -> result B) l :
  Forall (fun a => f a <> Fuel) l -> mapM f l <> Fuel.
Proof.
  induction 1 as [|a l Ha Hl IH]; cbn; [discriminate|].
  destruct (f a); try congruence. destruct (mapM f l); congruence.
Qed.

Lemma mapM_Forall2 {A B} (f : A -> result B) (R : A -> B -> Prop) l :
  (forall a b e, In a l -> f a = Ret b e -> R a b) ->
  forall l' evs, mapM f l = Ret l' evs -> Forall2 R l l'.
Proof.
  induction l as [|a l IH]; intros Hf l' evs H.
  - cbn in H. injection H as <- _. constructor.
  - apply mapM_Ret_inv in H. destruct H as (b & e1 & r' & e2 & Hh & Ht & ->).
    constructor.
    + eapply Hf; [now left | eassumption].
    + eapply IH; [|eassumption]. intros. eapply Hf; [now right | eassumption].
Qed.

Lemma int_of_str_no_fuel s : int_of_str s <> Fuel.
Proof.
  unfold int_of_str, int_digits. destruct (strip s) as [|c d]; [discriminate|].
  destruct (Ascii.eqb c "-").
  - apply bind_no_fuel; [|discriminate].
    destruct (NilZero.uint_of_string d); discriminate.
  - destruct (Ascii.eqb c "+"); destruct (NilZero.uint_of_string _); discriminate.
Qed.

Lemma to_dict_no_fuel x : to_dict x <> Fuel.
Proof. destruct x as [| | |[|]|[|]|]; discriminate. Qed.

Lemma update_Forall {A} (P : A -> Prop) l n a :
  Forall P l -> P a -> Forall P (update l n a).
Proof.
  intros Hl Ha. revert n. induction Hl as [|x l Hx Hl IH]; intros [|n]; cbn;
    constructor; auto.
Qed.

Lemma getitem_In {A} (l : list A) i a evs : getitem l i = Ret a evs -> In a l.
Proof.
  unfold getitem. destruct (norm_index _ _) as [j|]; [|discriminate].
  destruct (nth_error l j) eqn:E; [|discriminate].
  intros [= <- _]. eapply nth_error_In; eassumption.
Qed.

Lemma getitem_setitem_map {A B} (g : A -> B) (l l' : list A) i a a' e1 e2 :
  getitem l i = Ret a e1 -> setitem l i a' = Ret l' e2 -> g a' = g a ->
  map g l' = map g l.
Proof.
  unfold getitem, setitem. destruct (norm_index _ _) as [j|]; [|discriminate].
  destruct (nth_error l j) eqn:E; [|discriminate].
  intros [= <- _] [= <- _] Hg. clear i.
  revert j E. induction l as [|x l IH]; intros [|j] E; cbn in *; try discriminate.
  - injection E as ->. now rewrite Hg.
  - now rewrite (IH j E).
Qed.

Lemma depth_Subsection items stored :
  depth (Subsection items stored) = S (children_depth (map (fun kc => depth (snd kc)) items)).
Proof.
  cbn [depth]. f_equal. induction items as [|kc items IH]; [reflexivity|].
  cbn. now rewrite IH.
Qed.

Lemma depth_SubDict items stored :
  depth (SubDict items stored) = S (children_depth (map (fun kc => depth (snd kc)) items)).
Proof.
  cbn [depth]. f_equal. induction items as [|kc items IH]; [reflexivity|].
  cbn. now rewrite IH.
Qed.

Lemma depth_SubList items stored :
  depth (SubList items stored) = S (children_depth (map depth items)).
Proof.
  cbn [depth]. f_equal. induction items as [|kc items IH]; [reflexivity|].
  cbn. now rewrite IH.
Qed.

Lemma children_depth_bound l m :
  (children_depth l <= m)%nat -> Forall (fun d => (d <= m)%nat) l.
Proof.
  unfold children_depth.
  induction l as [|d l IH]; cbn; intros H; constructor; [lia | apply IH; lia].
Qed.

Lemma Forall2_map_eq {A B C} (g : A -> C) (h : B -> C) l l' :
  Forall2 (fun a b => h b = g a) l l' -> map h l' = map g l.
Proof. induction 1; cbn; congruence. Qed.

(** [setSavedValue] changes values only, not the shape of the tree. *)
Lemma setSavedValue_depth fuel : forall n x n' evs,
  setSavedValue_rec fuel n x = Ret n' evs -> depth n' = depth n.
Proof.
  induction fuel as [|fuel IH]; intros n x n' evs H; [discriminate|].
  destruct n as [e|items stored|items stored|items stored]; cbn [setSavedValue_rec] in H.
  - inv_ret. reflexivity.
  - apply bind_Ret_inv in H. destruct H as (values & a & b & _ & H & _).
    apply bind_Ret_inv in H. destruct H as (items' & a' & b' & Hmap & H & _).
    inv_ret. rewrite !depth_Subsection. f_equal. f_equal.
    apply Forall2_map_eq.
    eapply mapM_Forall2; [|exact Hmap].
    intros [k c] [k' c'] e _. cbn [fst snd].
    destruct (dict_get k values) as [value|]; [|intros; inv_ret; reflexivity].
    destruct (is_None value); intros Hf; inv_ret; [reflexivity|].
    cbn [snd]. eapply IH; eassumption.
  - apply bind_Ret_inv in H. destruct H as (values & a & b & _ & H & _).
    apply bind_Ret_inv in H. destruct H as (items' & a' & b' & Hloop & H & _).
    inv_ret. rewrite !depth_SubList. f_equal. f_equal.
    clear -IH Hloop. revert items items' a' Hloop.
    induction values as [|[key val] rest IHl]; intros items items' a' Hloop;
      cbn [sublist_loop] in Hloop.
    + inv_ret. reflexivity.
    + apply bind_Ret_inv in Hloop. destruct Hloop as (k & a & b & _ & Hloop & _).
      apply bind_Ret_inv in Hloop. destruct Hloop as (items1 & a1 & b1 & Hstep & Hloop & _).
      rewrite (IHl _ _ _ Hloop).
      destruct (k <? _); [|inv_ret; reflexivity].
      apply bind_Ret_inv in Hstep. destruct Hstep as (c & a2 & b2 & Hget & Hstep & _).
      apply bind_Ret_inv in Hstep. destruct Hstep as (c' & a3 & b3 & Hrec & Hset & _).
      eapply getitem_setitem_map; [exact Hget | exact Hset |].
      eapply IH; eassumption.
  - apply bind_Ret_inv in H. destruct H as (values & a & b & _ & H & _).
    apply bind_Ret_inv in H. destruct H as (items' & a' & b' & Hmap & H & _).
    inv_ret. rewrite !depth_SubDict. f_equal. f_equal.
    apply Forall2_map_eq.
    eapply mapM_Forall2; [|exact Hmap].
    intros [k c] [k' c'] e _. cbn [fst snd].
    destruct (dict_get (str k) values) as [value|]; [|intros; inv_ret; reflexivity].
    intros Hf; inv_ret. cbn [snd]. eapply IH; eassumption.
Qed.

(** With [depth n] levels of fuel [setSavedValue] returns or raises. *)
Lemma setSavedValue_rec_no_fuel fuel : forall n x,
  (depth n <= fuel)%nat -> setSavedValue_rec fuel n x <> Fuel.
Proof.
  induction fuel as [|fuel IH]; intros n x Hd.
  - destruct n; cbn in Hd; lia.
  - destruct n as [e|items stored|items stored|items stored];
      cbn [setSavedValue_rec]; [discriminate| | |].
    + rewrite depth_Subsection in Hd.
      apply bind_no_fuel; [apply to_dict_no_fuel | intros values].
      apply bind_no_fuel; [|discriminate].
      apply mapM_no_fuel. apply Forall_forall. intros [k c] Hin. cbn [fst snd].
      destruct (dict_get k values) as [value|]; [|discriminate].
      destruct (is_None value); [discriminate|].
      apply bind_no_fuel; [|discriminate]. apply IH.
      apply le_S_n, children_depth_bound in Hd.
      rewrite Forall_forall in Hd. apply Hd.
      apply in_map_iff. exists (k, c). auto.
    + rewrite depth_SubList in Hd.
      apply bind_no_fuel; [apply to_dict_no_fuel | intros values].
      apply bind_no_fuel; [|discriminate].
      assert (Hb : Forall (fun c => depth c <= fuel)%nat items).
      { apply le_S_n, children_depth_bound in Hd.
        rewrite Forall_forall in *. intros c Hc. apply Hd. now apply in_map. }
      clear Hd. revert items Hb.
      induction values as [|[key val] rest IHl]; intros items Hb;
        cbn [sublist_loop]; [discriminate|].
      apply bind_no_fuel; [apply int_of_str_no_fuel | intros k].
      apply bind_no_fuel_of.
      * destruct (k <? _); [|discriminate].
        apply bind_no_fuel_of; [apply getitem_no_fuel | intros c ec Hget].
        apply bind_no_fuel; [|intros; apply setitem_no_fuel].
        apply IH. rewrite Forall_forall in Hb. apply Hb.
        eapply getitem_In; eassumption.
      * intros items1 e1 Hstep. apply IHl.
        destruct (k <? _); [|inv_ret; assumption].
        apply bind_Ret_inv in Hstep. destruct Hstep as (c & a2 & b2 & Hget & Hstep & _).
        apply bind_Ret_inv in Hstep. destruct Hstep as (c' & a3 & b3 & Hrec & Hset & _).
        unfold setitem in Hset. destruct (norm_index _ _) as [j|]; [|discriminate].
        inv_ret. apply update_Forall; [assumption|].
        rewrite (setSavedValue_depth _ _ _ _ _ Hrec).
        rewrite Forall_forall in Hb. apply Hb. eapply getitem_In; eassumption.
    + rewrite depth_SubDict in Hd.
      apply bind_no_fuel; [apply to_dict_no_fuel | intros values].
      apply bind_no_fuel; [|discriminate].
      apply mapM_no_fuel. apply Forall_forall. intros [k c] Hin. cbn [fst snd].
      destruct (dict_get (str k) values) as [value|]; [|discriminate].
      apply bind_no_fuel; [|discriminate]. apply IH.
      apply le_S_n, children_depth_bound in Hd.
      rewrite Forall_forall in Hd. apply Hd.
      apply in_map_iff. exists (k, c). auto.
Qed.

Lemma setSavedValue_no_fuel n x : setSavedValue n x <> Fuel.
Proof. apply setSavedValue_rec_no_fuel. lia. Qed.

Lemma put_no_fuel path : forall name val base, Codec.put path name val base <> Fuel.
Proof.
  induction path as [|k rest IH]; intros name val base; cbn; [discriminate|].
  destruct (dict_get k base) as [[]|]; try (destruct rest; discriminate);
    (apply bind_no_fuel; [apply IH | discriminate]).
Qed.

(** [unpickle] returns or raises. *)
Lemma unpickle_no_fuel config lines : Codec.unpickle config lines <> Fuel.
Proof.
  unfold Codec.unpickle. apply bind_no_fuel; [|intros; apply setSavedValue_no_fuel].
  generalize (@nil (string * pyval)).
  induction lines as [|line rest IH]; intros base; cbn [Codec.unpickle_lines];
    [discriminate|].
  apply bind_no_fuel; [|intros; apply IH].
  unfold Codec.unpickle_line.
  assert (Hbody : match split1 "=" line with
                  | [name; val] =>
                      names <- Py.split "." name ;;
                      Codec.put (Codec.middle names) (Codec.last_name names)
                                (strip val) base
                  | _ => ret base
                  end <> Fuel).
  { destruct (split1 "=" line) as [|name [|val [|]]]; try discriminate.
    apply bind_no_fuel; [discriminate | intros; apply put_no_fuel]. }
  destruct line as [|c l]; [discriminate|].
  destruct c as [[] [] [] [] [] [] [] []]; try exact Hbody; discriminate.
Qed.

End FuelFacts.

(** ** What [unpickle] reads from a line *)

Section ParseFacts.

Import Tree Codec.

(** The walk of [unpickle] leaves the value at the end of the path. *)
Lemma put_get path : forall name val base base' e,
  put path name val base = Ret base' e ->
  tree_get (path ++ [name]) (PDict base') = Some (PStr val).
Proof.
  induction path as [|k rest IH]; intros name val base base' e H; cbn in H.
  - inv_ret. cbn. now rewrite dict_get_set_same.
  - destruct (dict_get k base) as [[| | | | |sub]|]; try (destruct rest; discriminate);
      apply bind_Ret_inv in H; destruct H as (sub' & a & b & Hp & Hr & _); inv_ret;
      change ((k :: rest) ++ [name]) with (k :: (rest ++ [name]));
      cbn [tree_get]; rewrite dict_get_set_same; eapply IH; eassumption.
Qed.

(** A later line for another path that returns leaves it there, unless it
    replaces a dict on the way; the plain case is the last line. *)
Lemma unpickle_lines_app l1 l2 base :
  unpickle_lines (l1 ++ l2) base
  = (base1 <- unpickle_lines l1 base ;; unpickle_lines l2 base1).
Proof.
  revert base. induction l1 as [|line l1 IH]; intros base.
  - cbn [app unpickle_lines]. now rewrite bind_ret_l.
  - rewrite <- app_comm_cons. cbn [unpickle_lines].
    destruct (unpickle_line line base) as [b1 e1| |]; cbn [bind]; try reflexivity.
    rewrite IH. destruct (unpickle_lines l1 b1) as [b2 e2| |]; cbn [bind]; try reflexivity.
    destruct (unpickle_lines l2 b2); try reflexivity. now rewrite app_assoc.
Qed.

Lemma split1_app key w :
  all_chars (fun c => negb (Ascii.eqb c "=")) key = true ->
  split1 "=" (key ++ String "=" w) = [key; w].
Proof.
  induction key as [|c key IH]; cbn; intros H.
  - reflexivity.
  - apply andb_true_iff in H. destruct H as [Hc Hk].
    apply negb_true_iff in Hc. rewrite Hc, (IH Hk). reflexivity.
Qed.

Lemma all_chars_app p a b :
  all_chars p (a ++ b) = all_chars p a && all_chars p b.
Proof. induction a as [|c a IH]; cbn; [reflexivity | now rewrite IH, andb_assoc]. Qed.

Lemma all_chars_join p names :
  p "."%char = true ->
  Forall (fun n => all_chars p n = true) names ->
  all_chars p (join "." names) = true.
Proof.
  intros Hdot. induction 1 as [|n names Hn Hrest IH]; [reflexivity|].
  destruct names as [|m names]; [exact Hn|].
  rewrite join_cons, !all_chars_app, Hn, IH. cbn. now rewrite Hdot.
Qed.

Lemma last_cons_nonempty {A} (a : A) l d : l <> [] -> last (a :: l) d = last l d.
Proof. destruct l; [congruence | reflexivity]. Qed.

(** The line [config.k1. ... .kn=w] puts [w], stripped, at the end of the
    path [k1 ... kn]. *)
Lemma unpickle_line_key path w base base' e :
  path <> [] ->
  Forall (fun n => all_chars plain n = true) path ->
  unpickle_line (join "." ("config" :: path) ++ String "=" w) base = Ret base' e ->
  tree_get path (PDict base') = Some (PStr (strip w)).
Proof.
  intros Hne Hplain H.
  assert (Hkey : join "." ("config" :: path)
                 = String "c" ("onfig" ++ "." ++ join "." path)).
  { destruct path; [congruence | reflexivity]. }
  unfold unpickle_line in H.
  assert (Hs1 : split1 "=" (join "." ("config" :: path) ++ String "=" w)
                = [join "." ("config" :: path); w]).
  { apply split1_app. apply all_chars_join; [reflexivity|].
    constructor; [reflexivity|].
    eapply Forall_impl; [|exact Hplain]. intros n Hn.
    eapply all_chars_impl; [|exact Hn]. intros c Hc.
    unfold plain in Hc. apply andb_true_iff in Hc. tauto. }
  rewrite Hs1 in H. rewrite Hkey in H at 1. cbn [append] in H.
  unfold Py.split in H.
  rewrite (split_go_join "." "" path "config") in H.
  2:{ constructor; [reflexivity|].
      eapply Forall_impl; [|exact Hplain]. intros n Hn.
      eapply all_chars_impl; [|exact Hn]. intros c Hc.
      unfold plain in Hc. apply andb_true_iff in Hc. tauto. }
  rewrite bind_ret_l in H. unfold middle, last_name in H. cbn [tl] in H.
  rewrite (last_cons_nonempty _ _ _ Hne) in H.
  apply put_get in H. now rewrite <- app_removelast_last in H.
Qed.

Lemma rstrip_newline v : rstrip (v ++ newline) = rstrip v.
Proof.
  induction v as [|c v IH]; [reflexivity|].
  change ((String c v ++ newline)%string) with (String c (v ++ newline)).
  cbn [rstrip]. now rewrite IH.
Qed.

(** The line feed that ends a line is stripped with the rest. *)
Lemma strip_newline v : strip (v ++ newline) = strip v.
Proof.
  unfold strip. induction v as [|c v IH]; [reflexivity|].
  change ((String c v ++ newline)%string) with (String c (v ++ newline)).
  cbn [lstrip]. destruct (is_space c); [exact IH|].
  apply (rstrip_newline (String c v)).
Qed.

End ParseFacts.

Lemma unknown_key_is_kept_witness :
  let config := Tree.Subsection [("misc", Tree.Subsection [] [])] [] in
  let line := ["config.misc.foo"; "="; "bar"; newline] in
  (exists pre post,
     Codec.pickle_result
       (Tree.Subsection [("misc", Tree.Subsection [] [("foo", PStr "bar")])]
                        [("misc", PDict [("foo", PStr "bar")])])
     = pre ++ line ++ post)
  /\ (exists pre post,
        Codec.pickle_result
          (fst (Codec.pickle
             (Tree.Subsection [("misc", Tree.Subsection [] [("foo", PStr "bar")])]
                              [("misc", PDict [("foo", PStr "bar")])])))
        = pre ++ line ++ post)
  /\ (forall config2 e2,
        Tree.save
          (Tree.Subsection [("misc", Tree.Subsection [] [("foo", PStr "bar")])]
                           [("misc", PDict [("foo", PStr "bar")])])
        = Ret config2 e2 ->
        exists pre post, Codec.pickle_result config2 = pre ++ line ++ post).
Proof.
  refine (unknown_key_is_kept
            (Tree.Subsection [("misc", Tree.Subsection [] [])] [])
            [("config.misc.foo=bar" ++ newline)%string]
            ["misc"; "foo"] "bar"
            [("misc", PDict [("foo", PStr "bar")])] []
            (Tree.Subsection [("misc", Tree.Subsection [] [("foo", PStr "bar")])]
                             [("misc", PDict [("foo", PStr "bar")])]) []
            _ _ _ _).
  - reflexivity.
  - reflexivity.
  - cbn. split; [repeat constructor; intros []|]. split; [constructor | exact I].
  - reflexivity.
Defined.

(** The scenario of the specification: the tree with the subsection
    [config.misc] reads [config.misc.foo=bar] and writes the same text. *)
Lemma misc_foo_bar_scenario :
  forall PY2,
    (config <- Tree.__setattr__ PY2 Tree.Config_init "misc" Tree.ConfigSubsection_init ;;
     config <- Codec.unpickle config [("config.misc.foo=bar" ++ newline)%string] ;;
     config <- Tree.save config ;;
     ret (snd (Codec.pickle config)))
    = Ret ("config.misc.foo=bar" ++ newline)%string [].
Proof. reflexivity. Qed.

(** C1. An unknown key is lost below a ConfigSubList (and a
    ConfigSubDict): [getSavedValue] of these starts the snapshot from an
    empty dict and adds the attached children only, where
    [ConfigSubsection.getSavedValue] starts from [stored_values], and the
    comment of [Config] says that entries without an element are saved.
    The key [config.nim.0] resolves to no attached element of the empty list
    [config.nim]; [unpickle] keeps it in the [stored_values] of the list,
    [pickle] writes nothing for it, and the root forgets it.  The same
    happens to [config.hdd.a] below the empty ConfigSubDict [config.hdd]. *)
Lemma sublist_entry_is_dropped :
  Tree.__setattr__ false Tree.Config_init "nim" Tree.ConfigSubList_init
  = Ret (Tree.Subsection [("nim", Tree.SubList [] [])] []) []
  /\ Tree.__setattr__ true Tree.Config_init "nim" Tree.ConfigSubList_init
     = Ret (Tree.Subsection [("nim", Tree.SubList [] [])] []) []
  /\ Codec.unpickle (Tree.Subsection [("nim", Tree.SubList [] [])] [])
       [("config.nim.0=foo" ++ newline)%string]
     = Ret (Tree.Subsection [("nim", Tree.SubList [] [("0", PStr "foo")])]
                            [("nim", PDict [("0", PStr "foo")])]) []
  /\ Codec.pickle
       (Tree.Subsection [("nim", Tree.SubList [] [("0", PStr "foo")])]
                        [("nim", PDict [("0", PStr "foo")])])
     = (Tree.Subsection [("nim", Tree.SubList [] [("0", PStr "foo")])]
                        [("nim", PDict [])], ""%string)
  /\ Codec.unpickle (Tree.Subsection [("hdd", Tree.SubDict [] [])] [])
       [("config.hdd.a=foo" ++ newline)%string]
     = Ret (Tree.Subsection [("hdd", Tree.SubDict [] [("a", PStr "foo")])]
                            [("hdd", PDict [("a", PStr "foo")])]) []
  /\ Codec.pickle
       (Tree.Subsection [("hdd", Tree.SubDict [] [("a", PStr "foo")])]
                        [("hdd", PDict [("a", PStr "foo")])])
     = (Tree.Subsection [("hdd", Tree.SubDict [] [("a", PStr "foo")])]
                        [("hdd", PDict [])], ""%string).
Proof. repeat split. Qed.


(** * Further properties *)

Import Props2.

(** ** ConfigSlider *)

Section SliderFacts.

Import Slider.

Lemma slider_checkValues_ok s :
  min s <= max s ->
  exists s' evs,
    checkValues None s = Ret s' evs
    /\ min s' = min s /\ max s' = max s /\ increment s' = increment s
    /\ min s <= _value s' <= max s
    /\ (min s <= _value s <= max s -> s' = s /\ evs = []).
Proof.
  intros Hmm. unfold checkValues, setValue.
  destruct (Z.ltb_spec (_value s) (min s)) as [Hlo|Hlo].
  - destruct (Z.gtb_spec (min s) (max s)); [lia|].
    destruct (Z.eqb_spec (_value s) (min s)); [lia|]. cbn.
    eexists _, _. split; [reflexivity|]. cbn. repeat (split; [first [reflexivity | lia]|]).
    intros. lia.
  - destruct (Z.gtb_spec (_value s) (max s)) as [Hhi|Hhi].
    + destruct (Z.eqb_spec (_value s) (max s)); [lia|]. cbn.
      eexists _, _. split; [reflexivity|]. cbn.
      repeat (split; [first [reflexivity | lia]|]). intros. lia.
    + rewrite Z.eqb_refl. cbn.
      exists s, []. split; [reflexivity|].
      repeat (split; [first [reflexivity | lia]|]). auto.
Qed.

Lemma slider_handleKey_ok key s :
  min s <= max s ->
  exists s' evs,
    handleKey key s = Ret s' evs
    /\ min s' = min s /\ max s' = max s /\ increment s' = increment s
    /\ (slider_key key -> min s <= _value s' <= max s)
    /\ (min s <= _value s <= max s -> min s <= _value s' <= max s).
Proof.
  intros Hmm. unfold handleKey.
  assert (Hset : forall v,
    exists s' evs,
      (s1 <- setValue s v ;; checkValues None s1) = Ret s' evs
      /\ min s' = min s /\ max s' = max s /\ increment s' = increment s
      /\ min s <= _value s' <= max s).
  { intros v. unfold setValue at 1. cbn [Element.changed emit bind ret].
    destruct (slider_checkValues_ok (set__value v s) Hmm)
      as (s' & evs & -> & H1 & H2 & H3 & H4 & _).
    eexists _, _. split; [reflexivity|]. cbn in *. auto. }
  destruct (Z.eqb_spec key ACTIONKEY_LEFT) as [K1|K1].
  { destruct (Hset (_value s - increment s)) as (s' & evs & -> & H1 & H2 & H3 & H4).
    eexists _, _. split; [reflexivity|]. auto 6. }
  destruct (Z.eqb_spec key ACTIONKEY_RIGHT) as [K2|K2].
  { destruct (Hset (_value s + increment s)) as (s' & evs & -> & H1 & H2 & H3 & H4).
    eexists _, _. split; [reflexivity|]. auto 6. }
  destruct (Z.eqb_spec key ACTIONKEY_FIRST) as [K3|K3].
  { destruct (Hset (min s)) as (s' & evs & -> & H1 & H2 & H3 & H4).
    eexists _, _. split; [reflexivity|]. auto 6. }
  destruct (Z.eqb_spec key ACTIONKEY_LAST) as [K4|K4].
  { destruct (Hset (max s)) as (s' & evs & -> & H1 & H2 & H3 & H4).
    eexists _, _. split; [reflexivity|]. auto 6. }
  exists s, []. split; [reflexivity|]. repeat (split; [reflexivity|]).
  split; [|auto]. unfold slider_key. intros [?|[?|[?|?]]]; contradiction.
Qed.

End SliderFacts.

(** X1. A slider whose limits are a range handles every list of keys
    without an exception and keeps its limits; once one of the keys was
    LEFT, RIGHT, FIRST or LAST, and from the start if the value was within
    the limits, the value lies within the limits. *)
Theorem slider_stays_within_limits (keys : list Z) (s : Slider.ConfigSlider) :
  Slider.min s <= Slider.max s ->
  Slider.min s <= Slider._value s <= Slider.max s \/ Exists slider_key keys ->
  exists s' evs,
    slider_handleKeys keys s = Ret s' evs
    /\ Slider.min s' = Slider.min s /\ Slider.max s' = Slider.max s
    /\ Slider.min s <= Slider._value s' <= Slider.max s.
Proof.
  revert s. induction keys as [|key keys IH]; intros s Hmm Hor.
  - destruct Hor as [Hb|He]; [|inversion He].
    exists s, []. repeat (split; [reflexivity|]). assumption.
  - cbn [slider_handleKeys].
    destruct (slider_handleKey_ok key s Hmm) as (s1 & e1 & -> & H1 & H2 & H3 & Hk & Hb).
    destruct (IH s1) as (s2 & e2 & E2 & G1 & G2 & G3).
    { rewrite H1, H2. assumption. }
    { rewrite H1, H2. destruct Hor as [Hin|He]; [left; auto|].
      inversion He; subst; [left; auto | right; assumption]. }
    cbn [bind]. rewrite E2. eexists _, _. split; [reflexivity|].
    rewrite G1, G2, H1, H2 in *. repeat (split; [reflexivity|]). assumption.
Qed.

Lemma slider_stays_within_limits_witness :
  exists s' evs,
    slider_handleKeys [ACTIONKEY_RIGHT; ACTIONKEY_RIGHT; ACTIONKEY_SELECT]
      (Slider.init 95 10 (0, 100)) = Ret s' evs
    /\ Slider.min s' = 0 /\ Slider.max s' = 100
    /\ 0 <= Slider._value s' <= 100.
Proof.
  apply (slider_stays_within_limits
           [ACTIONKEY_RIGHT; ACTIONKEY_RIGHT; ACTIONKEY_SELECT]
           (Slider.init 95 10 (0, 100))).
  - cbn. lia.
  - left. cbn. lia.
Defined.

Section SliderPersistence.

Import Slider.

Lemma slider_save_eq s :
  exists e,
    save s = Ret (set_saved_value
                    (if save_disabled s || ((_value s =? default s) && negb (save_forced s))
                     then None else Some (str_of_Z (_value s))) s) e.
Proof.
  unfold save, tostring.
  destruct (save_disabled s || ((_value s =? default s) && negb (save_forced s)));
    cbn [callNotifiersOnSaveAndCancel set_saved_value];
    destruct (callNotifiersOnSaveAndCancel s); eexists; reflexivity.
Qed.

Lemma slider_cancel_eq s z :
  match saved_value s with
  | None => z = default s
  | Some sv => int_of_str sv = Ret z []
  end ->
  exists e, cancel s = Ret (set__value z s) e.
Proof.
  unfold cancel, load, setValue, fromstring. intros H.
  destruct (saved_value s) as [sv|].
  - rewrite H. cbn. destruct (callNotifiersOnSaveAndCancel s); eexists; reflexivity.
  - subst z. cbn. destruct (callNotifiersOnSaveAndCancel s); eexists; reflexivity.
Qed.

End SliderPersistence.

(** X2. [save()] and [cancel()] of a slider: whatever the value is set to
    after a [save()], [cancel()] brings back the value that was saved, also
    when it was the default and nothing was written; a slider that is not
    saved ([save_disabled]) goes back to its default. *)
Theorem slider_cancel_restores (s : Slider.ConfigSlider) (v : Z) :
  exists s1 e1 s2 e2,
    Slider.save s = Ret s1 e1
    /\ Slider.cancel (Slider.set__value v s1) = Ret s2 e2
    /\ Slider._value s2
       = (if Slider.save_disabled s then Slider.default s else Slider._value s)
    /\ Slider.saved_value s2 = Slider.saved_value s1.
Proof.
  destruct (slider_save_eq s) as [e1 E1].
  set (s1 := Slider.set_saved_value _ s) in E1.
  destruct (slider_cancel_eq (Slider.set__value v s1)
              (if Slider.save_disabled s then Slider.default s else Slider._value s))
    as [e2 E2].
  { unfold s1. cbn [Slider.saved_value Slider.set__value Slider.set_saved_value
                    Slider.default].
    destruct (Slider.save_disabled s); cbn [orb]; [reflexivity|].
    destruct (Z.eqb_spec (Slider._value s) (Slider.default s)) as [E|E];
      cbn [andb]; [destruct (Slider.save_forced s); cbn [negb]|];
      first [apply int_of_str_of_Z | exact E]. }
  eexists s1, e1, _, e2. split; [exact E1|]. split; [exact E2|]. split; reflexivity.
Qed.

(** ** ConfigSequence: the persisted form *)

(** X3. [ConfigSequence.fromstring] fills a text that has fewer fields
    than there are limits up with the lower limits, and keeps every field
    of a text that has more; an empty text is a [ValueError]. *)
Theorem sequence_fromstring_fills_up (seperator : string) (limits : list (Z * Z))
    (v : list Z) :
  separates seperator -> v <> [] ->
  exists r,
    Sequence.fromstring seperator limits (Sequence.tostring seperator v) = Ret r []
    /\ r = v ++ map fst (skipn (List.length v) limits)
    /\ List.length r = Nat.max (List.length v) (List.length limits)
    /\ Sequence.fromstring seperator limits "" = Exc ValueError.
Proof.
  intros Hsep Hv. eexists. split; [now apply sequence_fromstring_tostring|].
  split; [reflexivity|]. split.
  - rewrite length_app, length_map, length_skipn. lia.
  - destruct Hsep as (c & rest & -> & _). reflexivity.
Qed.

Lemma sequence_fromstring_fills_up_witness :
  exists r,
    Sequence.fromstring "." IP.ip_limits (Sequence.tostring "." [192; 168]) = Ret r []
    /\ r = [192; 168] ++ map fst (skipn 2 IP.ip_limits)
    /\ List.length r = Nat.max 2 4
    /\ Sequence.fromstring "." IP.ip_limits "" = Exc ValueError.
Proof.
  apply (sequence_fromstring_fills_up "." IP.ip_limits [192; 168]).
  - exists "."%char, ""%string. repeat split; [discriminate].
  - discriminate.
Defined.

(** ** ConfigSelection: stepping through the choices *)

Section SelectionSteps.

Import Choices Element.

Variable PY2 : bool.

Lemma find_index_first {A} (p : A -> bool) l : forall i a,
  nth_error l i = Some a -> p a = true ->
  (forall j b, (j < i)%nat -> nth_error l j = Some b -> p b = false) ->
  find_index p l = Some (Z.of_nat i).
Proof.
  induction l as [|x l IH]; intros [|i] a Hi Hp Hlt; cbn in Hi; try discriminate.
  - injection Hi as ->. cbn. now rewrite Hp.
  - cbn [find_index]. rewrite (Hlt O x) by (lia || reflexivity).
    rewrite (IH i a Hi Hp).
    + f_equal. lia.
    + intros j b Hj Hb. apply (Hlt (S j) b); [lia | exact Hb].
Qed.

Lemma mapM_ident choices :
  Forall (fun c => match c with
                   | Plain x => truthy x = true
                   | Tuple _ _ => True
                   end) choices ->
  mapM ident choices = Ret (ids choices) [].
Proof.
  induction 1 as [|c l Hc _ IH]; [reflexivity|].
  cbn [mapM ids map]. fold (ids l).
  destruct c as [x|id descr]; cbn [ident ident_of].
  - rewrite Hc. cbn [ret]. now rewrite IH.
  - cbn [ret]. now rewrite IH.
Qed.

Lemma or_empty_ids l : l <> [] -> or_empty l = l.
Proof. destruct l; [congruence | reflexivity]. Qed.

Lemma usable_index choices i a :
  usable PY2 choices -> nth_error (ids choices) i = Some a ->
  index PY2 (LIST_TYPE_LIST choices) a = Ret (Z.of_nat i) [].
Proof.
  intros [Hid Hd] Hi. unfold index, __list__.
  rewrite (mapM_ident _ Hid). cbn [bind ret app].
  assert (Hne : ids choices <> []) by (intros E; rewrite E in Hi; destruct i; discriminate).
  rewrite (or_empty_ids _ Hne).
  destruct PY2 eqn:HP.
  - rewrite (find_index_first (String.eqb (str a)) (map str (ids choices)) i (str a)).
    + reflexivity.
    + rewrite nth_error_map, Hi. reflexivity.
    + apply String.eqb_refl.
    + intros j b Hj Hb. rewrite nth_error_map in Hb.
      destruct (nth_error (ids choices) j) as [b'|] eqn:Hb'; [|discriminate].
      injection Hb as <-. destruct (String.eqb (str a) (str b')) eqn:E; [|reflexivity].
      apply (Hd i j a b' Hi Hb') in E. lia.
  - rewrite (find_index_first (fun x => Py.eqb x a) (ids choices) i a Hi).
    + reflexivity.
    + now apply (Hd i i a a Hi Hi).
    + intros j b Hj Hb. destruct (Py.eqb b a) eqn:E; [|reflexivity].
      apply (Hd i j a b Hi Hb) in E. lia.
Qed.

Lemma getitem_id choices j c :
  nth_error choices j = Some c ->
  __getitem__ (LIST_TYPE_LIST choices) (Z.of_nat j) = Ret (ident_of c) [].
Proof.
  intros Hj. unfold __getitem__. cbn [raw_len].
  assert (Hlen : (j < List.length choices)%nat) by (apply nth_error_Some; congruence).
  destruct (List.length choices =? 0)%nat eqn:E; [apply Nat.eqb_eq in E; lia|].
  rewrite andb_false_r. rewrite (getitem_nth _ _ _ Hj).
  destruct c; reflexivity.
Qed.

Lemma str_in_map a l : In a l -> str_in (str a) (map str l) = true.
Proof.
  intros H. unfold str_in. apply existsb_exists. exists (str a).
  split; [now apply in_map | apply String.eqb_refl].
Qed.

Lemma usable_setValue e choices j a :
  cls e = ConfigSelection (LIST_TYPE_LIST choices) ->
  usable PY2 choices -> nth_error (ids choices) j = Some a ->
  setValue PY2 e a = Ret (set__value a e) [Changed].
Proof.
  intros Hc Hu Hj. unfold setValue, ConfigSelection_setValue. rewrite Hc.
  unfold __iter__. rewrite (mapM_ident _ (proj1 Hu)). cbn [bind ret app].
  assert (Hne : ids choices <> []) by (intros E; rewrite E in Hj; destruct j; discriminate).
  rewrite (or_empty_ids _ Hne).
  rewrite (str_in_map a (ids choices)) by (eapply nth_error_In; eassumption).
  rewrite (usable_index choices j a Hu Hj). cbn [bind app].
  pose proof Hj as Hj'. unfold ids in Hj'. rewrite nth_error_map in Hj'.
  destruct (nth_error choices j) as [c|] eqn:Hcj; [|discriminate].
  injection Hj' as <-. rewrite (getitem_id choices j c Hcj). reflexivity.
Qed.

Lemma id_at_nth choices k :
  0 <= k < Z.of_nat (List.length choices) ->
  nth_error (ids choices) (Z.to_nat k) = Some (id_at choices k).
Proof.
  intros Hk. unfold id_at. apply nth_error_nth'. unfold ids. rewrite length_map. lia.
Qed.

(** One step of the selection to the position [k]. *)
Lemma usable_step e choices i a k :
  cls e = ConfigSelection (LIST_TYPE_LIST choices) ->
  usable PY2 choices -> nth_error (ids choices) i = Some a ->
  0 <= k < Z.of_nat (List.length choices) ->
  (v <- __getitem__ (LIST_TYPE_LIST choices) k ;; setValue PY2 e v)
  = Ret (set__value (id_at choices k) e) [Changed].
Proof.
  intros Hc Hu Hi Hk. pose proof (id_at_nth choices k Hk) as Hn.
  pose proof Hn as Hn'. unfold ids in Hn'. rewrite nth_error_map in Hn'.
  destruct (nth_error choices (Z.to_nat k)) as [c|] eqn:Hck; [|discriminate].
  injection Hn' as Hid.
  rewrite <- (Z2Nat.id k) at 1 by lia.
  rewrite (getitem_id choices _ c Hck). cbn [bind].
  rewrite Hid, (usable_setValue e choices _ _ Hc Hu Hn). reflexivity.
Qed.

End SelectionSteps.

(** X4. [ConfigSelection.handleKey] on a list of two or more usable choices,
    with the value at the position [i]: RIGHT selects the next choice and
    LEFT the one before, both around the ends of the list, FIRST the first
    and LAST the last one, each with one call of [changed()]; LEFT after
    RIGHT gives back the element as it was. *)
Theorem selection_handleKey_steps (PY2 : bool) (e : Element.ConfigElement)
    (choices : list Choices.choice) (i : nat) :
  Element.cls e = Element.ConfigSelection (Choices.LIST_TYPE_LIST choices) ->
  usable PY2 choices ->
  (2 <= List.length choices)%nat ->
  nth_error (ids choices) i = Some (Element._value e) ->
  let n := Z.of_nat (List.length choices) in
  let moved k := Ret (Element.set__value (id_at choices k) e) [Changed] in
  Element.ConfigSelection_handleKey PY2 ACTIONKEY_RIGHT e = moved ((Z.of_nat i + 1) mod n)
  /\ Element.ConfigSelection_handleKey PY2 ACTIONKEY_LEFT e
     = moved ((Z.of_nat i + n - 1) mod n)
  /\ Element.ConfigSelection_handleKey PY2 ACTIONKEY_FIRST e = moved 0
  /\ Element.ConfigSelection_handleKey PY2 ACTIONKEY_LAST e = moved (n - 1)
  /\ (e1 <- Element.ConfigSelection_handleKey PY2 ACTIONKEY_RIGHT e ;;
      Element.ConfigSelection_handleKey PY2 ACTIONKEY_LEFT e1)
     = Ret e [Changed; Changed].
Proof.
  intros Hc Hu Hn Hi n moved.
  assert (Hlen : (i < List.length choices)%nat).
  { assert (H : (i < List.length (ids choices))%nat) by (apply nth_error_Some; congruence).
    unfold ids in H. now rewrite length_map in H. }
  assert (Hkey : forall key e0 i0,
            Element.cls e0 = Element.ConfigSelection (Choices.LIST_TYPE_LIST choices) ->
            nth_error (ids choices) i0 = Some (Element._value e0) ->
            forall k, 0 <= k < n ->
            (key = ACTIONKEY_RIGHT /\ k = (Z.of_nat i0 + 1) mod n)
            \/ (key = ACTIONKEY_LEFT /\ k = (Z.of_nat i0 + n - 1) mod n)
            \/ (key = ACTIONKEY_FIRST /\ k = 0)
            \/ (key = ACTIONKEY_LAST /\ k = n - 1) ->
            Element.ConfigSelection_handleKey PY2 key e0
            = Ret (Element.set__value (id_at choices k) e0) [Changed]).
  { intros key e0 i0 Hc0 Hi0 k Hk Hcase.
    unfold Element.ConfigSelection_handleKey. rewrite Hc0.
    assert (El : Choices.__len__ (Choices.LIST_TYPE_LIST choices) = n).
    { unfold Choices.__len__. cbn [Choices.raw_len]. unfold n.
      destruct (List.length choices); [lia | reflexivity]. }
    rewrite El.
    destruct (Z.gtb_spec n 1) as [_|Hle]; [|unfold n in Hle; lia].
    unfold Element.getValue.
    rewrite (usable_index PY2 choices i0 _ Hu Hi0). cbn [bind app].
    pose proof (usable_step PY2 e0 choices i0 _ k Hc0 Hu Hi0 Hk) as Hs.
    destruct Hcase as [[-> ->]|[[-> ->]|[[-> ->]|[-> ->]]]];
      cbv [ACTIONKEY_RIGHT ACTIONKEY_LEFT ACTIONKEY_FIRST ACTIONKEY_LAST];
      cbn [Z.eqb Pos.eqb]; rewrite Hs; reflexivity. }
  assert (Hn0 : 0 < n) by (unfold n; lia).
  split; [|split; [|split; [|split]]].
  - apply (Hkey _ e i Hc Hi); [apply Z.mod_pos_bound; lia | auto].
  - apply (Hkey _ e i Hc Hi); [apply Z.mod_pos_bound; lia | auto].
  - apply (Hkey _ e i Hc Hi); [lia | auto 6].
  - apply (Hkey _ e i Hc Hi); [lia | auto 6].
  - rewrite (Hkey ACTIONKEY_RIGHT e i Hc Hi ((Z.of_nat i + 1) mod n));
      [|apply Z.mod_pos_bound; lia | auto].
    cbn [bind].
    set (j := (Z.of_nat i + 1) mod n).
    assert (Hj : 0 <= j < n) by (apply Z.mod_pos_bound; lia).
    rewrite (Hkey ACTIONKEY_LEFT (Element.set__value (id_at choices j) e) (Z.to_nat j)
               Hc (id_at_nth choices j Hj) (Z.of_nat i)); [| lia |].
    + unfold id_at. rewrite Nat2Z.id.
      rewrite (nth_error_nth _ _ _ Hi). destruct e; reflexivity.
    + right. left. split; [reflexivity|]. rewrite Z2Nat.id by lia. unfold j.
      assert (Hi' : Z.of_nat i < n) by (unfold n; lia).
      destruct (Z.eq_dec (Z.of_nat i + 1) n) as [E|E].
      * rewrite E, Z_mod_same_full. rewrite Z.mod_small by lia. lia.
      * rewrite (Z.mod_small (Z.of_nat i + 1) n) by lia.
        replace (Z.of_nat i + 1 + n - 1) with (Z.of_nat i + 1 * n) by lia.
        rewrite Z_mod_plus_full. rewrite Z.mod_small by lia. reflexivity.
Qed.

Lemma selection_handleKey_steps_witness :
  let choices := [Choices.Tuple (PStr "a") (PStr "A"); Choices.Plain (PStr "b");
                  Choices.Plain (PInt 3)] in
  let e := Element.ConfigSelection_init (Choices.LIST_TYPE_LIST choices) None in
  let moved k := Ret (Element.set__value (id_at choices k) e) [Changed] in
  Element.ConfigSelection_handleKey false ACTIONKEY_RIGHT e = moved ((0 + 1) mod 3)
  /\ Element.ConfigSelection_handleKey false ACTIONKEY_LEFT e = moved ((0 + 3 - 1) mod 3)
  /\ Element.ConfigSelection_handleKey false ACTIONKEY_FIRST e = moved 0
  /\ Element.ConfigSelection_handleKey false ACTIONKEY_LAST e = moved (3 - 1)
  /\ (e1 <- Element.ConfigSelection_handleKey false ACTIONKEY_RIGHT e ;;
      Element.ConfigSelection_handleKey false ACTIONKEY_LEFT e1)
     = Ret e [Changed; Changed].
Proof.
  apply (selection_handleKey_steps false
           (Element.ConfigSelection_init
              (Choices.LIST_TYPE_LIST
                 [Choices.Tuple (PStr "a") (PStr "A"); Choices.Plain (PStr "b");
                  Choices.Plain (PInt 3)]) None)
           [Choices.Tuple (PStr "a") (PStr "A"); Choices.Plain (PStr "b");
            Choices.Plain (PInt 3)] 0).
  - reflexivity.
  - split; [repeat constructor|].
    intros i j a b Hi Hj.
    destruct i as [|[|[|i]]]; destruct j as [|[|[|j]]]; cbn in Hi, Hj;
      try (destruct i; discriminate); try (destruct j; discriminate);
      injection Hi as <-; injection Hj as <-; cbn; split; intros H;
      first [reflexivity | discriminate].
  - cbn. lia.
  - reflexivity.
Defined.

(** ** ConfigSelection over strings *)

Section StringChoices.

Import Choices Element.

Variable PY2 : bool.

Lemma find_index_Some {A} (p : A -> bool) l : forall i,
  find_index p l = Some i ->
  0 <= i /\ exists a, nth_error l (Z.to_nat i) = Some a /\ p a = true.
Proof.
  induction l as [|x l IH]; intros i H; cbn in H; [discriminate|].
  destruct (p x) eqn:Hp.
  - injection H as <-. split; [lia|]. exists x. split; [reflexivity | assumption].
  - destruct (find_index p l) as [j|]; [|discriminate]. injection H as <-.
    destruct (IH j eq_refl) as (Hj & a & Ha & Hpa). split; [lia|].
    exists a. split; [|assumption].
    replace (Z.to_nat (j + 1)) with (S (Z.to_nat j)) by lia. exact Ha.
Qed.

Lemma find_index_existsb {A} (p : A -> bool) l :
  existsb p l = true -> exists i, find_index p l = Some i.
Proof.
  induction l as [|x l IH]; cbn; [discriminate|].
  destruct (p x); [eauto|]. cbn. intros H. destruct (IH H) as [i ->]. eauto.
Qed.

Lemma string_ids_truthy choices :
  string_ids choices ->
  Forall (fun c => match c with
                   | Plain x => truthy x = true
                   | Tuple _ _ => True
                   end) choices.
Proof.
  intros H. eapply Forall_impl; [|exact H].
  intros [x|id d] (t & Ht & Hne); [|exact I]. cbn in Ht. subst x. cbn.
  destruct t; [congruence | reflexivity].
Qed.

Lemma string_ids_str choices a :
  string_ids choices -> In a (ids choices) -> a = PStr (str a).
Proof.
  intros H Ha. unfold ids in Ha. apply in_map_iff in Ha.
  destruct Ha as (c & <- & Hc). unfold string_ids in H. rewrite Forall_forall in H.
  destruct (H c Hc) as (t & -> & _). reflexivity.
Qed.

(** The choice [index] finds for a text that is among the identifiers is
    that text. *)
Lemma string_index choices sv :
  string_ids choices -> ids choices <> [] ->
  str_in sv (map str (ids choices)) = true ->
  exists i,
    index PY2 (LIST_TYPE_LIST choices) (PStr sv) = Ret i []
    /\ __getitem__ (LIST_TYPE_LIST choices) i = Ret (PStr sv) [].
Proof.
  intros Hs Hne Hin. unfold index, __list__.
  rewrite (mapM_ident _ (string_ids_truthy _ Hs)). cbn [bind ret app].
  rewrite (or_empty_ids _ Hne).
  assert (Hget : forall i a, 0 <= i -> nth_error (ids choices) (Z.to_nat i) = Some a ->
                 str a = sv ->
                 __getitem__ (LIST_TYPE_LIST choices) i = Ret (PStr sv) []).
  { intros i a Hi Ha Hstr.
    pose proof (string_ids_str choices a Hs (nth_error_In _ _ Ha)) as Ea.
    unfold ids in Ha. rewrite nth_error_map in Ha.
    destruct (nth_error choices (Z.to_nat i)) as [c|] eqn:Hc; [|discriminate].
    injection Ha as Ha. rewrite <- (Z2Nat.id i) by lia.
    rewrite (getitem_id choices _ c Hc), Ha, Ea, Hstr. reflexivity. }
  destruct PY2.
  - unfold str_in in Hin. cbn [str] in *.
    destruct (find_index_existsb _ _ Hin) as [i Ei]. rewrite Ei.
    exists i. split; [reflexivity|].
    destruct (find_index_Some _ _ _ Ei) as (Hi & t & Ht & Hp).
    rewrite nth_error_map in Ht.
    destruct (nth_error (ids choices) (Z.to_nat i)) as [a|] eqn:Ha; [|discriminate].
    injection Ht as <-. apply String.eqb_eq in Hp. eauto.
  - assert (Hex : existsb (fun x => Py.eqb x (PStr sv)) (ids choices) = true).
    { unfold str_in in Hin. apply existsb_exists in Hin. destruct Hin as (t & Ht & Hp).
      apply in_map_iff in Ht. destruct Ht as (a & <- & Ha).
      apply existsb_exists. exists a. split; [assumption|].
      rewrite (string_ids_str choices a Hs Ha). cbn. now rewrite String.eqb_sym. }
    destruct (find_index_existsb _ _ Hex) as [i Ei]. rewrite Ei.
    exists i. split; [reflexivity|].
    destruct (find_index_Some _ _ _ Ei) as (Hi & a & Ha & Hp).
    apply (Hget i a Hi Ha).
    rewrite (string_ids_str choices a Hs (nth_error_In _ _ Ha)) in Hp.
    cbn in Hp. now apply String.eqb_eq in Hp.
Qed.

Lemma string_setValue (e : ConfigElement) (choices : list choice) (sv : string) :
  cls e = ConfigSelection (LIST_TYPE_LIST choices) ->
  string_ids choices ->
  ConfigSelection_setValue PY2 e (PStr sv)
  = Ret (set__value
           (if str_in sv (map str (or_empty (ids choices)))
            then PStr sv else default e) e) [Changed].
Proof.
  intros Hc Hs. unfold ConfigSelection_setValue. rewrite Hc.
  unfold __iter__. rewrite (mapM_ident _ (string_ids_truthy _ Hs)).
  cbn [bind ret app str].
  destruct (str_in sv (map str (or_empty (ids choices)))) eqn:Hin;
    [|reflexivity].
  destruct (ids choices) as [|a l] eqn:Hids.
  - (* no choices: the only text found is the empty one *)
    cbn in Hin. rewrite orb_false_r in Hin. apply String.eqb_eq in Hin. subst sv.
    assert (choices = []) as -> by (destruct choices; [reflexivity | discriminate]).
    destruct PY2; reflexivity.
  - cbn [or_empty] in Hin. rewrite <- Hids in Hin.
    destruct (string_index choices sv Hs) as (i & -> & Hg);
      [rewrite Hids; discriminate | assumption |].
    cbn [bind app]. rewrite Hg. reflexivity.
Qed.

End StringChoices.

(** X5. [ConfigSelection.setValue] over choices whose identifiers are
    non-empty strings, bare or with a description, and for a value that is
    a string: on Python 2 and on Python 3 it sets the value itself if it is
    one of the identifiers and the default if it is not, calls [changed()]
    once and does not raise. *)
Theorem selection_setValue_strings (PY2 : bool) (e : Element.ConfigElement)
    (choices : list Choices.choice) (sv : string) :
  Element.cls e = Element.ConfigSelection (Choices.LIST_TYPE_LIST choices) ->
  string_ids choices ->
  Element.ConfigSelection_setValue PY2 e (PStr sv)
  = Ret (Element.set__value
           (if str_in sv (map str (Choices.or_empty (ids choices)))
            then PStr sv else Element.default e) e) [Changed].
Proof. apply string_setValue. Qed.

Lemma selection_setValue_strings_witness :
  let choices := [Choices.Tuple (PStr "pal") (PStr "PAL"); Choices.Plain (PStr "ntsc")] in
  let e := Element.ConfigSelection_init (Choices.LIST_TYPE_LIST choices) None in
  Element.ConfigSelection_setValue false e (PStr "ntsc")
  = Ret (Element.set__value
           (if str_in "ntsc" (map str (Choices.or_empty (ids choices)))
            then PStr "ntsc" else Element.default e) e) [Changed].
Proof.
  apply (selection_setValue_strings false
           (Element.ConfigSelection_init
              (Choices.LIST_TYPE_LIST
                 [Choices.Tuple (PStr "pal") (PStr "PAL"); Choices.Plain (PStr "ntsc")])
              None)
           [Choices.Tuple (PStr "pal") (PStr "PAL"); Choices.Plain (PStr "ntsc")] "ntsc").
  - reflexivity.
  - repeat constructor; eexists; (split; [reflexivity | discriminate]).
Defined.

(** ** ConfigSelectionNumber *)

Section NumberChoices.

Import Choices Element SelectionNumber.

Lemma count_step min max stepwidth :
  0 < stepwidth -> min <= max ->
  count min max stepwidth = S (count (min + stepwidth) max stepwidth).
Proof.
  intros Hs Hm. unfold count.
  destruct (Z.leb_spec min max); [|lia].
  destruct (Z.leb_spec (min + stepwidth) max) as [Hle|Hgt].
  - replace (max - min) with ((max - (min + stepwidth)) + 1 * stepwidth) by lia.
    rewrite Z.div_add by lia.
    assert (0 <= (max - (min + stepwidth)) / stepwidth) by (apply Z.div_pos; lia).
    lia.
  - rewrite Z.div_small by lia. reflexivity.
Qed.

Lemma count_none min max stepwidth : max < min -> count min max stepwidth = O.
Proof. intros H. unfold count. destruct (Z.leb_spec min max); [lia | reflexivity]. Qed.

Lemma steps_enough stepwidth max : 0 < stepwidth ->
  forall n fuel step,
    n = count step max stepwidth -> (n < fuel)%nat ->
    steps fuel step max stepwidth = Ret (map str_of_Z (arith n step stepwidth)) [].
Proof.
  intros Hs. induction n as [|n IH]; intros [|fuel] step Hn Hf; try lia; cbn [steps].
  - destruct (Z.leb_spec step max) as [Hle|Hgt]; [|reflexivity].
    rewrite (count_step _ _ _ Hs Hle) in Hn. discriminate.
  - destruct (Z.leb_spec step max) as [Hle|Hgt].
    + rewrite (count_step _ _ _ Hs Hle) in Hn. injection Hn as Hn.
      rewrite (IH fuel (step + stepwidth) Hn) by lia. reflexivity.
    + rewrite (count_none _ _ _ Hgt) in Hn. discriminate.
Qed.

Lemma steps_never stepwidth max : stepwidth <= 0 ->
  forall fuel step, step <= max -> steps fuel step max stepwidth = Fuel.
Proof.
  intros Hs. induction fuel as [|fuel IH]; intros step Hle; [reflexivity|].
  cbn [steps]. destruct (Z.leb_spec step max); [|lia].
  rewrite IH by lia. reflexivity.
Qed.

Lemma arith_bounds stepwidth max : 0 < stepwidth ->
  forall n step, n = count step max stepwidth ->
    Forall (fun x => step <= x <= max) (arith n step stepwidth)
    /\ max < step + Z.of_nat n * stepwidth.
Proof.
  intros Hs. induction n as [|n IH]; intros step Hn.
  - split; [constructor|]. unfold count in Hn.
    destruct (Z.leb_spec step max) as [Hle|Hgt]; [|lia].
    assert (0 <= (max - step) / stepwidth) by (apply Z.div_pos; lia). lia.
  - assert (Hle : step <= max).
    { destruct (Z.le_gt_cases step max) as [H|H]; [assumption|].
      rewrite (count_none _ _ _ H) in Hn. discriminate. }
    rewrite (count_step _ _ _ Hs Hle) in Hn. injection Hn as Hn.
    destruct (IH (step + stepwidth) Hn) as [Hall Hnext]. split.
    + cbn [arith]. constructor; [lia|].
      eapply Forall_impl; [|exact Hall]. cbn. intros. lia.
    + lia.
Qed.

Lemma str_of_Z_inj a b : str_of_Z a = str_of_Z b -> a = b.
Proof.
  intros H. pose proof (int_of_str_of_Z a) as Ha. rewrite H, int_of_str_of_Z in Ha.
  now injection Ha.
Qed.

Lemma str_of_Z_nonempty z : str_of_Z z <> ""%string.
Proof.
  pose proof (str_len_pos z) as H. unfold str_len in H.
  intros E. rewrite E in H. cbn in H. lia.
Qed.

Lemma number_string_ids l :
  string_ids (map (fun c => Plain (PStr c)) (map str_of_Z l)).
Proof.
  unfold string_ids. rewrite !Forall_map. apply Forall_forall. intros z _.
  exists (str_of_Z z). split; [reflexivity | apply str_of_Z_nonempty].
Qed.

Lemma number_ids l :
  map str (ids (map (fun c => Plain (PStr c)) (map str_of_Z l))) = map str_of_Z l.
Proof. unfold ids. rewrite !map_map. reflexivity. Qed.

Lemma str_in_numbers v l :
  str_in (str_of_Z v) (map str_of_Z l) = existsb (Z.eqb v) l.
Proof.
  unfold str_in. induction l as [|z l IH]; [reflexivity|].
  cbn [map existsb]. rewrite IH. f_equal.
  destruct (Z.eqb_spec v z) as [->|Hne]; [apply String.eqb_refl|].
  apply String.eqb_neq. intros E. apply Hne. now apply str_of_Z_inj.
Qed.

End NumberChoices.

(** X6. The constructor of [ConfigSelectionNumber] with a positive step
    width returns: its choices are the texts of [min], [min + stepwidth],
    ..., all of them from [min] to [max], and the next number of the row is
    above [max]; the default is the text of [default], or of [min] without
    one. *)
Theorem selection_number_choices (fuel : nat) (min max stepwidth : Z)
    (default : option Z) (wraparound : bool) :
  0 < stepwidth ->
  (count min max stepwidth < fuel)%nat ->
  let n := count min max stepwidth in
  let numbers := arith n min stepwidth in
  SelectionNumber.init fuel min max stepwidth default wraparound
  = Ret (SelectionNumber.mkNumber
           (Element.ConfigSelection_init
              (Choices.LIST_TYPE_LIST
                 (map (fun c => Choices.Plain (PStr c)) (map str_of_Z numbers)))
              (Some (PStr (str_of_Z match default with
                                    | None => min
                                    | Some d => d
                                    end))))
           wraparound) []
  /\ Forall (fun x => min <= x <= max) numbers
  /\ max < min + Z.of_nat n * stepwidth.
Proof.
  intros Hs Hf n numbers. split.
  - unfold SelectionNumber.init.
    rewrite (steps_enough stepwidth max Hs n fuel min eq_refl Hf). reflexivity.
  - exact (arith_bounds stepwidth max Hs n min eq_refl).
Qed.

Lemma selection_number_choices_witness :
  SelectionNumber.init 10 0 10 5 None false
  = Ret (SelectionNumber.mkNumber
           (Element.ConfigSelection_init
              (Choices.LIST_TYPE_LIST
                 (map (fun c => Choices.Plain (PStr c))
                      (map str_of_Z (arith (count 0 10 5) 0 5))))
              (Some (PStr (str_of_Z 0))))
           false) []
  /\ Forall (fun x => 0 <= x <= 10) (arith (count 0 10 5) 0 5)
  /\ 10 < 0 + Z.of_nat (count 0 10 5) * 5.
Proof.
  apply (selection_number_choices 10 0 10 5 None false).
  - lia.
  - vm_compute. lia.
Defined.

(** X7. With a step width that is not positive and [min <= max] the loop of
    the constructor of [ConfigSelectionNumber] does not end: no number of
    turns is enough for it to return. *)
Theorem selection_number_never_returns (fuel : nat) (min max stepwidth : Z)
    (default : option Z) (wraparound : bool) :
  stepwidth <= 0 -> min <= max ->
  SelectionNumber.init fuel min max stepwidth default wraparound = Fuel.
Proof.
  intros Hs Hm. unfold SelectionNumber.init.
  rewrite (steps_never stepwidth max Hs fuel min Hm). reflexivity.
Qed.

Lemma selection_number_never_returns_witness :
  SelectionNumber.init 1000 0 10 0 None false = Fuel.
Proof. apply (selection_number_never_returns 1000 0 10 0 None false); lia. Defined.

(** X8. [setValue(v)] and then [getValue()] on a [ConfigSelectionNumber],
    on Python 2 and on Python 3: the value read is [v] if [v] is one of the
    numbers of the selection and the default if it is not; [changed()] is
    called once. *)
Theorem selection_number_set_get (PY2 : bool) (fuel : nat) (min max stepwidth : Z)
    (default : option Z) (wraparound : bool) (s : SelectionNumber.ConfigSelectionNumber)
    (v : Z) :
  0 < stepwidth ->
  SelectionNumber.init fuel min max stepwidth default wraparound = Ret s [] ->
  exists s',
    SelectionNumber.setValue PY2 s (PInt v) = Ret s' [Changed]
    /\ SelectionNumber.getValue s'
       = Ret (if existsb (Z.eqb v) (arith (count min max stepwidth) min stepwidth)
              then v
              else match default with
                   | None => min
                   | Some d => d
                   end) [].
Proof.
  intros Hs Hinit. unfold SelectionNumber.init in Hinit.
  destruct (SelectionNumber.steps fuel min max stepwidth) as [choices ev| |] eqn:Est;
    try discriminate.
  assert (Hch : choices = map str_of_Z (arith (count min max stepwidth) min stepwidth)).
  { destruct (Nat.lt_ge_cases (count min max stepwidth) fuel) as [Hlt|Hge].
    - rewrite (steps_enough stepwidth max Hs _ fuel min eq_refl Hlt) in Est.
      now injection Est.
    - exfalso. clear Hinit. revert min choices ev Est Hge.
      induction fuel as [|fuel IH]; intros min choices ev Est Hge; [discriminate|].
      cbn [SelectionNumber.steps] in Est.
      destruct (Z.leb_spec min max) as [Hle|Hgt].
      + rewrite (count_step _ _ _ Hs Hle) in Hge.
        destruct (SelectionNumber.steps fuel (min + stepwidth) max stepwidth)
          as [r er| |] eqn:Er; try discriminate.
        apply (IH (min + stepwidth) r er Er). lia.
      + rewrite (count_none _ _ _ Hgt) in Hge. lia. }
  cbn [bind ret] in Hinit. injection Hinit as <- _.
  unfold SelectionNumber.setValue. cbn [SelectionNumber.sel str repr].
  rewrite (string_setValue PY2 _
             (map (fun c => Choices.Plain (PStr c)) choices) (str_of_Z v));
    [|reflexivity | rewrite Hch; apply number_string_ids].
  cbn [bind ret app]. eexists. split; [reflexivity|].
  unfold SelectionNumber.getValue, SelectionNumber.set_sel, Element.getValue.
  cbn [SelectionNumber.sel Element._value Element.set__value].
  rewrite Hch.
  set (l := arith (count min max stepwidth) min stepwidth).
  destruct l as [|z l'] eqn:El.
  - cbn [map ids Choices.or_empty str str_in existsb].
    rewrite orb_false_r.
    destruct (String.eqb_spec (str_of_Z v) "") as [E|_];
      [now apply str_of_Z_nonempty in E|].
    cbn [Element.default Element.ConfigSelection_init Element.new SelectionNumber.int_of].
    apply int_of_str_of_Z.
  - rewrite <- El. rewrite or_empty_ids.
    2:{ rewrite El. discriminate. }
    rewrite number_ids, str_in_numbers.
    destruct (existsb (Z.eqb v) l);
      cbn [Element.default Element.ConfigSelection_init Element.new SelectionNumber.int_of];
      apply int_of_str_of_Z.
Qed.

Lemma selection_number_set_get_witness :
  exists s',
    SelectionNumber.setValue false
      (SelectionNumber.mkNumber
         (Element.ConfigSelection_init
            (Choices.LIST_TYPE_LIST
               (map (fun c => Choices.Plain (PStr c)) ["0"; "5"; "10"]%string))
            (Some (PStr "0"))) false) (PInt 5) = Ret s' [Changed]
    /\ SelectionNumber.getValue s'
       = Ret (if existsb (Z.eqb 5) (arith (count 0 10 5) 0 5) then 5 else 0) [].
Proof.
  apply (selection_number_set_get false 10 0 10 5 None false
           (SelectionNumber.mkNumber
              (Element.ConfigSelection_init
                 (Choices.LIST_TYPE_LIST
                    (map (fun c => Choices.Plain (PStr c)) ["0"; "5"; "10"]%string))
                 (Some (PStr "0"))) false) 5).
  - lia.
  - reflexivity.
Defined.

Section NumberSteps.

Import Choices Element SelectionNumber.

Variable l : list Z.
Hypothesis Hnd : NoDup l.

Let choices := map (fun c => Plain (PStr c)) (map str_of_Z l).

Lemma number_list PY2 : l <> [] ->
  __list__ PY2 (LIST_TYPE_LIST choices) = Ret (map PStr (map str_of_Z l)) [].
Proof.
  intros Hne. unfold __list__, choices.
  rewrite (mapM_ident _ (string_ids_truthy _ (number_string_ids l))).
  cbn [bind ret app]. unfold ids. rewrite map_map. cbn [ident_of].
  rewrite or_empty_ids; [reflexivity|].
  destruct l; [congruence | discriminate].
Qed.

Lemma number_index_py2 (a : pyval) v k :
  str a = str_of_Z v -> nth_error l k = Some v ->
  index true (LIST_TYPE_LIST choices) a = Ret (Z.of_nat k) [].
Proof.
  intros Ha Hk. unfold index. rewrite number_list.
  2:{ intros E. rewrite E in Hk. destruct k; discriminate. }
  rewrite map_map. cbn [str]. rewrite Ha, map_id.
  rewrite (find_index_first (String.eqb (str_of_Z v)) (map str_of_Z l) k (str_of_Z v)).
  - reflexivity.
  - rewrite nth_error_map, Hk. reflexivity.
  - apply String.eqb_refl.
  - intros j b Hj Hb. rewrite nth_error_map in Hb.
    destruct (nth_error l j) as [w|] eqn:Hw; [|discriminate]. injection Hb as <-.
    apply String.eqb_neq. intros E. apply str_of_Z_inj in E. subst w.
    assert (j = k); [|lia].
    apply (proj1 (NoDup_nth_error l) Hnd j k); [|congruence].
    apply nth_error_Some. congruence.
Qed.

Lemma number_index_py3 z : l <> [] ->
  index false (LIST_TYPE_LIST choices) (PInt z) = Exc ValueError.
Proof.
  intros Hne. unfold index. rewrite (number_list false Hne). cbn [bind].
  assert (E : find_index (fun x => Py.eqb x (PInt z)) (map PStr (map str_of_Z l)) = None).
  { induction (map str_of_Z l) as [|t r IH]; [reflexivity|]. cbn. now rewrite IH. }
  rewrite E. reflexivity.
Qed.

Lemma number_getitem k v :
  nth_error l k = Some v ->
  __getitem__ (LIST_TYPE_LIST choices) (Z.of_nat k) = Ret (PStr (str_of_Z v)) [].
Proof.
  intros Hk. rewrite (getitem_id choices k (Plain (PStr (str_of_Z v)))); [reflexivity|].
  unfold choices. rewrite !nth_error_map, Hk. reflexivity.
Qed.

Lemma number_setValue PY2 s v w :
  number_state l v s -> In w l ->
  SelectionNumber.setValue PY2 s (PStr (str_of_Z w)) = Ret (set_number w s) [Changed].
Proof.
  intros [Hc Hv] Hw. unfold SelectionNumber.setValue. cbn [str].
  rewrite (string_setValue PY2 _ choices (str_of_Z w) Hc (number_string_ids l)).
  cbn [bind ret app]. unfold set_number. do 3 f_equal.
  rewrite or_empty_ids.
  2:{ unfold choices, ids. destruct l; [destruct Hw | discriminate]. }
  unfold choices. rewrite number_ids, str_in_numbers.
  assert (E : existsb (Z.eqb w) l = true).
  { apply existsb_exists. exists w. split; [assumption | apply Z.eqb_refl]. }
  now rewrite E.
Qed.

Lemma number_getValue s v : number_state l v s -> getValue s = Ret v [].
Proof.
  intros [_ Hv]. unfold getValue, Element.getValue. rewrite Hv.
  apply int_of_str_of_Z.
Qed.

Lemma number_len : (2 <= List.length l)%nat ->
  __len__ (LIST_TYPE_LIST choices) = Z.of_nat (List.length l).
Proof.
  intros H. unfold __len__. cbn [raw_len]. unfold choices. rewrite !length_map.
  destruct (List.length l); [lia | reflexivity].
Qed.

(** One step of the selection to the position [j], on Python 2. *)
Lemma number_step s v j :
  number_state l v s -> 0 <= j < Z.of_nat (List.length l) ->
  (x <- __getitem__ (LIST_TYPE_LIST choices) j ;; SelectionNumber.setValue true s x)
  = Ret (set_number (nth (Z.to_nat j) l 0) s) [Changed].
Proof.
  intros Hst Hj.
  assert (Hn : nth_error l (Z.to_nat j) = Some (nth (Z.to_nat j) l 0))
    by (apply nth_error_nth'; lia).
  rewrite <- (Z2Nat.id j) at 1 by lia.
  rewrite (number_getitem _ _ Hn). cbn [bind].
  rewrite (number_setValue true s v _ Hst (nth_error_In _ _ Hn)). reflexivity.
Qed.

End NumberSteps.

(** X9. [ConfigSelectionNumber.handleKey] on a selection of two or more
    numbers.  On Python 3 every key is a [ValueError]: the position of the
    value, an integer, is looked up among the choices, which are strings.
    On Python 2 RIGHT selects the next number and LEFT the one before; at
    the last and at the first number they do nothing, unless the selection
    wraps around. *)
Theorem selection_number_handleKey (s : SelectionNumber.ConfigSelectionNumber)
    (l : list Z) (k : nat) (v : Z) :
  number_state l v s -> NoDup l -> (2 <= List.length l)%nat ->
  nth_error l k = Some v ->
  let n := Z.of_nat (List.length l) in
  let moved j := Ret (set_number (nth (Z.to_nat j) l 0) s) [Changed] in
  (forall key, SelectionNumber.handleKey false key s = Exc ValueError)
  /\ SelectionNumber.handleKey true ACTIONKEY_RIGHT s
     = (if negb (SelectionNumber.wraparound s) && (n =? Z.of_nat k + 1)
        then Ret s [] else moved ((Z.of_nat k + 1) mod n))
  /\ SelectionNumber.handleKey true ACTIONKEY_LEFT s
     = (if negb (SelectionNumber.wraparound s) && (Z.of_nat k =? 0)
        then Ret s [] else moved ((Z.of_nat k + n - 1) mod n)).
Proof.
  intros Hst Hnd Hlen Hk n moved.
  pose proof Hst as [Hc Hv].
  assert (Hne : l <> []) by (intros E; rewrite E in Hk; destruct k; discriminate).
  assert (Hn0 : 1 < n) by (unfold n; lia).
  pose proof (number_getValue l s v Hst) as Hget.
  pose proof (number_len l Hlen) as Hl. fold n in Hl.
  split; [|split].
  - intros key. unfold SelectionNumber.handleKey, SelectionNumber.ConfigSelection_handleKey.
    rewrite Hc, Hl, Hget. cbn [bind app]. rewrite (number_index_py3 l Hnd v Hne).
    destruct (Z.gtb_spec n 1); [|lia].
    destruct (negb (SelectionNumber.wraparound s)); cbn [bind];
      destruct (key =? ACTIONKEY_RIGHT); cbn [bind ret];
      destruct (key =? ACTIONKEY_LEFT); reflexivity.
  - unfold SelectionNumber.handleKey, SelectionNumber.ConfigSelection_handleKey.
    rewrite Hc, Hl, Hget. cbn [bind app].
    rewrite (number_index_py2 l Hnd (PInt v) v k eq_refl Hk). cbn [bind app ret].
    destruct (Z.gtb_spec n 1); [|lia].
    change (ACTIONKEY_RIGHT =? ACTIONKEY_RIGHT) with true.
    change (ACTIONKEY_RIGHT =? ACTIONKEY_LEFT) with false.
    pose proof (number_step l Hnd s v ((Z.of_nat k + 1) mod n) Hst) as Hs.
    destruct (negb (SelectionNumber.wraparound s)); cbn [bind andb app];
      [destruct (n =? Z.of_nat k + 1); cbn [bind app]; [reflexivity|]|];
      rewrite Hs by (apply Z.mod_pos_bound; lia); reflexivity.
  - unfold SelectionNumber.handleKey, SelectionNumber.ConfigSelection_handleKey.
    rewrite Hc, Hl, Hget. cbn [bind app].
    rewrite (number_index_py2 l Hnd (PInt v) v k eq_refl Hk). cbn [bind app ret].
    destruct (Z.gtb_spec n 1); [|lia].
    change (ACTIONKEY_LEFT =? ACTIONKEY_RIGHT) with false.
    change (ACTIONKEY_LEFT =? ACTIONKEY_LEFT) with true.
    pose proof (number_step l Hnd s v ((Z.of_nat k + n - 1) mod n) Hst) as Hs.
    destruct (negb (SelectionNumber.wraparound s)); cbn [bind andb app];
      [destruct (Z.of_nat k =? 0); cbn [bind app]; [reflexivity|]|];
      rewrite Hs by (apply Z.mod_pos_bound; lia); reflexivity.
Qed.

Lemma selection_number_handleKey_witness :
  let s := SelectionNumber.mkNumber
             (Element.ConfigSelection_init
                (Choices.LIST_TYPE_LIST
                   (map (fun c => Choices.Plain (PStr c)) (map str_of_Z [0; 5; 10])))
                (Some (PStr (str_of_Z 10)))) false in
  let moved j := Ret (set_number (nth (Z.to_nat j) [0; 5; 10] 0) s) [Changed] in
  (forall key, SelectionNumber.handleKey false key s = Exc ValueError)
  /\ SelectionNumber.handleKey true ACTIONKEY_RIGHT s
     = (if negb false && (3 =? 2 + 1) then Ret s [] else moved ((2 + 1) mod 3))
  /\ SelectionNumber.handleKey true ACTIONKEY_LEFT s
     = (if negb false && (2 =? 0) then Ret s [] else moved ((2 + 3 - 1) mod 3)).
Proof.
  apply (selection_number_handleKey
           (SelectionNumber.mkNumber
              (Element.ConfigSelection_init
                 (Choices.LIST_TYPE_LIST
                    (map (fun c => Choices.Plain (PStr c)) (map str_of_Z [0; 5; 10])))
                 (Some (PStr (str_of_Z 10)))) false)
           [0; 5; 10] 2 10).
  - split; reflexivity.
  - repeat constructor; cbn; intuition lia.
  - cbn. lia.
  - reflexivity.
Defined.

(** ** Reading the snapshot again *)

Section SnapshotAgain.

Import Tree.

Lemma section_loop_closed items : forall res,
  section_loop items res
  = (map (fun kc => (fst kc, saved (snd kc))) items,
     fold_left (fun res kc => upd (fst kc) (snapshot (snd kc)) res) items res).
Proof.
  induction items as [|[key val] rest IH]; intros res; [reflexivity|].
  cbn [section_loop map fold_left fst snd].
  change (saved val) with (fst (getSavedValue val)).
  change (snapshot val) with (snd (getSavedValue val)).
  destruct (getSavedValue val) as [val' sv]. cbn [fst snd].
  fold (upd key sv res). rewrite IH. reflexivity.
Qed.

Lemma getSavedValue_SubList items stored :
  getSavedValue (SubList items stored)
  = (SubList (map saved items) stored,
     PDict (fold_left (fun res ic => add (str_of_nat (fst ic)) (snapshot (snd ic)) res)
                      (enumerate_from O items) [])).
Proof.
  cbn [getSavedValue].
  match goal with
  | |- context [fst (?f O items [])] => set (loop := f)
  end.
  assert (H : forall l i res,
            loop i l res
            = (map saved l,
               fold_left (fun res ic => add (str_of_nat (fst ic)) (snapshot (snd ic)) res)
                         (enumerate_from i l) res)).
  { induction l as [|val rest IH]; intros i res; [reflexivity|].
    cbn [map enumerate_from fold_left fst snd].
    change (saved val) with (fst (getSavedValue val)).
    change (snapshot val) with (snd (getSavedValue val)).
    unfold loop at 1. fold loop.
    destruct (getSavedValue val) as [val' sv]. cbn [fst snd].
    fold (add (str_of_nat i) sv res). rewrite IH. reflexivity. }
  rewrite H. reflexivity.
Qed.

Lemma getSavedValue_SubDict items stored :
  getSavedValue (SubDict items stored)
  = (SubDict (map (fun kc => (fst kc, saved (snd kc))) items) stored,
     PDict (fold_left (fun res kc => add (str (fst kc)) (snapshot (snd kc)) res)
                      items [])).
Proof.
  cbn [getSavedValue].
  match goal with
  | |- context [fst (?f items [])] => set (loop := f)
  end.
  assert (H : forall l res,
            loop l res
            = (map (fun kc => (fst kc, saved (snd kc))) l,
               fold_left (fun res kc => add (str (fst kc)) (snapshot (snd kc)) res) l res)).
  { induction l as [|[key val] rest IH]; intros res; [reflexivity|].
    cbn [map fold_left fst snd].
    change (saved val) with (fst (getSavedValue val)).
    change (snapshot val) with (snd (getSavedValue val)).
    unfold loop at 1. fold loop.
    destruct (getSavedValue val) as [val' sv]. cbn [fst snd].
    fold (add (str key) sv res). rewrite IH. reflexivity. }
  rewrite H. reflexivity.
Qed.

Lemma dict_set_same {V} k (v : V) d : dict_get k d = Some v -> dict_set k v d = d.
Proof.
  induction d as [|[k' v'] d IH]; cbn; [discriminate|].
  destruct (String.eqb k k') eqn:E.
  - intros H. injection H as ->. reflexivity.
  - intros H. now rewrite IH.
Qed.

(** A second pass of the loop of [ConfigSubsection.getSavedValue] finds
    every name as the first pass left it. *)
Lemma fold_upd_fixed items : forall cur,
  (forall key val, In (key, val) items ->
     dict_get key cur = if is_None (snapshot val) then None else Some (snapshot val)) ->
  fold_left (fun res kc => upd (fst kc) (snapshot (snd kc)) res) items cur = cur.
Proof.
  induction items as [|[key val] rest IH]; intros cur H; [reflexivity|].
  cbn [fold_left fst snd].
  assert (E : upd key (snapshot val) cur = cur).
  { pose proof (H key val (or_introl eq_refl)) as Hk. unfold upd.
    destruct (is_None (snapshot val)); cbn [negb].
    - unfold dict_has. now rewrite Hk.
    - now apply dict_set_same. }
  rewrite E. apply IH. intros k v Hin. apply H. now right.
Qed.

Lemma dict_get_In_NoDup {V} k (v : V) d :
  NoDup (map fst d) -> In (k, v) d -> dict_get k d = Some v.
Proof.
  induction d as [|[k' v'] d IH]; intros Hnd Hin; [destruct Hin|].
  inversion Hnd as [|? ? Hnot Hnd']; subst. cbn [dict_get].
  destruct Hin as [E|Hin].
  - injection E as -> ->. now rewrite String.eqb_refl.
  - destruct (String.eqb_spec k k') as [->|_]; [|now apply IH].
    exfalso. apply Hnot. cbn [map fst]. apply in_map_iff. now exists (k', v).
Qed.

Lemma well_keyed_Subsection items stored :
  well_keyed (Subsection items stored)
  <-> NoDup (map fst items) /\ Forall (fun kc => well_keyed (snd kc)) items.
Proof.
  cbn [well_keyed]. split; intros [Hnd H]; (split; [assumption|]); clear Hnd.
  - induction items as [|kc r IH]; constructor; [apply H | apply IH, H].
  - induction H; [exact I | split; assumption].
Qed.

Lemma well_keyed_SubList items stored :
  well_keyed (SubList items stored) <-> Forall well_keyed items.
Proof.
  cbn [well_keyed]. split; intros H.
  - induction items as [|c r IH]; constructor; [apply H | apply IH, H].
  - induction H; [exact I | split; assumption].
Qed.

Lemma well_keyed_SubDict items stored :
  well_keyed (SubDict items stored) <-> Forall (fun kc => well_keyed (snd kc)) items.
Proof.
  cbn [well_keyed]. split; intros H.
  - induction items as [|c r IH]; constructor; [apply H | apply IH, H].
  - induction H; [exact I | split; assumption].
Qed.

Lemma fold_left_ext_in {A B} (f g : A -> B -> A) l : forall a,
  (forall a b, In b l -> f a b = g a b) -> fold_left f l a = fold_left g l a.
Proof.
  induction l as [|b l IH]; intros a H; [reflexivity|]. cbn.
  rewrite (H a b (or_introl eq_refl)). apply IH. intros. apply H. now right.
Qed.

Lemma enumerate_from_map {A B} (f : A -> B) l : forall i,
  enumerate_from i (map f l) = map (fun ic => (fst ic, f (snd ic))) (enumerate_from i l).
Proof. induction l as [|a l IH]; intros i; cbn; [reflexivity | now rewrite IH]. Qed.

Lemma enumerate_from_In {A} (l : list A) : forall i ic,
  In ic (enumerate_from i l) -> In (snd ic) l.
Proof.
  induction l as [|a l IH]; intros i ic H; [destruct H|].
  destruct H as [<-|H]; [now left | right; eauto].
Qed.

Lemma fold_left_map {A B C} (f : A -> C -> A) (g : B -> C) l : forall a,
  fold_left f (map g l) a = fold_left (fun a b => f a (g b)) l a.
Proof. induction l as [|b l IH]; intros a; cbn; [reflexivity | apply IH]. Qed.

(** Reading [saved_value] a second time gives the same value and leaves
    the tree as the first reading left it. *)
Lemma getSavedValue_again d : forall n,
  (depth n <= d)%nat -> well_keyed n ->
  getSavedValue (saved n) = (saved n, snapshot n).
Proof.
  induction d as [|d IH]; intros n Hd Hwk.
  { destruct n; cbn in Hd; lia. }
  assert (Hsn : forall c, (depth c <= d)%nat -> well_keyed c ->
                saved (saved c) = saved c /\ snapshot (saved c) = snapshot c).
  { intros c Hc Hw. unfold saved at 1, snapshot at 1. now rewrite (IH c Hc Hw). }
  destruct n as [e|items stored|items stored|items stored].
  - reflexivity.
  - rewrite depth_Subsection in Hd. apply le_S_n, children_depth_bound in Hd.
    rewrite Forall_map in Hd. apply well_keyed_Subsection in Hwk. destruct Hwk as [Hnd Hwk].
    rewrite Forall_forall in Hd, Hwk.
    unfold saved at 1 2, snapshot. rewrite getSavedValue_Subsection, section_loop_closed.
    cbn [fst snd]. rewrite getSavedValue_Subsection, section_loop_closed. cbn [fst snd].
    set (res' := fold_left _ items stored).
    assert (Hitems : map (fun kc => (fst kc, saved (snd kc)))
                         (map (fun kc => (fst kc, saved (snd kc))) items)
                     = map (fun kc => (fst kc, saved (snd kc))) items).
    { rewrite map_map. apply map_ext_in. intros kc Hin. cbn [fst snd].
      now rewrite (proj1 (Hsn (snd kc) (Hd kc Hin) (Hwk kc Hin))). }
    assert (Hres : fold_left (fun res kc => upd (fst kc) (snapshot (snd kc)) res)
                     (map (fun kc => (fst kc, saved (snd kc))) items) res' = res').
    { apply fold_upd_fixed. intros key val Hin.
      apply in_map_iff in Hin. destruct Hin as ([k c] & E & Hin). cbn [fst snd] in E.
      injection E as <- <-.
      rewrite (proj2 (Hsn c (Hd _ Hin) (Hwk _ Hin))).
      pose proof (section_loop_get items stored k Hnd) as Hg.
      rewrite section_loop_closed in Hg. cbn [snd] in Hg. fold res' in Hg.
      rewrite Hg, (dict_get_In_NoDup k c items Hnd Hin). reflexivity. }
    rewrite Hitems, Hres. reflexivity.
  - rewrite depth_SubList in Hd. apply le_S_n, children_depth_bound in Hd.
    rewrite Forall_map in Hd. apply well_keyed_SubList in Hwk.
    rewrite Forall_forall in Hd, Hwk.
    unfold saved at 1 2, snapshot. rewrite getSavedValue_SubList.
    cbn [fst snd]. rewrite getSavedValue_SubList.
    assert (Hitems : map saved (map saved items) = map saved items).
    { rewrite map_map. apply map_ext_in. intros c Hin.
      now rewrite (proj1 (Hsn c (Hd c Hin) (Hwk c Hin))). }
    rewrite Hitems. f_equal. f_equal.
    rewrite enumerate_from_map, fold_left_map. apply fold_left_ext_in.
    intros a ic Hin. cbn [fst snd]. apply enumerate_from_In in Hin.
    now rewrite (proj2 (Hsn (snd ic) (Hd _ Hin) (Hwk _ Hin))).
  - rewrite depth_SubDict in Hd. apply le_S_n, children_depth_bound in Hd.
    rewrite Forall_map in Hd. apply well_keyed_SubDict in Hwk.
    rewrite Forall_forall in Hd, Hwk.
    unfold saved at 1 2, snapshot. rewrite getSavedValue_SubDict.
    cbn [fst snd]. rewrite getSavedValue_SubDict.
    assert (Hitems : map (fun kc => (fst kc, saved (snd kc)))
                         (map (fun kc => (fst kc, saved (snd kc))) items)
                     = map (fun kc => (fst kc, saved (snd kc))) items).
    { rewrite map_map. apply map_ext_in. intros kc Hin. cbn [fst snd].
      now rewrite (proj1 (Hsn (snd kc) (Hd kc Hin) (Hwk kc Hin))). }
    rewrite Hitems. f_equal. f_equal.
    rewrite fold_left_map. apply fold_left_ext_in.
    intros a kc Hin. cbn [fst snd].
    now rewrite (proj2 (Hsn (snd kc) (Hd _ Hin) (Hwk _ Hin))).
Qed.

End SnapshotAgain.

(** X10. [pickle()] can be repeated: on a tree whose subsections have
    distinct names for their children, a second [pickle()] returns the text
    of the first one and leaves the tree as the first one left it, although
    reading [saved_value] updates the stored values of the subsections in
    place. *)
Theorem pickle_again (config : Tree.node) :
  well_keyed config ->
  Codec.pickle (fst (Codec.pickle config))
  = (fst (Codec.pickle config), snd (Codec.pickle config)).
Proof.
  intros Hwk. unfold Codec.pickle.
  pose proof (getSavedValue_again (Tree.depth config) config (le_n _) Hwk) as H.
  unfold saved, snapshot in H.
  destruct (Tree.getSavedValue config) as [c1 v1]. cbn [fst snd] in H.
  destruct v1; cbn [fst snd]; rewrite H; reflexivity.
Qed.

Lemma pickle_again_witness :
  let config :=
    Tree.Subsection
      [("misc", Tree.Subsection
                  [("on", Tree.Elem (Element.set_saved_value (PStr "True")
                                       (Element.ConfigBoolean_init (PBool false))));
                   ("off", Tree.Elem (Element.ConfigBoolean_init (PBool false)))]
                  [("off", PStr "True"); ("foo", PStr "bar")])]
      [] in
  Codec.pickle (fst (Codec.pickle config))
  = (fst (Codec.pickle config), snd (Codec.pickle config)).
Proof.
  apply (pickle_again
    (Tree.Subsection
      [("misc", Tree.Subsection
                  [("on", Tree.Elem (Element.set_saved_value (PStr "True")
                                       (Element.ConfigBoolean_init (PBool false))));
                   ("off", Tree.Elem (Element.ConfigBoolean_init (PBool false)))]
                  [("off", PStr "True"); ("foo", PStr "bar")])]
      [])).
  cbn. repeat split; repeat constructor; cbn; intuition discriminate.
Defined.

(** ** ConfigElement: [save], [cancel] and [isChanged] *)

Section PersistFacts.

Import Choices Element.

Variable PY2 : bool.

Lemma join_nonempty sep p ps : p <> ""%string -> join sep (p :: ps) <> ""%string.
Proof.
  intros Hp. unfold join. cbn [String.concat].
  destruct ps; [assumption|]. destruct p; [congruence | discriminate].
Qed.

Lemma persists_tostring e v :
  persists e v -> exists t, tostring e v = Ret t [] /\ t <> ""%string.
Proof.
  unfold persists, tostring. destruct (cls e) as [|sep limits|[choices|d]].
  - intros [b ->]. destruct b; eexists; (split; [reflexivity | discriminate]).
  - intros (l & -> & (Hne & Hlen & _) & _). eexists. split; [reflexivity|].
    destruct l as [|z l]; [destruct limits; [congruence | discriminate]|].
    apply join_nonempty, str_of_Z_nonempty.
  - intros (Hs & Hin & _). eexists. split; [reflexivity|].
    rewrite (string_ids_str choices v Hs Hin). cbn [str].
    unfold ids in Hin. apply in_map_iff in Hin. destruct Hin as (c & Hc & Hin).
    unfold string_ids in Hs. rewrite Forall_forall in Hs.
    destruct (Hs c Hin) as (t & Ht & Hne). rewrite <- Hc, Ht. exact Hne.
  - intros [].
Qed.

Lemma persists_In_str choices v :
  In v (ids choices) -> str_in (str v) (map str (ids choices)) = true.
Proof. apply str_in_map. Qed.

(** [load] reads back what [save] wrote. *)
Lemma persists_load e v t e' :
  persists e v -> tostring e v = Ret t [] ->
  cls e' = cls e -> default e' = default e -> saved_value e' = PStr t ->
  load PY2 e' = Ret (set__value v e') [Changed].
Proof.
  unfold persists, tostring, load. intros Hp Ht Hc Hd Hs. rewrite Hc.
  destruct (cls e) as [|sep limits|[choices|d]] eqn:Ecls.
  - destruct Hp as [b ->]. unfold ConfigElement_load, fromstring, setValue.
    rewrite Hs, Hc. cbn [is_None bind ret app].
    injection Ht as <-. destruct b; reflexivity.
  - destruct Hp as (l & -> & Hwf & Hsep). unfold ConfigElement_load, fromstring, setValue.
    rewrite Hs, Hc. cbn [is_None]. injection Ht as <-.
    rewrite (well_formed_round_trip sep limits l Hsep Hwf). reflexivity.
  - destruct Hp as (Hstr & Hin & _). unfold ConfigSelection_load.
    rewrite Hc, Hs. cbn [is_None]. injection Ht as <-.
    assert (Hne : ids choices <> []) by (intros E; rewrite E in Hin; destruct Hin).
    destruct (string_index PY2 choices (str v) Hstr Hne (persists_In_str _ _ Hin))
      as (i & -> & Hg).
    cbn [bind app]. rewrite Hg. cbn [bind app].
    unfold setValue. rewrite Hc.
    rewrite (string_setValue PY2 e' choices (str v) Hc Hstr).
    rewrite (or_empty_ids _ Hne), (persists_In_str _ _ Hin).
    rewrite <- (string_ids_str choices v Hstr Hin). reflexivity.
  - destruct Hp.
Qed.

(** Without a saved value [load] sets the default. *)
Lemma persists_load_default e v e' :
  persists e v ->
  cls e' = cls e -> default e' = default e -> saved_value e' = PNone ->
  load PY2 e' = Ret (set__value (default e') e') [Changed].
Proof.
  unfold persists, load. intros Hp Hc Hd Hs. rewrite Hc.
  destruct (cls e) as [|sep limits|[choices|d]] eqn:Ecls.
  - unfold ConfigElement_load, setValue. rewrite Hs, Hc. reflexivity.
  - unfold ConfigElement_load, setValue. rewrite Hs, Hc. reflexivity.
  - destruct Hp as (Hstr & _ & d & Hdef). unfold ConfigSelection_load.
    rewrite Hc, Hs. cbn [is_None]. unfold setValue. rewrite Hc, Hd, Hdef.
    rewrite (string_setValue PY2 e' choices d Hc Hstr).
    rewrite Hd, Hdef. now destruct (str_in d _).
  - destruct Hp.
Qed.

Lemma save_eq e t :
  tostring e (_value e) = Ret t [] ->
  exists ev,
    save e
    = Ret (set_saved_value
             (if save_disabled e || (Py.eqb (_value e) (default e) && negb (save_forced e))
              then PNone else PStr t) e) ev.
Proof.
  intros Ht. unfold save, getValue.
  destruct (save_disabled e || (Py.eqb (_value e) (default e) && negb (save_forced e)));
    [|rewrite Ht]; cbn [bind ret app callNotifiersOnSaveAndCancel set_saved_value];
    destruct (callNotifiersOnSaveAndCancel e); eexists; reflexivity.
Qed.

Lemma cancel_eq e v :
  load PY2 e = Ret (set__value v e) [Changed] ->
  exists ev, Persist.cancel PY2 e = Ret (set__value v e) ev.
Proof.
  intros H. unfold Persist.cancel. rewrite H. cbn [bind].
  cbn [callNotifiersOnSaveAndCancel set__value].
  destruct (callNotifiersOnSaveAndCancel e); eexists; reflexivity.
Qed.

Lemma list_Z_eqb_eq a : forall b, list_Z_eqb a b = true -> a = b.
Proof.
  induction a as [|x a IH]; intros [|y b] H; cbn in H; try discriminate; [reflexivity|].
  apply andb_true_iff in H. destruct H as [H1 H2]. apply Z.eqb_eq in H1.
  f_equal; auto.
Qed.

(** A default that is equal to the value is written as the same text. *)
Lemma persists_eq_tostring e v t :
  persists e v -> tostring e v = Ret t [] -> Py.eqb v (default e) = true ->
  tostring e (default e) = Ret t [].
Proof.
  unfold persists, tostring. destruct (cls e) as [|sep limits|[choices|d]].
  - intros [b ->] Ht He. rewrite <- Ht.
    destruct (default e) as [|b'|z| | |]; cbn in He; try discriminate.
    + destruct b, b'; try discriminate; reflexivity.
    + destruct b; apply Z.eqb_eq in He; subst z; reflexivity.
  - intros (l & -> & _) Ht He. rewrite <- Ht.
    destruct (default e) as [| | | |l'|]; cbn in He; try discriminate.
    now rewrite (list_Z_eqb_eq l l' He).
  - intros (Hs & Hin & _) Ht He. rewrite <- Ht.
    rewrite (string_ids_str choices v Hs Hin) in He |- *.
    destruct (default e); cbn in He; try discriminate.
    apply String.eqb_eq in He. now subst.
  - intros [].
Qed.

End PersistFacts.

(** X11. [save()] and [cancel()] of a ConfigBoolean, a ConfigSequence or a
    ConfigSelection over strings, on Python 2 and on Python 3: whatever the
    value is set to after [save()], [cancel()] brings back the value that
    was saved, or the default if nothing was written because the value
    equalled the default or saving is disabled; [saved_value] stays as
    [save()] left it. *)
Theorem element_cancel_restores (PY2 : bool) (e : Element.ConfigElement) (w : pyval) :
  persists e (Element._value e) ->
  exists e1 ev1 e2 ev2,
    Element.save e = Ret e1 ev1
    /\ Persist.cancel PY2 (Element.set__value w e1) = Ret e2 ev2
    /\ Element._value e2
       = (if Element.save_disabled e
             || (Py.eqb (Element._value e) (Element.default e)
                 && negb (Element.save_forced e))
          then Element.default e else Element._value e)
    /\ Element.saved_value e2 = Element.saved_value e1.
Proof.
  intros Hp. destruct (persists_tostring e _ Hp) as (t & Ht & _).
  destruct (save_eq e t Ht) as [ev1 E1].
  set (c := Element.save_disabled e || _) in *.
  set (e1 := Element.set_saved_value _ e) in E1.
  assert (Hload : Element.load PY2 (Element.set__value w e1)
                  = Ret (Element.set__value
                           (if c then Element.default e else Element._value e)
                           (Element.set__value w e1)) [Changed]).
  { unfold e1. destruct c.
    - exact (persists_load_default PY2 e _
               (Element.set__value w (Element.set_saved_value PNone e))
               Hp eq_refl eq_refl eq_refl).
    - exact (persists_load PY2 e _ t
               (Element.set__value w (Element.set_saved_value (PStr t) e))
               Hp Ht eq_refl eq_refl eq_refl). }
  destruct (cancel_eq PY2 _ _ Hload) as [ev2 E2].
  eexists e1, ev1, _, ev2. split; [exact E1|]. split; [exact E2|].
  split; reflexivity.
Qed.

Lemma element_cancel_restores_witness :
  let e := Element.set__value (PSeq [192; 168; 0; 1])
             (Element.new (Element.ConfigSequence "." IP.ip_limits) (PSeq [0; 0; 0; 0])) in
  exists e1 ev1 e2 ev2,
    Element.save e = Ret e1 ev1
    /\ Persist.cancel false (Element.set__value (PSeq [10; 0; 0; 0]) e1) = Ret e2 ev2
    /\ Element._value e2
       = (if Element.save_disabled e
             || (Py.eqb (Element._value e) (Element.default e)
                 && negb (Element.save_forced e))
          then Element.default e else Element._value e)
    /\ Element.saved_value e2 = Element.saved_value e1.
Proof.
  apply (element_cancel_restores false
           (Element.set__value (PSeq [192; 168; 0; 1])
              (Element.new (Element.ConfigSequence "." IP.ip_limits) (PSeq [0; 0; 0; 0])))
           (PSeq [10; 0; 0; 0])).
  exists [192; 168; 0; 1]. split; [reflexivity|]. split.
  - split; [discriminate|]. split; [reflexivity|]. repeat constructor; cbn; lia.
  - exists "."%char, ""%string. repeat split; [discriminate].
Defined.

(** X12. Right after [save()] an element of these kinds that is saved
    ([save_disabled] is false) is not changed: [isChanged()] returns
    False, whether the value was written or left out as the default. *)
Theorem element_saved_is_unchanged (e e1 : Element.ConfigElement) (ev1 : list event) :
  persists e (Element._value e) ->
  Element.save_disabled e = false ->
  Element.save e = Ret e1 ev1 ->
  Persist.isChanged e1 = Ret false [].
Proof.
  intros Hp Hsd Hsave. destruct (persists_tostring e _ Hp) as (t & Ht & Hne).
  destruct (save_eq e t Ht) as [ev E1]. rewrite E1 in Hsave. injection Hsave as <- _.
  rewrite Hsd in *. cbn [orb].
  unfold Persist.isChanged, Element.getValue.
  destruct (Py.eqb (Element._value e) (Element.default e) && negb (Element.save_forced e))
    eqn:Hc; cbn [Element.saved_value Element.set_saved_value truthy].
  - apply andb_true_iff in Hc. destruct Hc as [Hc _].
    change (Element.tostring (Element.set_saved_value PNone e))
      with (Element.tostring e).
    cbn [Element.default Element._value Element.set_saved_value].
    rewrite (persists_eq_tostring e _ t Hp Ht Hc), Ht. cbn [bind ret app Py.eqb].
    now rewrite String.eqb_refl.
  - destruct (String.eqb_spec t "") as [E|_]; [contradiction|]. cbn [negb].
    change (Element.tostring (Element.set_saved_value (PStr t) e))
      with (Element.tostring e).
    cbn [Element.default Element._value Element.set_saved_value].
    rewrite Ht. cbn [bind ret app Py.eqb]. now rewrite String.eqb_refl.
Qed.

Lemma element_saved_is_unchanged_witness :
  Persist.isChanged
    (Element.set_saved_value (PStr "True")
       (Element.set__value (PBool true) (Element.ConfigBoolean_init (PBool false))))
  = Ret false [].
Proof.
  apply (element_saved_is_unchanged
           (Element.set__value (PBool true) (Element.ConfigBoolean_init (PBool false)))
           _ []).
  - exists true. reflexivity.
  - reflexivity.
  - reflexivity.
Defined.

(** ** Decimal numerals *)

Section Numerals.

Import DecimalFacts.

Lemma string_of_uint_render u : NilEmpty.string_of_uint u = render (to_list u).
Proof.
  induction u; cbn [NilEmpty.string_of_uint render to_list digit_char];
    rewrite ?IHu; reflexivity.
Qed.

Lemma render_app l l' : render (l ++ l') = (render l ++ render l')%string.
Proof. induction l as [|d l IH]; cbn; [reflexivity | now rewrite IH]. Qed.

Lemma of_lu_cons d l :
  DecimalPos.Unsigned.of_lu (of_list (d :: l))
  = (digit_N d + 10 * DecimalPos.Unsigned.of_lu (of_list l))%N.
Proof. destruct d; reflexivity. Qed.

Lemma rev_of_list u : of_list (List.rev (to_list u)) = Decimal.rev u.
Proof. apply to_list_inj. now rewrite to_list_of_list, rev_spec. Qed.

(** The numeral of a positive number is in normal form. *)
Lemma unorm_to_uint p : unorm (Pos.to_uint p) = Pos.to_uint p.
Proof.
  rewrite <- DecimalPos.Unsigned.to_of, DecimalPos.Unsigned.of_to. reflexivity.
Qed.

Lemma to_uint_head p :
  exists h t, to_list (Pos.to_uint p) = h :: t /\ h <> d0.
Proof.
  pose proof (unorm_to_uint p) as Hn.
  apply (f_equal to_list) in Hn. rewrite unorm_spec in Hn. unfold lunorm in Hn.
  destruct (to_list (Pos.to_uint p)) as [|h t] eqn:El.
  - exfalso. apply (DecimalPos.Unsigned.to_uint_nonnil p).
    apply to_list_inj. now rewrite El.
  - exists h, t. split; [reflexivity|]. intros ->. cbn [lnzhead] in Hn.
    destruct (lnzhead t) as [|x r] eqn:Et.
    + injection Hn as <-. apply (DecimalPos.Unsigned.to_uint_nonzero p).
      apply to_list_inj. now rewrite El.
    + pose proof (length_lnzhead t) as Hlen. rewrite Et, Hn in Hlen. cbn in Hlen. lia.
Qed.

(** Appending a digit to the numeral of a positive number. *)
Lemma to_uint_snoc p d :
  N.to_uint (digit_N d + 10 * N.pos p)
  = of_list (to_list (Pos.to_uint p) ++ [d]).
Proof.
  set (X := of_list (to_list (Pos.to_uint p) ++ [d])).
  assert (Hof : Pos.of_uint X = (digit_N d + 10 * N.pos p)%N).
  { rewrite DecimalPos.Unsigned.of_uint_alt.
    replace (Decimal.rev X) with (of_list (d :: List.rev (to_list (Pos.to_uint p)))).
    - rewrite of_lu_cons, rev_of_list, <- DecimalPos.Unsigned.of_uint_alt,
        DecimalPos.Unsigned.of_to. reflexivity.
    - apply to_list_inj. unfold X.
      rewrite rev_spec, !to_list_of_list, rev_app_distr. reflexivity. }
  rewrite <- Hof, DecimalPos.Unsigned.to_of.
  apply to_list_inj. rewrite unorm_spec. unfold X. rewrite to_list_of_list.
  destruct (to_uint_head p) as (h & t & -> & Hh). unfold lunorm.
  change ((h :: t) ++ [d]) with (h :: (t ++ [d])). cbn [lnzhead].
  destruct h; first [congruence | reflexivity].
Qed.

Lemma digit_cases d :
  0 <= d <= 9 ->
  d = 0 \/ d = 1 \/ d = 2 \/ d = 3 \/ d = 4 \/ d = 5 \/ d = 6 \/ d = 7 \/ d = 8 \/ d = 9.
Proof. lia. Qed.

Lemma digit_char_code d :
  0 <= d <= 9 -> ascii_of_nat (Z.to_nat (d + 48)) = digit_char (digit_of_Z d).
Proof.
  intros H. destruct (digit_cases d H) as [->|[->|[->|[->|[->|[->|[->|[->|[->| ->]]]]]]]]];
    reflexivity.
Qed.

Lemma digit_N_of_Z d : 0 <= d <= 9 -> Z.of_N (digit_N (digit_of_Z d)) = d.
Proof.
  intros H. destruct (digit_cases d H) as [->|[->|[->|[->|[->|[->|[->|[->|[->| ->]]]]]]]]];
    reflexivity.
Qed.

Lemma str_of_Z_pos p : str_of_Z (Z.pos p) = render (to_list (Pos.to_uint p)).
Proof.
  unfold str_of_Z. cbn [Z.to_int NilZero.string_of_int]. unfold NilZero.string_of_uint.
  destruct (Pos.to_uint p) eqn:E;
    try (rewrite <- string_of_uint_render; reflexivity).
  now apply DecimalPos.Unsigned.to_uint_nonnil in E.
Qed.

(** [str(10 * v + d)] is [str(v)] followed by the digit [d], for a positive
    [v]. *)
Lemma str_of_Z_snoc v d :
  0 < v -> 0 <= d <= 9 ->
  str_of_Z (10 * v + d)
  = (str_of_Z v ++ String (ascii_of_nat (Z.to_nat (d + 48))) EmptyString)%string.
Proof.
  intros Hv Hd. destruct v as [|p|p]; try lia.
  rewrite (digit_char_code d Hd).
  assert (E : 10 * Z.pos p + d = Z.of_N (digit_N (digit_of_Z d) + 10 * N.pos p)).
  { rewrite N2Z.inj_add, N2Z.inj_mul, (digit_N_of_Z d Hd).
    change (Z.of_N 10) with 10. change (Z.of_N (N.pos p)) with (Z.pos p). lia. }
  pose proof (to_uint_snoc p (digit_of_Z d)) as Hs.
  destruct (digit_N (digit_of_Z d) + 10 * N.pos p)%N as [|q] eqn:Eq; [lia|].
  rewrite E. cbn [Z.of_N N.to_uint] in *.
  rewrite !str_of_Z_pos, Hs, to_list_of_list, render_app. reflexivity.
Qed.

Lemma str_of_Z_digit d :
  0 <= d <= 9 -> str_of_Z d = String (ascii_of_nat (Z.to_nat (d + 48))) EmptyString.
Proof.
  intros H. destruct (digit_cases d H) as [->|[->|[->|[->|[->|[->|[->|[->|[->| ->]]]]]]]]];
    reflexivity.
Qed.

(** The text of a positive number does not begin with a zero. *)
Lemma str_of_Z_head v :
  0 < v -> exists c r, str_of_Z v = String c r /\ c <> "0"%char.
Proof.
  intros Hv. destruct v as [|p|p]; try lia. rewrite str_of_Z_pos.
  destruct (to_uint_head p) as (h & t & -> & Hh). cbn [render].
  eexists _, _. split; [reflexivity|]. destruct h; cbn; congruence.
Qed.

(** The text of [10 ** n - 1] has [n] characters. *)
Lemma str_len_nines n : (1 <= n)%nat -> str_len (10 ^ Z.of_nat n - 1) = Z.of_nat n.
Proof.
  induction n as [|n IH]; [lia|]. intros _. destruct n as [|n]; [reflexivity|].
  assert (Hpos : 0 < 10 ^ Z.of_nat (S n) - 1).
  { assert (10 ^ 1 <= 10 ^ Z.of_nat (S n)) by (apply Z.pow_le_mono_r; lia). lia. }
  replace (10 ^ Z.of_nat (S (S n)) - 1) with (10 * (10 ^ Z.of_nat (S n) - 1) + 9).
  - unfold str_len in *. rewrite (str_of_Z_snoc _ 9 Hpos) by lia.
    rewrite string_length_app. cbn [String.length].
    rewrite Nat2Z.inj_add, IH by lia. lia.
  - rewrite (Nat2Z.inj_succ (S n)), Z.pow_succ_r by lia. lia.
Qed.

End Numerals.

(** ** ConfigText and ConfigNumber *)

Section TextFacts.

Import Text.



Lemma len_app a b : len (a ++ b) = len a + len b.
Proof. unfold len. rewrite string_length_app. lia. Qed.

Lemma len_nonneg s : 0 <= len s.
Proof. unfold len. lia. Qed.


Lemma slice_bound_in n i : 0 <= i <= n -> slice_bound n i = i.
Proof. intros H. unfold slice_bound. destruct (Z.ltb_spec i 0); lia. Qed.


Lemma str_drop_app a b : str_drop (String.length a) (a ++ b) = b.
Proof. induction a as [|c a IH]; cbn; [reflexivity | exact IH]. Qed.

Lemma str_take_app a b : str_take (String.length a) (a ++ b) = a.
Proof. induction a as [|c a IH]; cbn; [now destruct b | now rewrite IH]. Qed.

Lemma str_take_all s : str_take (String.length s) s = s.
Proof. induction s as [|c s IH]; cbn; [reflexivity | now rewrite IH]. Qed.

Lemma str_drop_all s : str_drop (String.length s) s = ""%string.
Proof. induction s as [|c s IH]; cbn; [reflexivity | exact IH]. Qed.

Lemma append_nil_r (s : string) : (s ++ "")%string = s.
Proof. induction s as [|c s IH]; cbn; [reflexivity | now rewrite IH]. Qed.


Lemma slice_whole s : slice s 0 (Some (len s)) = s.
Proof.
  unfold slice. pose proof (len_nonneg s) as H.
  rewrite !slice_bound_in by lia. rewrite Z.sub_0_r. unfold len.
  rewrite Nat2Z.id. change (Z.to_nat 0) with O. cbn [str_drop]. apply str_take_all.
Qed.

Lemma slice_none s : slice s (len s) None = ""%string.
Proof.
  unfold slice. pose proof (len_nonneg s) as H.
  rewrite !slice_bound_in by lia. rewrite Z.sub_diag. reflexivity.
Qed.


End TextFacts.



(** X14. [ConfigText.validateMarker].  When it returns, the text is as it
    was, the cursor is on the text (not behind its last character if the
    size is fixed) and, with a visible width, inside the window, which
    starts at column 0 or ends within the text.  Without a visible width it
    always returns.  With one it raises [TypeError] whenever the window,
    with the cursor in it, starts after column 0 and reaches beyond the end
    of the text: the correction of the offset subtracts from the builtin
    [len]. *)
Theorem text_validateMarker (s : Text.ConfigText) :
  0 <= Text.visible_width s ->
  (forall s' evs,
     Text.validateMarker s = Ret s' evs ->
     Text.text s' = Text.text s
     /\ 0 <= Text.marked_pos s'
        <= Z.max 0 (Text.len (Text.text s) - (if Text.fixed_size s then 1 else 0))
     /\ (0 < Text.visible_width s ->
         Text.offset s' <= Text.marked_pos s' <= Text.offset s' + Text.visible_width s
         /\ (Text.offset s' <= 0
             \/ Text.offset s' + Text.visible_width s <= Text.len (Text.text s))))
  /\ (Text.visible_width s = 0 -> exists s', Text.validateMarker s = Ret s' [])
  /\ (0 < Text.offset s ->
      Text.offset s <= Text.marked_pos s < Text.offset s + Text.visible_width s ->
      Text.marked_pos s
      <= Text.len (Text.text s) - (if Text.fixed_size s then 1 else 0) ->
      Text.len (Text.text s) < Text.offset s + Text.visible_width s ->
      Text.validateMarker s = Exc TypeError).
Proof.
  intros Hvw. destruct s as [t mp am fs vw off ow df]. cbn [Text.visible_width] in Hvw.
  unfold Text.validateMarker.
  cbn [Text.text Text.marked_pos Text.fixed_size Text.visible_width Text.offset
       Text.set_marked_pos Text.set_offset].
  pose proof (len_nonneg t) as Hn. set (n := Text.len t) in *.
  split; [|split].
  - intros s' evs.
    destruct fs;
      [destruct (Z.gtb_spec mp (n - 1)) | destruct (Z.gtb_spec mp n)];
      cbn [Text.text Text.marked_pos Text.fixed_size Text.visible_width Text.offset
           Text.set_marked_pos Text.set_offset];
      match goal with |- context [?x <? 0] => destruct (Z.ltb_spec x 0) end;
      cbn [Text.text Text.marked_pos Text.fixed_size Text.visible_width Text.offset
           Text.set_marked_pos Text.set_offset];
      (destruct (Z.eqb_spec vw 0); cbn [negb];
       [intros E; injection E as <- _; cbn; repeat split; lia|]);
      match goal with |- context [?x <? off] => destruct (Z.ltb_spec x off) end;
      cbn [Text.text Text.marked_pos Text.fixed_size Text.visible_width Text.offset
           Text.set_marked_pos Text.set_offset];
      match goal with |- context [?x >=? ?y] => destruct (Z.geb_spec x y) end;
      cbn [Text.text Text.marked_pos Text.fixed_size Text.visible_width Text.offset
           Text.set_marked_pos Text.set_offset];
      try match goal with |- context [?x =? n] => destruct (Z.eqb_spec x n) end;
      cbn [Text.text Text.marked_pos Text.fixed_size Text.visible_width Text.offset
           Text.set_marked_pos Text.set_offset];
      match goal with |- context [?x >? 0] => destruct (Z.gtb_spec x 0) end; cbn [andb];
      try match goal with |- context [?x >? n] => destruct (Z.gtb_spec x n) end;
      intros E; try discriminate E; injection E as <- _; cbn; repeat split; lia.
  - intros ->. cbn [Z.eqb negb].
    destruct fs;
      [destruct (mp >? n - 1) | destruct (mp >? n)];
      cbn [Text.marked_pos Text.set_marked_pos];
      match goal with |- context [?x <? 0] => destruct (x <? 0) end;
      eexists; reflexivity.
  - intros Hoff Hwin Hmp Hlen.
    assert (Hclamp :
      (let s0 := if fs
                 then if mp >? n - 1
                      then Text.set_marked_pos (n - 1) (Text.mkText t mp am fs vw off ow df)
                      else Text.mkText t mp am fs vw off ow df
                 else if mp >? n
                      then Text.set_marked_pos n (Text.mkText t mp am fs vw off ow df)
                      else Text.mkText t mp am fs vw off ow df in
       if Text.marked_pos s0 <? 0 then Text.set_marked_pos 0 s0 else s0)
      = Text.mkText t mp am fs vw off ow df).
    { cbn zeta. destruct fs.
      - destruct (Z.gtb_spec mp (n - 1)); [lia|].
        cbn [Text.marked_pos]. destruct (Z.ltb_spec mp 0); [lia | reflexivity].
      - destruct (Z.gtb_spec mp n); [lia|].
        cbn [Text.marked_pos]. destruct (Z.ltb_spec mp 0); [lia | reflexivity]. }
    cbn zeta in Hclamp. rewrite Hclamp.
    cbn [Text.text Text.marked_pos Text.fixed_size Text.visible_width Text.offset
         Text.set_marked_pos Text.set_offset].
    destruct (Z.eqb_spec vw 0); [lia|]. cbn [negb].
    destruct (Z.ltb_spec mp off); [lia|].
    cbn [Text.marked_pos Text.offset Text.visible_width].
    destruct (Z.geb_spec mp (off + vw)); [lia|].
    cbn [Text.marked_pos Text.offset Text.visible_width].
    destruct (Z.gtb_spec off 0); [|lia].
    destruct (Z.gtb_spec (off + vw) n); [reflexivity | lia].
Qed.

Lemma text_validateMarker_witness :
  Text.validateMarker (Text.mkText "0123456789012345678" 15 false false 10 10 false "")
  = Exc TypeError.
Proof.
  apply (proj2 (proj2 (text_validateMarker
           (Text.mkText "0123456789012345678" 15 false false 10 10 false "")
           ltac:(cbn; lia)))); cbn; lia.
Defined.

Section NumberTyping.

Import Text.

Variable ConfigText_handleKey : Z -> ConfigText -> result ConfigText.

Lemma lstrip0_head c r : c <> "0"%char -> lstrip0 (String c r) = String c r.
Proof.
  intros H. destruct c as [[] [] [] [] [] [] [] []]; try reflexivity. congruence.
Qed.

(** The text [ConfigNumber.validateMarker] makes of a number followed by a
    digit. *)
Lemma number_canon v d :
  0 <= v -> 0 <= d <= 9 ->
  let x := lstrip0 (str_of_Z v ++ String (ascii_of_nat (Z.to_nat (d + 48))) EmptyString) in
  (if String.eqb x "" then "0"%string else x) = str_of_Z (10 * v + d).
Proof.
  intros Hv Hd. destruct (Z.eq_dec v 0) as [->|Hne].
  - destruct (digit_cases d Hd) as [->|[->|[->|[->|[->|[->|[->|[->|[->| ->]]]]]]]]];
      reflexivity.
  - assert (Hpos : 0 < v) by lia. cbn zeta.
    rewrite <- (str_of_Z_snoc v d Hpos Hd).
    destruct (str_of_Z_head (10 * v + d)) as (c & r & E & Hc); [lia|].
    rewrite E, (lstrip0_head c r Hc). reflexivity.
Qed.

Lemma number_canon_first d :
  0 <= d <= 9 ->
  let x := lstrip0 (String (ascii_of_nat (Z.to_nat (d + 48))) EmptyString) in
  (if String.eqb x "" then "0"%string else x) = str_of_Z d.
Proof.
  intros Hd.
  destruct (digit_cases d Hd) as [->|[->|[->|[->|[->|[->|[->|[->|[->| ->]]]]]]]]];
    reflexivity.
Qed.

(** The key and the code of an action that enters the digit [d]. *)
Lemma number_key a d :
  digit_of a = Ret (inr d) [] ->
  in_ACTIONKEY_NUMBERS (act_key a) || (act_key a =? ACTIONKEY_ASCII) = true
  /\ (if act_key a =? ACTIONKEY_ASCII then
        if negb ((48 <=? act_code a) && (act_code a <=? 57)) then ret None
        else ret (Some (act_code a))
      else n <- getKeyNumber (act_key a) ;; ret (Some (n + 48)))
     = Ret (Some (d + 48)) [].
Proof.
  unfold digit_of. destruct (act_key a =? ACTIONKEY_ASCII).
  - rewrite orb_true_r. rewrite Z.gtb_ltb.
    destruct (Z.ltb_spec (act_code a) 48); cbn [orb]; [discriminate|].
    destruct (Z.ltb_spec 57 (act_code a)); [discriminate|].
    intros E. injection E as <-. split; [reflexivity|].
    destruct (Z.leb_spec 48 (act_code a)); [|lia].
    destruct (Z.leb_spec (act_code a) 57); [|lia]. cbn [andb negb].
    unfold ret. do 2 f_equal. lia.
  - rewrite orb_false_r. unfold getKeyNumber.
    destruct (in_ACTIONKEY_NUMBERS (act_key a)); [|discriminate].
    cbn [bind ret app]. intros E. injection E as <-. split; reflexivity.
Qed.

(** What [validateMarker] makes of a text with the cursor behind it. *)
Lemma number_validate s t x :
  text s = t -> marked_pos s = len t ->
  (if String.eqb (lstrip0 t) "" then "0"%string else lstrip0 t) = x ->
  Number.validateMarker s = set_marked_pos (len x) (set_text x s).
Proof.
  intros Ht Hm Hx. unfold Number.validateMarker. rewrite Ht, Hm, Z.sub_diag.
  cbn [text set_text].
  assert (E : (if String.eqb (lstrip0 t) ""
               then set_text "0" (set_text (lstrip0 t) s)
               else set_text (lstrip0 t) s) = set_text x s).
  { subst x. destruct (String.eqb (lstrip0 t) ""); reflexivity. }
  rewrite E. cbn [text set_text]. pose proof (len_nonneg x).
  destruct (Z.gtb_spec 0 (len x)); [lia|]. now rewrite Z.sub_0_r.
Qed.

Lemma typing_step a d v s :
  shows v s -> digit_of a = Ret (inr d) [] ->
  exists s',
    Number.handleKey ConfigText_handleKey a s = Ret s' [Changed]
    /\ shows (10 * v + d) s'.
Proof.
  intros (Ht & Hv & Hm & Ham & Hfs & How) Hd.
  pose proof (digit_of_range a d Hd) as Hr.
  destruct (number_key a d Hd) as [Hk Hdec].
  unfold Number.handleKey. rewrite Hk, Hdec. cbn [bind app]. rewrite Ham.
  unfold insertChar. rewrite How, Hfs, Hm. cbn [orb].
  rewrite slice_whole, slice_none, append_nil_r.
  cbn [Element.changed emit bind ret app].
  set (ch := String (ascii_of_nat (Z.to_nat (d + 48))) EmptyString).
  erewrite (number_validate _ (text s ++ ch)%string (str_of_Z (10 * v + d))).
  - eexists. split; [reflexivity|].
    repeat split; try assumption; try reflexivity. lia.
  - reflexivity.
  - cbn [marked_pos set_marked_pos set_text]. rewrite len_app, ?Hm. reflexivity.
  - rewrite Ht. exact (number_canon v d Hv Hr).
Qed.

Lemma typing_first a d s :
  allmarked s = true -> fixed_size s = false -> overwrite s = false ->
  digit_of a = Ret (inr d) [] ->
  exists s',
    Number.handleKey ConfigText_handleKey a s = Ret s' [Changed]
    /\ shows d s'.
Proof.
  intros Ham Hfs How Hd.
  pose proof (digit_of_range a d Hd) as Hr.
  destruct (number_key a d Hd) as [Hk Hdec].
  unfold Number.handleKey. rewrite Hk, Hdec. cbn [bind app]. rewrite Ham.
  unfold deleteAllChars. rewrite Hfs.
  unfold insertChar.
  cbn [overwrite fixed_size marked_pos text set_allmarked set_marked_pos set_text].
  rewrite How, Hfs. cbn [orb].
  change (slice "" 0 (Some 0)) with ""%string. change (slice "" 0 None) with ""%string.
  cbn [Element.changed emit bind ret app append].
  set (ch := String (ascii_of_nat (Z.to_nat (d + 48))) EmptyString).
  erewrite (number_validate _ ch (str_of_Z d)).
  - eexists. split; [reflexivity|].
    repeat split; try assumption; try reflexivity. lia.
  - reflexivity.
  - reflexivity.
  - exact (number_canon_first d Hr).
Qed.

Lemma typing_steps acts ds :
  Forall2 (fun a d => digit_of a = Ret (inr d) []) acts ds ->
  forall v s, shows v s ->
  exists s' evs,
    number_handleKeys ConfigText_handleKey acts s = Ret s' evs
    /\ shows (fold_left (fun acc d => 10 * acc + d) ds v) s'
    /\ List.length evs = List.length ds.
Proof.
  induction 1 as [|a d acts ds Hd _ IH]; intros v s Hs.
  - exists s, []. split; [reflexivity|]. split; [exact Hs | reflexivity].
  - cbn [number_handleKeys fold_left].
    destruct (typing_step a d v s Hs Hd) as (s1 & -> & Hs1).
    destruct (IH _ s1 Hs1) as (s2 & evs & E & Hs2 & Hlen).
    cbn [bind]. rewrite E. eexists _, _. split; [reflexivity|].
    split; [assumption|]. cbn. now rewrite Hlen.
Qed.

End NumberTyping.

(** X15. Typing into a [ConfigNumber].  With the whole text marked, as
    after [onSelect], in insert mode: the digits of a non-empty row of
    number keys or ASCII digit codes replace the text, the text shown is
    the number typed without leading zeros, and [getValue()] returns that
    number; [changed()] is called once for every digit and the cursor
    stays behind the text. *)
Theorem number_typing (ConfigText_handleKey : Z -> Text.ConfigText -> result Text.ConfigText)
    (s : Text.ConfigText) (acts : list action) (ds : list Z) :
  Text.allmarked s = true -> Text.fixed_size s = false -> Text.overwrite s = false ->
  acts <> [] ->
  Forall2 (fun a d => digit_of a = Ret (inr d) []) acts ds ->
  exists s' evs,
    number_handleKeys ConfigText_handleKey acts s = Ret s' evs
    /\ Text.text s' = str_of_Z (number ds)
    /\ Text.marked_pos s' = Text.len (Text.text s')
    /\ Number.getValue s' = Ret (number ds, s') []
    /\ List.length evs = List.length ds.
Proof.
  intros Ham Hfs How Hne HF. destruct HF as [|a d acts ds Hd HF]; [congruence|].
  cbn [number_handleKeys]. unfold number. cbn [fold_left].
  destruct (typing_first ConfigText_handleKey a d s Ham Hfs How Hd) as (s1 & -> & Hs1).
  destruct (typing_steps ConfigText_handleKey acts ds HF _ s1 Hs1)
    as (s2 & evs & E & Hs2 & Hlen).
  cbn [bind]. rewrite E. eexists _, _. split; [reflexivity|].
  replace (10 * 0 + d) with d by lia.
  destruct Hs2 as (Ht & Hv & Hm & _). split; [exact Ht|]. split; [exact Hm|]. split.
  - unfold Number.getValue. rewrite Ht, int_of_str_of_Z. reflexivity.
  - cbn. now rewrite Hlen.
Qed.

Lemma number_typing_witness :
  exists s' evs,
    number_handleKeys (fun _ s => ret s)
      [Action (ACTIONKEY_0 + 0) 0; Action ACTIONKEY_ASCII 52; Action (ACTIONKEY_0 + 2) 0]
      (Number.init 17) = Ret s' evs
    /\ Text.text s' = str_of_Z (number [0; 4; 2])
    /\ Text.marked_pos s' = Text.len (Text.text s')
    /\ Number.getValue s' = Ret (number [0; 4; 2], s') []
    /\ List.length evs = List.length [0; 4; 2].
Proof.
  apply (number_typing (fun _ s => ret s) (Number.init 17)
           [Action (ACTIONKEY_0 + 0) 0; Action ACTIONKEY_ASCII 52;
            Action (ACTIONKEY_0 + 2) 0] [0; 4; 2]).
  - reflexivity.
  - reflexivity.
  - reflexivity.
  - discriminate.
  - repeat constructor.
Defined.

(** ** Typing a whole number into a sequence of one field *)

Section FieldTyping.

Import Sequence.

Lemma digit_of_keys a d :
  digit_of a = Ret (inr d) [] ->
  in_ACTIONKEY_NUMBERS (act_key a) || (act_key a =? ACTIONKEY_ASCII) = true
  /\ (act_key a =? ACTIONKEY_FIRST) = false /\ (act_key a =? ACTIONKEY_LEFT) = false
  /\ (act_key a =? ACTIONKEY_RIGHT) = false /\ (act_key a =? ACTIONKEY_LAST) = false.
Proof.
  intros Hd. destruct (number_key a d Hd) as [Hk _].
  destruct (digit_of_cases a Hk) as [[E _]|(n & _ & Hda)].
  - rewrite E in Hd. discriminate.
  - now apply digit_action_keys.
Qed.

Lemma validate_single s lo hi x :
  limits s = [(lo, hi)] -> _value s = [x] -> lo <= x <= hi ->
  0 <= marked_pos s ->
  exists evs,
    validate s = Ret (set_marked_pos (Z.min (marked_pos s) (str_len hi - 1)) s) evs.
Proof.
  intros Hl Hv Hx Hm. unfold validate.
  assert (Hs : validate_loop 1 0 [(lo, hi)] [x] 0
               = Ret ([] ++ clamp_all [(lo, hi)] [x], 0 + total_len [(lo, hi)]) [])
    by exact (validate_loop_spec [(lo, hi)] [x] [] [] 0 eq_refl eq_refl).
  rewrite Hl, Hv. cbn [List.length]. rewrite Hs. cbn [bind fst snd List.app].
  assert (Ec : clamp_all [(lo, hi)] [x] = [x]).
  { unfold clamp_all, clamp. cbn.
    destruct (Z.ltb_spec x lo); [lia|]. destruct (Z.gtb_spec x hi); [lia | reflexivity]. }
  assert (Et : 0 + total_len [(lo, hi)] = str_len hi) by (cbn; lia).
  rewrite Ec, Et. rewrite <- Hv, set_value_same.
  pose proof (str_len_pos hi) as Hp.
  destruct (Z.geb_spec (marked_pos s) (str_len hi)) as [Hge|Hlt].
  - rewrite call_end_notifiers_eq. cbn [bind ret marked_pos set_marked_pos].
    destruct (Z.ltb_spec (str_len hi - 1) 0); [lia|].
    rewrite Z.min_r by lia. eexists. reflexivity.
  - cbn [bind ret]. destruct (Z.ltb_spec (marked_pos s) 0); [lia|].
    rewrite Z.min_l by lia. exists []. f_equal. now destruct s.
Qed.

Variable L : nat.
Variable lo : Z.
Hypothesis HL : (1 <= L)%nat.
Hypothesis Hlo : lo <= 0.

Lemma field_step s x P r k a d :
  limits s = [(lo, 10 ^ Z.of_nat L - 1)] -> _value s = [x] ->
  marked_pos s = k -> 0 <= k < Z.of_nat L ->
  Z.abs x = P * 10 ^ (Z.of_nat L - k) + r ->
  0 <= r < 10 ^ (Z.of_nat L - k) -> 0 <= P < 10 ^ k ->
  digit_of a = Ret (inr d) [] ->
  exists s' evs,
    Sequence.handleKey a s = Ret s' evs
    /\ limits s' = limits s
    /\ _value s' = [(10 * P + d) * 10 ^ (Z.of_nat L - (k + 1))
                    + r mod 10 ^ (Z.of_nat L - (k + 1))]
    /\ marked_pos s' = Z.min (k + 1) (Z.of_nat L - 1).
Proof.
  intros Hl Hv Hm Hk Hx Hr HP Hd.
  pose proof (digit_of_range a d Hd) as Hdr.
  destruct (digit_of_keys a d Hd) as (K5 & K1 & K2 & K3 & K4).
  pose proof (str_len_nines L HL) as Hlen.
  unfold Sequence.handleKey. rewrite K1, K2, K3, K4, K5, Hd. cbn [bind app].
  rewrite Hl. unfold block_lens. cbn [map snd List.length find_block].
  rewrite Hlen, getitem_0, bind_ret_l. cbn [app].
  rewrite Hm.
  destruct (Z.geb_spec (0 + Z.of_nat L - 1) k) as [_|Hbad]; [|lia].
  rewrite bind_ret_l. cbn [fst snd List.app].
  rewrite getitem_0, bind_ret_l. cbn [snd].
  rewrite getitem_0, bind_ret_l. rewrite Hv, getitem_0, bind_ret_l.
  rewrite Hlen, Z.sub_0_r.
  rewrite !pow10_nonneg by lia. rewrite !bind_ret_l. rewrite setitem_0, bind_ret_l.
  set (m := 10 ^ (Z.of_nat L - k - 1)).
  assert (Hm0 : 0 < m) by (apply Z.pow_pos_nonneg; lia).
  assert (HM : 10 ^ (Z.of_nat L - k) = 10 * m).
  { unfold m. rewrite <- Z.pow_succ_r by lia. f_equal. lia. }
  assert (E1 : Z.abs x mod 10 ^ (Z.of_nat L - k) = r).
  { rewrite Hx, Z.add_comm, Z_mod_plus_full. apply Z.mod_small. lia. }
  assert (E2 : Z.abs x mod m = r mod m).
  { rewrite Hx, HM. replace (P * (10 * m) + r) with (r + (P * 10) * m) by lia.
    apply Z_mod_plus_full. }
  rewrite E1, E2.
  set (new := Z.abs x - (r - r mod m) + m * d).
  assert (Hnew : new = (10 * P + d) * m + r mod m).
  { unfold new. rewrite Hx, HM. lia. }
  pose proof (Z.mod_pos_bound r m Hm0) as Hrm.
  assert (Hpow : 10 ^ Z.of_nat L = 10 ^ k * (10 * m)).
  { rewrite <- HM, <- Z.pow_add_r by lia. f_equal. lia. }
  assert (Hb : lo <= new <= 10 ^ Z.of_nat L - 1).
  { rewrite Hnew, Hpow. nia. }
  destruct (validate_single
              (set_marked_pos (k + 1) (set_value [new] s)) lo (10 ^ Z.of_nat L - 1) new)
    as [evs Ev]; [exact Hl | reflexivity | exact Hb | cbn; lia |].
  rewrite Ev. cbn [bind emit ret app].
  eexists _, _. split; [reflexivity|].
  cbn [limits _value marked_pos set_marked_pos set_value].
  split; [exact Hl|]. split.
  - rewrite Hnew. unfold m. replace (Z.of_nat L - (k + 1)) with (Z.of_nat L - k - 1) by lia.
    reflexivity.
  - now rewrite Hlen.
Qed.

Lemma field_steps acts ds :
  Forall2 (fun a d => digit_of a = Ret (inr d) []) acts ds ->
  forall s x P r k,
    limits s = [(lo, 10 ^ Z.of_nat L - 1)] -> _value s = [x] ->
    marked_pos s = Z.min k (Z.of_nat L - 1) ->
    0 <= k -> k + Z.of_nat (List.length ds) <= Z.of_nat L ->
    Z.abs x = P * 10 ^ (Z.of_nat L - k) + r ->
    0 <= r < 10 ^ (Z.of_nat L - k) -> 0 <= P < 10 ^ k ->
    exists s' evs x' r',
      handleKeys acts s = Ret s' evs
      /\ limits s' = limits s
      /\ _value s' = [x']
      /\ (ds <> [] -> 0 <= x')
      /\ Z.abs x'
         = fold_left (fun acc d => 10 * acc + d) ds P
           * 10 ^ (Z.of_nat L - (k + Z.of_nat (List.length ds))) + r'
      /\ 0 <= r' < 10 ^ (Z.of_nat L - (k + Z.of_nat (List.length ds)))
      /\ marked_pos s' = Z.min (k + Z.of_nat (List.length ds)) (Z.of_nat L - 1).
Proof.
  induction 1 as [|a d acts ds Hd HF IH]; intros s x P r k Hl Hv Hm Hk Hle Hx Hr HP.
  - exists s, [], x, r. cbn [List.length]. change (Z.of_nat 0) with 0.
    rewrite Z.add_0_r. repeat split; try assumption; try reflexivity; try lia.
    congruence.
  - cbn [List.length] in Hle. rewrite Nat2Z.inj_succ in Hle.
    rewrite Z.min_l in Hm by lia.
    destruct (field_step s x P r k a d Hl Hv Hm ltac:(lia) Hx Hr HP Hd)
      as (s1 & e1 & E1 & Hl1 & Hv1 & Hm1).
    pose proof (digit_of_range a d Hd) as Hdr.
    set (m := 10 ^ (Z.of_nat L - (k + 1))) in *.
    assert (Hm0 : 0 < m) by (apply Z.pow_pos_nonneg; lia).
    pose proof (Z.mod_pos_bound r m Hm0) as Hrm.
    assert (Hnn : 0 <= (10 * P + d) * m + r mod m) by nia.
    destruct (IH s1 ((10 * P + d) * m + r mod m) (10 * P + d) (r mod m) (k + 1))
      as (s2 & e2 & x' & r' & E2 & Hl2 & Hv2 & Hx0 & Hx2 & Hr2 & Hm2).
    + now rewrite Hl1.
    + exact Hv1.
    + exact Hm1.
    + lia.
    + lia.
    + now rewrite Z.abs_eq by exact Hnn.
    + exact Hrm.
    + rewrite Z.pow_add_r by lia. change (10 ^ 1) with 10. lia.
    + cbn [handleKeys fold_left List.length]. rewrite E1. cbn [bind]. rewrite E2.
      exists s2, (e1 ++ e2), x', r'. split; [reflexivity|].
      rewrite Nat2Z.inj_succ.
      replace (k + Z.succ (Z.of_nat (List.length ds)))
        with (k + 1 + Z.of_nat (List.length ds)) by lia.
      split; [congruence|]. split; [exact Hv2|]. split.
      * intros _. destruct ds as [|d' ds'].
        -- inversion HF; subst. cbn [handleKeys] in E2. injection E2 as <- _.
           rewrite Hv1 in Hv2. injection Hv2 as <-. exact Hnn.
        -- apply Hx0. discriminate.
      * repeat split; assumption || lia.
Qed.

End FieldTyping.

(** X16. Typing a whole number into a [ConfigSequence] of one field whose
    upper limit is 10 ** L - 1, a [ConfigPIN] of L digits or a
    [ConfigInteger] with its ten: with the cursor in the first column, L
    digits entered by number keys or ASCII codes make the field the number
    typed, whatever it held before, and leave the cursor in the last
    column. *)
Theorem field_typing (s : Sequence.ConfigSequence) (L : nat) (lo x : Z)
    (acts : list action) (ds : list Z) :
  (1 <= L)%nat -> lo <= 0 ->
  Sequence.limits s = [(lo, 10 ^ Z.of_nat L - 1)] ->
  Sequence._value s = [x] -> Z.abs x < 10 ^ Z.of_nat L ->
  Sequence.marked_pos s = 0 ->
  List.length ds = L ->
  Forall2 (fun a d => digit_of a = Ret (inr d) []) acts ds ->
  exists s' evs,
    handleKeys acts s = Ret s' evs
    /\ Sequence._value s' = [number ds]
    /\ Sequence.marked_pos s' = Z.of_nat L - 1.
Proof.
  intros HL Hlo Hl Hv Hx Hm Hlen HF.
  destruct (field_steps L lo HL Hlo acts ds HF s x 0 (Z.abs x) 0)
    as (s' & evs & x' & r' & E & _ & Hv' & Hx0 & Hx' & Hr' & Hm').
  - exact Hl.
  - exact Hv.
  - rewrite Hm. rewrite Z.min_l by lia. reflexivity.
  - lia.
  - lia.
  - lia.
  - rewrite Z.sub_0_r. lia.
  - cbn. lia.
  - exists s', evs. split; [exact E|].
    rewrite Hlen, Z.add_0_l, Z.sub_diag in Hx', Hr'. change (10 ^ 0) with 1 in Hx', Hr'.
    rewrite Hlen, Z.add_0_l in Hm'. split.
    + rewrite Hv'. f_equal. unfold number.
      assert (0 <= x') by (apply Hx0; intros ->; cbn in Hlen; lia).
      rewrite Z.abs_eq in Hx' by assumption. lia.
    + rewrite Hm'. lia.
Qed.

Lemma field_typing_witness :
  exists s' evs,
    handleKeys [Action (ACTIONKEY_0 + 1) 0; Action ACTIONKEY_ASCII 50;
                Action (ACTIONKEY_0 + 3) 0; Action (ACTIONKEY_0 + 4) 0]
      (Sequence.mkSeq ":" [(0, 10 ^ Z.of_nat 4 - 1)] [-1] [-1] 0 0) = Ret s' evs
    /\ Sequence._value s' = [number [1; 2; 3; 4]]
    /\ Sequence.marked_pos s' = Z.of_nat 4 - 1.
Proof.
  apply (field_typing (Sequence.mkSeq ":" [(0, 10 ^ Z.of_nat 4 - 1)] [-1] [-1] 0 0)
           4 0 (-1)
           [Action (ACTIONKEY_0 + 1) 0; Action ACTIONKEY_ASCII 50;
            Action (ACTIONKEY_0 + 3) 0; Action (ACTIONKEY_0 + 4) 0] [1; 2; 3; 4]).
  - lia.
  - lia.
  - reflexivity.
  - reflexivity.
  - cbn. lia.
  - reflexivity.
  - reflexivity.
  - repeat constructor.
Defined.

(** ** ConfigDictionarySet *)

Section DictionaryFacts.

Import DictionarySet.

Lemma deref_assign (h : heap) a d :
  (a < List.length h)%nat -> deref (assign h a d) a = d.
Proof.
  intros Ha. unfold deref, assign.
  pose proof (nth_error_update_same h a d Ha) as E.
  now apply nth_error_nth.
Qed.

Lemma assign_length (h : heap) a d : List.length (assign h a d) = List.length h.
Proof. apply update_length. Qed.

Lemma dict_has_get {V} k (d : list (string * V)) :
  dict_has k d = match dict_get k d with Some _ => true | None => false end.
Proof. reflexivity. Qed.

Lemma getConfigValue_other h h' s value' k :
  dict_get value' (deref h' (dirs s)) = dict_get value' (deref h (dirs s)) ->
  getConfigValue h' s (PStr value') (PStr k) = getConfigValue h s (PStr value') (PStr k).
Proof. intros E. unfold getConfigValue. now rewrite E. Qed.

Lemma pair_neq (value value' k k' : string) :
  (value', k') <> (value, k) -> value' <> value \/ value' = value /\ k' <> k.
Proof.
  intros Hne. destruct (String.eqb_spec value' value) as [->|Hv]; [|now left].
  right. split; [reflexivity|]. intros ->. now apply Hne.
Qed.

Lemma changeConfigValue_new h s value k v :
  dict_get value (deref h (dirs s)) = None ->
  changeConfigValue h s (PStr value) (PStr k) v
  = Ret (assign h (dirs s) (dict_set value (PDict [(k, v)]) (deref h (dirs s))), s)
        [Changed].
Proof. intros E. unfold changeConfigValue. now rewrite E. Qed.

Lemma changeConfigValue_old h s value k v inner :
  dict_get value (deref h (dirs s)) = Some (PDict inner) ->
  changeConfigValue h s (PStr value) (PStr k) v
  = Ret (assign h (dirs s)
           (dict_set value (PDict (dict_set k v inner)) (deref h (dirs s))), s)
        [Changed].
Proof. intros E. unfold changeConfigValue. now rewrite E. Qed.

(** What [changeConfigValue] leaves under [value]. *)
Lemma changeConfigValue_entry h s value k v :
  (dirs s < List.length h)%nat ->
  entry_is_dict value (deref h (dirs s)) = true ->
  exists h1 inner,
    changeConfigValue h s (PStr value) (PStr k) v = Ret (h1, s) [Changed]
    /\ List.length h1 = List.length h
    /\ dict_get value (deref h1 (dirs s)) = Some (PDict inner)
    /\ dict_get k inner = Some v
    /\ (forall k', k' <> k ->
          dict_get k' inner
          = match dict_get value (deref h (dirs s)) with
            | Some (PDict old) => dict_get k' old
            | _ => None
            end)
    /\ (forall value', value' <> value ->
          dict_get value' (deref h1 (dirs s)) = dict_get value' (deref h (dirs s))).
Proof.
  intros Ha Hd. unfold entry_is_dict in Hd.
  destruct (dict_get value (deref h (dirs s))) as [o|] eqn:E.
  - destruct o as [| | | | |inner]; try discriminate.
    exists (assign h (dirs s)
              (dict_set value (PDict (dict_set k v inner)) (deref h (dirs s)))),
           (dict_set k v inner).
    split; [exact (changeConfigValue_old h s value k v inner E)|].
    split; [apply assign_length|].
    rewrite deref_assign by exact Ha.
    split; [apply dict_get_set_same|].
    split; [apply dict_get_set_same|].
    split.
    + intros k' Hk. now apply dict_get_set_other.
    + intros value' Hv. now apply dict_get_set_other.
  - exists (assign h (dirs s)
              (dict_set value (PDict [(k, v)]) (deref h (dirs s)))),
           [(k, v)].
    split; [exact (changeConfigValue_new h s value k v E)|].
    split; [apply assign_length|].
    rewrite deref_assign by exact Ha.
    split; [apply dict_get_set_same|].
    split; [cbn; now rewrite String.eqb_refl|].
    split.
    + intros k' Hk. cbn. apply String.eqb_neq in Hk. now rewrite Hk.
    + intros value' Hv. now apply dict_get_set_other.
Qed.

Lemma getConfigValue_dict h s value k inner :
  dict_get value (deref h (dirs s)) = Some (PDict inner) ->
  getConfigValue h s (PStr value) (PStr k)
  = ret (match dict_get k inner with Some v => v | None => PNone end).
Proof.
  intros E. unfold getConfigValue. rewrite E. cbn [contains]. rewrite bind_ret_l.
  rewrite dict_has_get. cbn [subscript]. now destruct (dict_get k inner).
Qed.

Lemma removeConfigValue_dict h s value k inner v :
  dict_get value (deref h (dirs s)) = Some (PDict inner) ->
  dict_get k inner = Some v ->
  removeConfigValue h s (PStr value) (PStr k)
  = Ret (assign h (dirs s)
           (dict_set value (PDict (dict_del k inner)) (deref h (dirs s))), s)
        [Changed].
Proof.
  intros E Ek. unfold removeConfigValue. rewrite E. cbn [contains].
  rewrite bind_ret_l, dict_has_get, Ek. cbn [subscript_del].
  rewrite dict_has_get, Ek. reflexivity.
Qed.

(** *** Saving *)

Lemma len_sized o : sized o = true -> exists n, len o = ret n /\ ((n =? 0) = empty o).
Proof.
  destruct o as [| | |t|l|d]; try discriminate; intros _; cbn [len];
    eexists; (split; [reflexivity|]).
  - now destruct t.
  - now destruct l.
  - now destruct d.
Qed.

Lemma del_keys_spec (d : dict) : forall sub,
  (forall kv, In kv sub -> dict_get (fst kv) d = Some (snd kv)) ->
  forallb (fun kv => sized (snd kv)) sub = true ->
  del_keys d (map fst sub)
  = ret (map fst (filter (fun kv => empty (snd kv)) sub)).
Proof.
  induction sub as [|[k o] sub IH]; intros Hin Hs; [reflexivity|].
  cbn [forallb snd] in Hs. apply andb_true_iff in Hs as [Ho Hs].
  cbn [map fst del_keys]. pose proof (Hin (k, o) (or_introl eq_refl)) as Hk.
  cbn [fst snd] in Hk. rewrite Hk, bind_ret_l.
  destruct (len_sized o Ho) as (n & -> & En). rewrite bind_ret_l.
  rewrite IH; [|intros kv H; apply Hin; now right | exact Hs].
  rewrite bind_ret_l. cbn [filter snd]. rewrite En. now destruct (empty o).
Qed.

Lemma dict_del_filter {V} k (d : list (string * V)) :
  dict_del k d = filter (fun kv => negb (String.eqb k (fst kv))) d.
Proof.
  induction d as [|[k' v] d IH]; cbn; [reflexivity|].
  destruct (String.eqb k k'); cbn; now rewrite IH.
Qed.

Lemma dict_del_absent {V} k (d : list (string * V)) :
  dict_has k d = false -> dict_del k d = d.
Proof.
  unfold dict_has. induction d as [|[k' v] d IH]; cbn; [reflexivity|].
  destruct (String.eqb k k'); [discriminate|]. intros H. now rewrite IH.
Qed.

Lemma filter_twice {A} (p q r : A -> bool) (l : list A) :
  (forall x, r x = q x && p x) -> filter p (filter q l) = filter r l.
Proof.
  intros H. induction l as [|a l IH]; [reflexivity|].
  cbn [filter]. rewrite H. destruct (q a); cbn [filter andb].
  - destruct (p a); now rewrite IH.
  - exact IH.
Qed.

Lemma del_all_spec keys : forall d,
  del_all keys d
  = Ret (filter (fun kv => negb (str_in (fst kv) keys)) d)
        (repeat Changed (List.length keys)).
Proof.
  induction keys as [|k keys IH]; intros d.
  - cbn [del_all List.length repeat]. unfold ret. f_equal.
    induction d as [|kv d IHd]; cbn in *; [reflexivity | now f_equal].
  - cbn [del_all]. 
    assert (E : (if dict_has k d then dict_del k d else d) = dict_del k d).
    { destruct (dict_has k d) eqn:Eh; [reflexivity | now rewrite dict_del_absent]. }
    rewrite E, IH. cbn [bind emit List.app List.length repeat]. f_equal.
    rewrite dict_del_filter. apply filter_twice. intros [k' v].
    unfold str_in. cbn [fst existsb]. rewrite (String.eqb_sym k' k).
    apply negb_orb.
Qed.

Lemma In_dict_get {V} (d : list (string * V)) :
  NoDup (map fst d) -> forall kv, In kv d -> dict_get (fst kv) d = Some (snd kv).
Proof.
  induction d as [|[k v] d IH]; intros Hnd kv Hin; [contradiction|].
  cbn [map fst] in Hnd. inversion Hnd as [|? ? Hk Hnd']; subst.
  cbn [dict_get]. destruct Hin as [<-|Hin].
  - cbn. now rewrite String.eqb_refl.
  - destruct (String.eqb_spec (fst kv) k) as [Ek|_].
    + exfalso. apply Hk. rewrite <- Ek. now apply in_map.
    + now apply IH.
Qed.

Lemma str_in_In k l : str_in k l = true <-> In k l.
Proof.
  unfold str_in. rewrite existsb_exists. split.
  - intros (x & Hx & E). apply String.eqb_eq in E. now subst.
  - intros H. exists k. split; [exact H | apply String.eqb_refl].
Qed.

Lemma filter_keys_empty (d : dict) :
  NoDup (map fst d) ->
  filter (fun kv => negb (str_in (fst kv)
                            (map fst (filter (fun kv => empty (snd kv)) d)))) d
  = filter (fun kv => negb (empty (snd kv))) d.
Proof.
  intros Hnd. apply filter_ext_in. intros [k o] Hin. cbn [fst snd]. f_equal.
  destruct (empty o) eqn:Ee.
  - apply str_in_In. apply (in_map fst _ (k, o)). apply filter_In. now split.
  - destruct (str_in k _) eqn:Es; [|reflexivity].
    apply str_in_In in Es. apply in_map_iff in Es as ([k' o'] & Ek & Hf).
    cbn in Ek. subst k'. apply filter_In in Hf as [Hin' He]. cbn in He.
    pose proof (In_dict_get d Hnd _ Hin) as G1.
    pose proof (In_dict_get d Hnd _ Hin') as G2. cbn in G1, G2.
    congruence.
Qed.

Lemma save_spec h s :
  NoDup (map fst (deref h (dirs s))) ->
  forallb (fun kv => sized (snd kv)) (deref h (dirs s)) = true ->
  let d' := filter (fun kv => negb (empty (snd kv))) (deref h (dirs s)) in
  save h s
  = Ret (assign h (dirs s) d', set_saved_value (Some (tostring d')) s)
        (repeat Changed
           (List.length (filter (fun kv => empty (snd kv)) (deref h (dirs s))))).
Proof.
  intros Hnd Hs d'. unfold save.
  rewrite del_keys_spec; [|now apply In_dict_get | exact Hs].
  rewrite bind_ret_l, del_all_spec. cbn [bind ret].
  rewrite filter_keys_empty by exact Hnd. rewrite length_map, app_nil_r.
  reflexivity.
Qed.

End DictionaryFacts.

(** X17. [ConfigDictionarySet], for strings [value] and [config_key], when
    [dirs] has no entry for [value] or a dict: after
    [changeConfigValue(value, config_key, config_value)], which calls
    [changed()] once, [getConfigValue(value, config_key)] returns
    [config_value]; after [removeConfigValue(value, config_key)], which
    calls it once more, it returns [None]; and for every other pair of
    strings [getConfigValue] returns after either call what it returned
    before. *)
Theorem dictionary_change_get_remove (h : DictionarySet.heap)
    (s : DictionarySet.ConfigDictionarySet) (value config_key : string)
    (config_value : pyval) :
  (DictionarySet.dirs s < List.length h)%nat ->
  entry_is_dict value (DictionarySet.deref h (DictionarySet.dirs s)) = true ->
  exists h1 h2,
    DictionarySet.changeConfigValue h s (PStr value) (PStr config_key) config_value
    = Ret (h1, s) [Changed]
    /\ DictionarySet.getConfigValue h1 s (PStr value) (PStr config_key)
       = ret config_value
    /\ DictionarySet.removeConfigValue h1 s (PStr value) (PStr config_key)
       = Ret (h2, s) [Changed]
    /\ DictionarySet.getConfigValue h2 s (PStr value) (PStr config_key) = ret PNone
    /\ forall value' config_key',
         (value', config_key') <> (value, config_key) ->
         DictionarySet.getConfigValue h1 s (PStr value') (PStr config_key')
         = DictionarySet.getConfigValue h s (PStr value') (PStr config_key')
         /\ DictionarySet.getConfigValue h2 s (PStr value') (PStr config_key')
            = DictionarySet.getConfigValue h s (PStr value') (PStr config_key').
Proof.
  intros Ha Hd.
  destruct (changeConfigValue_entry h s value config_key config_value Ha Hd)
    as (h1 & inner & E1 & Hl1 & G1 & Gk & Gk' & Gv').
  assert (Ha1 : (DictionarySet.dirs s < List.length h1)%nat) by now rewrite Hl1.
  pose proof (removeConfigValue_dict h1 s value config_key inner config_value G1 Gk)
    as E2.
  eexists h1, _. split; [exact E1|].
  split; [rewrite (getConfigValue_dict _ _ _ _ _ G1), Gk; reflexivity|].
  split; [exact E2|].
  assert (G2 : dict_get value
                 (DictionarySet.deref
                    (DictionarySet.assign h1 (DictionarySet.dirs s)
                       (dict_set value (PDict (dict_del config_key inner))
                          (DictionarySet.deref h1 (DictionarySet.dirs s))))
                    (DictionarySet.dirs s))
               = Some (PDict (dict_del config_key inner))).
  { rewrite deref_assign by exact Ha1. apply dict_get_set_same. }
  split; [rewrite (getConfigValue_dict _ _ _ _ _ G2), dict_get_del_same; reflexivity|].
  intros value' k' Hne.
  destruct (pair_neq _ _ _ _ Hne) as [Hv|[-> Hk]].
  - split.
    + apply (getConfigValue_other h h1 s). now apply Gv'.
    + apply (getConfigValue_other h _ s).
      rewrite deref_assign by exact Ha1.
      rewrite dict_get_set_other by exact Hv. now apply Gv'.
  - rewrite (getConfigValue_dict _ _ _ _ _ G1), (getConfigValue_dict _ _ _ _ _ G2).
    rewrite dict_get_del_other by exact Hk. rewrite (Gk' k' Hk).
    unfold entry_is_dict in Hd.
    destruct (dict_get value (DictionarySet.deref h (DictionarySet.dirs s)))
      as [o|] eqn:E.
    + destruct o as [| | | | |old]; try discriminate.
      now rewrite (getConfigValue_dict _ _ _ _ _ E).
    + unfold DictionarySet.getConfigValue. rewrite E. split; reflexivity.
Qed.

Lemma dictionary_change_get_remove_witness :
  exists h1 h2,
    DictionarySet.changeConfigValue
      [[("/media", PDict [("a", PInt 1)])]]
      (DictionarySet.mkDictionarySet 0 0 None false)
      (PStr "/media") (PStr "b") (PInt 2)
    = Ret (h1, DictionarySet.mkDictionarySet 0 0 None false) [Changed]
    /\ DictionarySet.getConfigValue h1 (DictionarySet.mkDictionarySet 0 0 None false)
         (PStr "/media") (PStr "b") = ret (PInt 2)
    /\ DictionarySet.removeConfigValue h1 (DictionarySet.mkDictionarySet 0 0 None false)
         (PStr "/media") (PStr "b")
       = Ret (h2, DictionarySet.mkDictionarySet 0 0 None false) [Changed]
    /\ DictionarySet.getConfigValue h2 (DictionarySet.mkDictionarySet 0 0 None false)
         (PStr "/media") (PStr "b") = ret PNone
    /\ forall value' config_key',
         (value', config_key') <> ("/media", "b") ->
         DictionarySet.getConfigValue h1 (DictionarySet.mkDictionarySet 0 0 None false)
           (PStr value') (PStr config_key')
         = DictionarySet.getConfigValue [[("/media", PDict [("a", PInt 1)])]]
             (DictionarySet.mkDictionarySet 0 0 None false)
             (PStr value') (PStr config_key')
         /\ DictionarySet.getConfigValue h2
              (DictionarySet.mkDictionarySet 0 0 None false)
              (PStr value') (PStr config_key')
            = DictionarySet.getConfigValue [[("/media", PDict [("a", PInt 1)])]]
                (DictionarySet.mkDictionarySet 0 0 None false)
                (PStr value') (PStr config_key').
Proof.
  apply (dictionary_change_get_remove
           [[("/media", PDict [("a", PInt 1)])]]
           (DictionarySet.mkDictionarySet 0 0 None false) "/media" "b" (PInt 2)).
  - cbn. lia.
  - reflexivity.
Defined.

Section DictionarySaving.

Import DictionarySet.

Lemma assign_deref (h : heap) a : assign h a (deref h a) = h.
Proof.
  unfold assign, deref. revert a.
  induction h as [|d h IH]; intros [|a]; cbn; try reflexivity.
  now rewrite IH.
Qed.

Lemma NoDup_keys_filter {V} (p : string * V -> bool) (d : list (string * V)) :
  NoDup (map fst d) -> NoDup (map fst (filter p d)).
Proof.
  induction d as [|kv d IH]; intros Hnd; [constructor|].
  cbn [map] in Hnd. inversion Hnd as [|? ? Hk Hnd']; subst.
  cbn [filter]. destruct (p kv); [|now apply IH].
  cbn [map]. constructor; [|now apply IH].
  intros Hin. apply Hk. apply in_map_iff in Hin as (x & E & Hx).
  apply filter_In in Hx as [Hx _]. rewrite <- E. now apply in_map.
Qed.

Lemma forallb_filter {A} (p q : A -> bool) (l : list A) :
  forallb p l = true -> forallb p (filter q l) = true.
Proof.
  induction l as [|a l IH]; [reflexivity|].
  cbn [forallb filter]. intros H. apply andb_true_iff in H as [Ha Hl].
  destruct (q a); [cbn [forallb]; rewrite Ha|]; now apply IH.
Qed.

Lemma filter_none {A} (p : A -> bool) (l : list A) :
  filter p (filter (fun x => negb (p x)) l) = [].
Proof.
  induction l as [|a l IH]; [reflexivity|].
  cbn [filter]. destruct (p a) eqn:E; cbn [negb filter]; [exact IH|].
  now rewrite E.
Qed.

Lemma deref_app (h : heap) d a : (a < List.length h)%nat -> deref (h ++ [d]) a = deref h a.
Proof. intros Ha. unfold deref. now apply app_nth1. Qed.

End DictionarySaving.

(** X18. The dict a [ConfigDictionarySet] is constructed with is shared, not
    copied: [self.value = self.default] makes [dirs] the default object
    itself.  So after [changeConfigValue(value, config_key, config_value)]
    on a new element the default holds the entry as well, [isChanged()]
    returns [False], and [cancel()] changes nothing: [getConfigValue]
    still returns [config_value]. *)
Theorem dictionary_default_is_shared
    (eval : string -> result DictionarySet.dict) (h : DictionarySet.heap) (a : nat)
    (value config_key : string) (config_value : pyval) :
  (a < List.length h)%nat ->
  entry_is_dict value (DictionarySet.deref h a) = true ->
  exists h0 s h1 inner,
    DictionarySet.init h a = Ret (h0, s) [Changed]
    /\ DictionarySet.changeConfigValue h0 s (PStr value) (PStr config_key) config_value
       = Ret (h1, s) [Changed]
    /\ dict_get value (DictionarySet.deref h1 a) = Some (PDict inner)
    /\ dict_get config_key inner = Some config_value
    /\ DictionarySet.isChanged h1 s = false
    /\ DictionarySet.cancel eval h1 s = Ret (h1, s) []
    /\ DictionarySet.getConfigValue h1 s (PStr value) (PStr config_key)
       = ret config_value.
Proof.
  intros Ha Hd.
  set (s := DictionarySet.mkDictionarySet a a None false).
  assert (Ha0 : (DictionarySet.dirs s < List.length (h ++ [[]]))%nat).
  { cbn. rewrite length_app. cbn. lia. }
  assert (Hd0 : entry_is_dict value
                  (DictionarySet.deref (h ++ [[]]) (DictionarySet.dirs s)) = true).
  { cbn [DictionarySet.dirs s]. now rewrite deref_app. }
  destruct (changeConfigValue_entry (h ++ [[]]) s value config_key config_value Ha0 Hd0)
    as (h1 & inner & E1 & Hl1 & G1 & Gk & _ & _).
  exists (h ++ [[]]), s, h1, inner.
  split; [reflexivity|]. split; [exact E1|].
  split; [exact G1|]. split; [exact Gk|]. split.
  - unfold DictionarySet.isChanged. cbn [DictionarySet.saved_value s
      DictionarySet.default DictionarySet.dirs].
    now rewrite String.eqb_refl.
  - split; [reflexivity|].
    rewrite (getConfigValue_dict _ _ _ _ _ G1), Gk. reflexivity.
Qed.

Lemma dictionary_default_is_shared_witness :
  exists h0 s h1 inner,
    DictionarySet.init [[]] 0 = Ret (h0, s) [Changed]
    /\ DictionarySet.changeConfigValue h0 s (PStr "/media") (PStr "a") (PInt 1)
       = Ret (h1, s) [Changed]
    /\ dict_get "/media" (DictionarySet.deref h1 0) = Some (PDict inner)
    /\ dict_get "a" inner = Some (PInt 1)
    /\ DictionarySet.isChanged h1 s = false
    /\ DictionarySet.cancel (fun _ => Exc TypeError) h1 s = Ret (h1, s) []
    /\ DictionarySet.getConfigValue h1 s (PStr "/media") (PStr "a") = ret (PInt 1).
Proof.
  apply (dictionary_default_is_shared (fun _ => Exc TypeError) [[]] 0 "/media" "a"
           (PInt 1)).
  - cbn. lia.
  - reflexivity.
Defined.

(** X19. [ConfigDictionarySet.save], when every entry of [dirs] has a
    length: the entries of length 0 are deleted from [dirs], the others
    stay in their order, [changed()] is called once for each entry deleted,
    and [saved_value] is the text of the dict that is left, also when that
    dict is the default.  A second [save()] deletes nothing, calls nothing
    and leaves the element as it is. *)
Theorem dictionary_save (h : DictionarySet.heap)
    (s : DictionarySet.ConfigDictionarySet) :
  (DictionarySet.dirs s < List.length h)%nat ->
  NoDup (map fst (DictionarySet.deref h (DictionarySet.dirs s))) ->
  forallb (fun kv => sized (snd kv))
    (DictionarySet.deref h (DictionarySet.dirs s)) = true ->
  exists h' s',
    DictionarySet.save h s
    = Ret (h', s')
        (repeat Changed
           (List.length (filter (fun kv => empty (snd kv))
                           (DictionarySet.deref h (DictionarySet.dirs s)))))
    /\ DictionarySet.dirs s' = DictionarySet.dirs s
    /\ DictionarySet.default s' = DictionarySet.default s
    /\ DictionarySet.deref h' (DictionarySet.dirs s')
       = filter (fun kv => negb (empty (snd kv)))
           (DictionarySet.deref h (DictionarySet.dirs s))
    /\ DictionarySet.saved_value s'
       = Some (DictionarySet.tostring
                 (DictionarySet.deref h' (DictionarySet.dirs s')))
    /\ DictionarySet.save h' s' = Ret (h', s') [].
Proof.
  intros Ha Hnd Hs.
  set (d := DictionarySet.deref h (DictionarySet.dirs s)) in *.
  set (d' := filter (fun kv => negb (empty (snd kv))) d).
  set (h' := DictionarySet.assign h (DictionarySet.dirs s) d').
  set (s' := DictionarySet.set_saved_value (Some (DictionarySet.tostring d')) s).
  assert (Hd' : DictionarySet.deref h' (DictionarySet.dirs s') = d')
    by (apply deref_assign; exact Ha).
  exists h', s'. split; [exact (save_spec h s Hnd Hs)|].
  split; [reflexivity|]. split; [reflexivity|]. split; [exact Hd'|].
  split; [rewrite Hd'; reflexivity|].
  pose proof (save_spec h' s') as E. cbv zeta in E. rewrite Hd' in E.
  rewrite E.
  - unfold d'. rewrite filter_none. cbn [List.length repeat].
    rewrite (filter_twice _ _ (fun kv => negb (empty (snd kv))))
      by (intros x; now rewrite andb_diag).
    fold d'. f_equal. f_equal.
    rewrite <- Hd' at 1. apply assign_deref.
  - now apply NoDup_keys_filter.
  - now apply forallb_filter.
Qed.

Lemma dictionary_save_witness :
  exists h' s',
    DictionarySet.save
      [[("/media", PDict []); ("/hdd", PDict [("a", PInt 1)])]]
      (DictionarySet.mkDictionarySet 0 0 None false)
    = Ret (h', s')
        (repeat Changed
           (List.length
              (filter (fun kv => empty (snd kv))
                 (DictionarySet.deref
                    [[("/media", PDict []); ("/hdd", PDict [("a", PInt 1)])]]
                    (DictionarySet.dirs
                       (DictionarySet.mkDictionarySet 0 0 None false))))))
    /\ DictionarySet.dirs s'
       = DictionarySet.dirs (DictionarySet.mkDictionarySet 0 0 None false)
    /\ DictionarySet.default s'
       = DictionarySet.default (DictionarySet.mkDictionarySet 0 0 None false)
    /\ DictionarySet.deref h' (DictionarySet.dirs s')
       = filter (fun kv => negb (empty (snd kv)))
           (DictionarySet.deref
              [[("/media", PDict []); ("/hdd", PDict [("a", PInt 1)])]]
              (DictionarySet.dirs (DictionarySet.mkDictionarySet 0 0 None false)))
    /\ DictionarySet.saved_value s'
       = Some (DictionarySet.tostring
                 (DictionarySet.deref h' (DictionarySet.dirs s')))
    /\ DictionarySet.save h' s' = Ret (h', s') [].
Proof.
  apply (dictionary_save
           [[("/media", PDict []); ("/hdd", PDict [("a", PInt 1)])]]
           (DictionarySet.mkDictionarySet 0 0 None false)).
  - cbn. lia.
  - cbn. repeat constructor; cbn; intuition discriminate.
  - reflexivity.
Defined.

(** ** The lists of a sequence as objects *)

Section SharedLists.

Import Sequence.

(** The handlers do not read the default. *)
Lemma validatePos_default d s :
  validatePos (with_default d s) = with_default d (validatePos s).
Proof.
  destruct s as [sp li df va mp en]. unfold validatePos, with_default, set_marked_pos.
  cbn [seperator limits default _value marked_pos endNotifier].
  destruct (mp <? 0); cbn [seperator limits default _value marked_pos endNotifier];
    destruct (_ >=? _); reflexivity.
Qed.

Lemma validate_default d s :
  validate (with_default d s)
  = match validate s with
    | Ret r evs => Ret (with_default d r) evs
    | Exc e => Exc e
    | Fuel => Fuel
    end.
Proof.
  destruct s as [sp li df va mp en]. unfold validate, with_default, set_marked_pos, set_value.
  cbn [seperator limits default _value marked_pos endNotifier].
  destruct (validate_loop _ _ _ _ _) as [[v m] e| |]; cbn [bind fst snd]; try reflexivity.
  cbn [seperator limits default _value marked_pos endNotifier].
  destruct (mp >=? m).
  - rewrite call_end_notifiers_eq. cbn [bind ret].
    cbn [seperator limits default _value marked_pos endNotifier].
    destruct (m - 1 <? 0); reflexivity.
  - cbn [bind ret]. cbn [seperator limits default _value marked_pos endNotifier].
    destruct (mp <? 0); reflexivity.
Qed.

Lemma handleKey_default d a s :
  Sequence.handleKey a (with_default d s)
  = match Sequence.handleKey a s with
    | Ret r evs => Ret (with_default d r) evs
    | Exc e => Exc e
    | Fuel => Fuel
    end.
Proof.
  unfold Sequence.handleKey.
  destruct (act_key a =? ACTIONKEY_FIRST).
  { change (set_marked_pos 0 (with_default d s))
      with (with_default d (set_marked_pos 0 s)).
    now rewrite validatePos_default. }
  destruct (act_key a =? ACTIONKEY_LEFT).
  { change (set_marked_pos (marked_pos (with_default d s) - 1) (with_default d s))
      with (with_default d (set_marked_pos (marked_pos s - 1) s)).
    now rewrite validatePos_default. }
  destruct (act_key a =? ACTIONKEY_RIGHT).
  { change (set_marked_pos (marked_pos (with_default d s) + 1) (with_default d s))
      with (with_default d (set_marked_pos (marked_pos s + 1) s)).
    now rewrite validatePos_default. }
  destruct (act_key a =? ACTIONKEY_LAST).
  { change (_value (with_default d s)) with (_value s).
    change (limits (with_default d s)) with (limits s).
    destruct (last_loop _ _ _ _) as [m e| |]; cbn [bind ret]; try reflexivity.
    change (set_marked_pos (m - 1) (with_default d s))
      with (with_default d (set_marked_pos (m - 1) s)).
    now rewrite validatePos_default. }
  destruct (in_ACTIONKEY_NUMBERS (act_key a) || (act_key a =? ACTIONKEY_ASCII));
    [|reflexivity].
  destruct (digit_of a) as [[u|number] e| |]; cbn [bind ret]; try reflexivity.
  change (_value (with_default d s)) with (_value s).
  change (limits (with_default d s)) with (limits s).
  change (marked_pos (with_default d s)) with (marked_pos s).
  destruct (find_block _ _ _ _ _ _) as [r e1| |]; cbn [bind]; try reflexivity.
  destruct (getitem (limits s) (fst r)) as [lim e2| |]; cbn [bind]; try reflexivity.
  destruct (getitem (snd r) (fst r)) as [blt e3| |]; cbn [bind]; try reflexivity.
  destruct (getitem (_value s) (fst r)) as [v e4| |]; cbn [bind]; try reflexivity.
  destruct (pow10 _) as [hi e5| |]; cbn [bind]; try reflexivity.
  destruct (pow10 _) as [lo e6| |]; cbn [bind]; try reflexivity.
  destruct (setitem _ _ _) as [value e7| |]; cbn [bind]; try reflexivity.
  change (set_marked_pos (marked_pos s + 1) (set_value value (with_default d s)))
    with (with_default d (set_marked_pos (marked_pos s + 1) (set_value value s))).
  rewrite validate_default.
  destruct (validate _) as [s1 e8| |]; cbn [bind emit ret]; reflexivity.
Qed.

Lemma handleKeys_default d acts : forall s,
  handleKeys acts (with_default d s)
  = match handleKeys acts s with
    | Ret r evs => Ret (with_default d r) evs
    | Exc e => Exc e
    | Fuel => Fuel
    end.
Proof.
  induction acts as [|a acts IH]; intros s; [reflexivity|].
  cbn [handleKeys]. rewrite handleKey_default.
  destruct (Sequence.handleKey a s) as [s1 e1| |]; cbn [bind]; try reflexivity.
  rewrite IH. destruct (handleKeys acts s1) as [s2 e2| |]; reflexivity.
Qed.

Lemma refs_deref_assign (h : Refs.heap) a l :
  (a < List.length h)%nat -> Refs.deref (Refs.assign h a l) a = l.
Proof.
  intros Ha. unfold Refs.deref, Refs.assign.
  pose proof (nth_error_update_same h a l Ha) as E.
  now apply nth_error_nth.
Qed.

Lemma refs_assign_deref (h : Refs.heap) a : Refs.assign h a (Refs.deref h a) = h.
Proof.
  unfold Refs.assign, Refs.deref. revert a.
  induction h as [|d h IH]; intros [|a]; cbn; try reflexivity.
  now rewrite IH.
Qed.

Lemma refs_assign_twice (h : Refs.heap) a l l' :
  Refs.assign (Refs.assign h a l) a l' = Refs.assign h a l'.
Proof.
  unfold Refs.assign. revert a.
  induction h as [|d h IH]; intros [|a]; cbn; try reflexivity.
  now rewrite IH.
Qed.

(** The keys on the element with list objects do to the list of
    [self._value] what they do to its items. *)
Lemma refs_handleKeys_spec acts : forall h s v evs,
  (Refs._value s < List.length h)%nat ->
  handleKeys acts (Refs.contents h s) = Ret v evs ->
  refs_handleKeys acts h s
  = Ret (Refs.assign h (Refs._value s) (_value v), Refs.absorb v s) evs.
Proof.
  induction acts as [|a acts IH]; intros h s v evs Ha H.
  - cbn [handleKeys] in H. injection H as <- <-. cbn [refs_handleKeys].
    unfold ret. f_equal. f_equal.
    + cbn. now rewrite refs_assign_deref.
    + now destruct s.
  - cbn [handleKeys] in H. apply bind_Ret_inv in H.
    destruct H as (v1 & e1 & e2 & H1 & H2 & ->).
    cbn [refs_handleKeys]. unfold Refs.handleKey. rewrite H1. cbn [bind ret fst snd].
    set (h1 := Refs.assign h (Refs._value s) (_value v1)).
    set (s1 := Refs.absorb v1 s).
    assert (Hc : Refs.contents h1 s1
                 = with_default (Refs.deref h1 (Refs.default s)) v1).
    { unfold Refs.contents, with_default, s1, h1. cbn.
      now rewrite refs_deref_assign. }
    pose proof (handleKeys_default (Refs.deref h1 (Refs.default s)) acts v1) as Hd.
    rewrite H2, <- Hc in Hd.
    assert (Ha1 : (Refs._value s1 < List.length h1)%nat).
    { unfold h1, Refs.assign. now rewrite update_length. }
    rewrite (IH h1 s1 _ e2 Ha1 Hd).
    rewrite app_nil_r. f_equal. f_equal.
    unfold h1, s1. cbn. apply refs_assign_twice.
Qed.

Lemma list_Z_eqb_refl l : list_Z_eqb l l = true.
Proof. induction l as [|x l IH]; cbn; [reflexivity|]. now rewrite Z.eqb_refl. Qed.

End SharedLists.

(** X20. [load()] and [cancel()] of a [ConfigSequence] without a saved value
    store the default list itself as the value, not a copy.  The keys that
    are handled afterwards edit the value as they always do, and the
    default with it: the two stay equal, so [save()] stores nothing
    ([saved_value] is [None]) and [isChanged()] returns [False], whatever
    was typed. *)
Theorem sequence_edits_reach_the_default (h : Refs.heap) (s : Refs.ConfigSequence)
    (acts : list action) :
  (Refs.default s < List.length h)%nat ->
  Refs.saved_value s = None ->
  Refs.save_forced s = false ->
  well_formed (Refs.limits s) (Refs.deref h (Refs.default s)) ->
  0 <= Refs.marked_pos s < total_len (Refs.limits s) ->
  exists s1 ev1 v ev2 h2 s2 s3 ev3,
    Refs.cancel h s = Ret (h, s1) ev1
    /\ handleKeys acts (Refs.contents h s1) = Ret v ev2
    /\ refs_handleKeys acts h s1 = Ret (h2, s2) ev2
    /\ Refs.deref h2 (Refs._value s2) = Sequence._value v
    /\ Refs.deref h2 (Refs.default s2) = Sequence._value v
    /\ Refs.save h2 s2 = Ret s3 ev3
    /\ Refs.saved_value s3 = None
    /\ Refs.isChanged h2 s2 = false.
Proof.
  intros Ha Hsv Hf Hwf Hmp.
  set (s1 := Refs.set__value (Refs.default s) s).
  assert (Hok : seq_ok (Refs.contents h s1)) by (split; assumption).
  destruct (seq_handleKeys_reach acts _ Hok) as (v & ev2 & Hv & _).
  assert (Ha1 : (Refs._value s1 < List.length h)%nat) by exact Ha.
  pose proof (refs_handleKeys_spec acts h s1 v ev2 Ha1 Hv) as Hr.
  set (h2 := Refs.assign h (Refs._value s1) (Sequence._value v)) in *.
  set (s2 := Refs.absorb v s1) in *.
  assert (Hd : Refs.deref h2 (Refs._value s2) = Sequence._value v)
    by (apply refs_deref_assign; exact Ha).
  assert (Hs : Refs.save h2 s2
               = Ret (Refs.set_saved_value None s2)
                     (if Refs.callNotifiersOnSaveAndCancel s then [ChangedFinal] else [])).
  { unfold Refs.save. change (Refs.default s2) with (Refs._value s2).
    rewrite list_Z_eqb_refl. change (Refs.save_forced s2) with (Refs.save_forced s).
    rewrite Hf, orb_true_r.
    change (Refs.callNotifiersOnSaveAndCancel (Refs.set_saved_value None s2))
      with (Refs.callNotifiersOnSaveAndCancel s).
    now destruct (Refs.callNotifiersOnSaveAndCancel s). }
  exists s1, (Changed :: if Refs.callNotifiersOnSaveAndCancel s
                         then [ChangedFinal] else []),
    v, ev2, h2, s2, (Refs.set_saved_value None s2),
    (if Refs.callNotifiersOnSaveAndCancel s then [ChangedFinal] else []).
  split.
  { unfold Refs.cancel, Refs.load, Refs.setValue. rewrite Hsv. cbn [bind emit ret].
    destruct (Refs.callNotifiersOnSaveAndCancel s); reflexivity. }
  split; [exact Hv|]. split; [exact Hr|]. split; [exact Hd|].
  split; [exact Hd|]. split; [exact Hs|]. split; [reflexivity|].
  unfold Refs.isChanged. change (Refs.saved_value s2) with (Refs.saved_value s).
  rewrite Hsv. change (Refs.default s2) with (Refs._value s2).
  now rewrite String.eqb_refl.
Qed.

Lemma sequence_edits_reach_the_default_witness :
  exists s1 ev1 v ev2 h2 s2 s3 ev3,
    Refs.cancel [[10; 20]; [1; 2]]
      (Refs.mkRefs "," [(0, 255); (0, 255)] 0 1 0 0 None false false false)
    = Ret ([[10; 20]; [1; 2]], s1) ev1
    /\ handleKeys [Action (ACTIONKEY_0 + 1) 0] (Refs.contents [[10; 20]; [1; 2]] s1)
       = Ret v ev2
    /\ refs_handleKeys [Action (ACTIONKEY_0 + 1) 0] [[10; 20]; [1; 2]] s1
       = Ret (h2, s2) ev2
    /\ Refs.deref h2 (Refs._value s2) = Sequence._value v
    /\ Refs.deref h2 (Refs.default s2) = Sequence._value v
    /\ Refs.save h2 s2 = Ret s3 ev3
    /\ Refs.saved_value s3 = None
    /\ Refs.isChanged h2 s2 = false.
Proof.
  apply (sequence_edits_reach_the_default [[10; 20]; [1; 2]]
           (Refs.mkRefs "," [(0, 255); (0, 255)] 0 1 0 0 None false false false)
           [Action (ACTIONKEY_0 + 1) 0]).
  - cbn. lia.
  - reflexivity.
  - reflexivity.
  - repeat split; try discriminate; repeat constructor; cbn; lia.
  - cbn. lia.
Defined.

(** ** Notifiers *)

Section NotifierFacts.

Import Notifiers.

Lemma delete_at_app {A} (pre : list A) e post :
  delete_at (List.length pre) (pre ++ e :: post) = pre ++ post.
Proof. induction pre as [|a pre IH]; cbn; [reflexivity | now rewrite IH]. Qed.

Lemma nth_error_app_mid {A} (pre : list A) e post :
  nth_error (pre ++ e :: post) (List.length pre) = Some e.
Proof. induction pre as [|a pre IH]; cbn; [reflexivity | exact IH]. Qed.

(** Once the list is shorter than the range, the loop runs off its end. *)
Lemma loop_short x n : forall i l,
  (0 < n)%nat -> (List.length l < i + n)%nat ->
  removeExtraArgs_loop x n i l = Exc IndexError.
Proof.
  induction n as [|n IH]; intros i l Hn Hl; [lia|].
  cbn [removeExtraArgs_loop].
  destruct (nth_error l i) as [e|] eqn:E; [|reflexivity].
  assert (Hi : (i < List.length l)%nat) by (apply nth_error_Some; congruence).
  apply IH; [lia|].
  destruct (fst e =? x)%nat; [|lia].
  assert (List.length (delete_at i l) <= List.length l)%nat; [|lia].
  clear. revert i. induction l as [|a l IHl]; intros [|i]; cbn; try lia.
  specialize (IHl i). lia.
Qed.

Lemma loop_raises x a post : forall mid pre,
  post <> [] ->
  removeExtraArgs_loop x (List.length (mid ++ (x, a) :: post)) (List.length pre)
    (pre ++ mid ++ (x, a) :: post) = Exc IndexError.
Proof.
  induction mid as [|e mid IH]; intros pre Hp.
  - cbn [List.app List.length removeExtraArgs_loop].
    rewrite nth_error_app_mid. cbn [fst]. rewrite Nat.eqb_refl, delete_at_app.
    apply loop_short.
    + destruct post; [contradiction | cbn; lia].
    + rewrite length_app. lia.
  - cbn [List.app List.length removeExtraArgs_loop].
    rewrite nth_error_app_mid.
    destruct (fst e =? x)%nat.
    + rewrite delete_at_app. apply loop_short.
      * rewrite length_app. cbn. lia.
      * rewrite !length_app. cbn. lia.
    + replace (S (List.length pre)) with (List.length (pre ++ [e]))
        by (rewrite length_app; cbn; lia).
      replace (pre ++ e :: mid ++ (x, a) :: post)
        with ((pre ++ [e]) ++ mid ++ (x, a) :: post)
        by (rewrite <- app_assoc; reflexivity).
      now apply IH.
Qed.

Lemma loop_keeps x : forall rest pre,
  (forall e, In e rest -> fst e <> x) ->
  removeExtraArgs_loop x (List.length rest) (List.length pre) (pre ++ rest)
  = ret (pre ++ rest).
Proof.
  induction rest as [|e rest IH]; intros pre Hn; [reflexivity|].
  cbn [List.length removeExtraArgs_loop]. rewrite nth_error_app_mid.
  assert (E : (fst e =? x)%nat = false)
    by (apply Nat.eqb_neq, Hn; now left).
  rewrite E.
  replace (S (List.length pre)) with (List.length (pre ++ [e]))
    by (rewrite length_app; cbn; lia).
  replace (pre ++ e :: rest) with ((pre ++ [e]) ++ rest)
    by (rewrite <- app_assoc; reflexivity).
  rewrite IH; [now rewrite <- app_assoc|]. intros e' He'. apply Hn. now right.
Qed.

Lemma loop_last x a : forall mid pre,
  (forall e, In e mid -> fst e <> x) ->
  removeExtraArgs_loop x (List.length (mid ++ [(x, a)])) (List.length pre)
    (pre ++ mid ++ [(x, a)]) = ret (pre ++ mid).
Proof.
  induction mid as [|e mid IH]; intros pre Hn.
  - cbn [List.app List.length removeExtraArgs_loop].
    rewrite nth_error_app_mid. cbn [fst]. rewrite Nat.eqb_refl, delete_at_app.
    reflexivity.
  - cbn [List.app List.length removeExtraArgs_loop]. rewrite nth_error_app_mid.
    assert (E : (fst e =? x)%nat = false)
      by (apply Nat.eqb_neq, Hn; now left).
    rewrite E.
    replace (S (List.length pre)) with (List.length (pre ++ [e]))
      by (rewrite length_app; cbn; lia).
    replace (pre ++ e :: mid ++ [(x, a)]) with ((pre ++ [e]) ++ mid ++ [(x, a)])
      by (rewrite <- app_assoc; reflexivity).
    rewrite IH; [now rewrite <- app_assoc|]. intros e' He'. apply Hn. now right.
Qed.

(** The containers after the first two statements of [removeNotifier]. *)
Lemma removeNotifier_eq x s :
  removeNotifier x s
  = __removeExtraArgs x
      (mkNotified
         (discard (match __notifiers s with Unset => Listed [] | c => c end) x)
         (discard (match __notifiers_final s with Unset => Listed [] | c => c end) x)
         (extra_args s)).
Proof.
  destruct s as [c1 c2 l]. unfold removeNotifier, getNotifiers, getNotifiersFinal.
  cbn [__notifiers __notifiers_final extra_args set_notifiers set_notifiers_final].
  destruct c1, c2; reflexivity.
Qed.

Lemma getExtraArgs_app x l l' :
  __getExtraArgs x (l ++ l')
  = match __getExtraArgs x l with
    | Some a => Some a
    | None => __getExtraArgs x l'
    end.
Proof.
  induction l as [|e l IH]; [reflexivity|].
  cbn [List.app __getExtraArgs]. now destruct (fst e =? x)%nat.
Qed.

End NotifierFacts.

(** X21. [removeNotifier] and the extra arguments.  A notifier with an
    entry in [extra_args] that is not the last one cannot be removed:
    [__removeExtraArgs] deletes the entry while it runs through
    [range(len(self.extra_args))], and the last index raises [IndexError].
    A notifier without an entry, or with one entry that is the last, is
    removed: its first occurrence is taken from [notifiers] and from
    [notifiers_final], and its entry from [extra_args]. *)
Theorem removeNotifier_extra_args (x : Notifiers.notifier)
    (c c_final : Notifiers.container)
    (pre post : list (Notifiers.notifier * pyval)) (a : pyval)
    (e : Notifiers.notifier * pyval) :
  Notifiers.removeNotifier x
    (Notifiers.mkNotified c c_final (pre ++ (x, a) :: e :: post)) = Exc IndexError
  /\ ((forall e', In e' pre -> fst e' <> x) ->
      Notifiers.removeNotifier x (Notifiers.mkNotified c c_final (pre ++ [(x, a)]))
      = ret (Notifiers.mkNotified
               (Notifiers.discard
                  (match c with Notifiers.Unset => Notifiers.Listed [] | _ => c end) x)
               (Notifiers.discard
                  (match c_final with
                   | Notifiers.Unset => Notifiers.Listed []
                   | _ => c_final
                   end) x)
               pre)
      /\ Notifiers.removeNotifier x (Notifiers.mkNotified c c_final pre)
         = ret (Notifiers.mkNotified
                  (Notifiers.discard
                     (match c with Notifiers.Unset => Notifiers.Listed [] | _ => c end) x)
                  (Notifiers.discard
                     (match c_final with
                      | Notifiers.Unset => Notifiers.Listed []
                      | _ => c_final
                      end) x)
                  pre)).
Proof.
  split.
  - rewrite removeNotifier_eq. unfold Notifiers.__removeExtraArgs.
    cbn [Notifiers.extra_args].
    pose proof (loop_raises x a (e :: post) pre [] ltac:(discriminate)) as E.
    cbn [List.app] in E.
    change (List.length (@nil (Notifiers.notifier * pyval))) with 0%nat in E.
    rewrite E. reflexivity.
  - intros Hn. split.
    + rewrite removeNotifier_eq. unfold Notifiers.__removeExtraArgs.
      cbn [Notifiers.extra_args Notifiers.__notifiers Notifiers.__notifiers_final].
      pose proof (loop_last x a pre [] Hn) as E. cbn [List.length List.app] in E.
      change (List.length (@nil (Notifiers.notifier * pyval))) with 0%nat in E.
      rewrite E, bind_ret_l. destruct c, c_final; reflexivity.
    + rewrite removeNotifier_eq. unfold Notifiers.__removeExtraArgs.
      cbn [Notifiers.extra_args Notifiers.__notifiers Notifiers.__notifiers_final].
      pose proof (loop_keeps x pre [] Hn) as E. cbn [List.length List.app] in E.
      change (List.length (@nil (Notifiers.notifier * pyval))) with 0%nat in E.
      rewrite E, bind_ret_l. destruct c, c_final; reflexivity.
Qed.

(** X22. [clearNotifiers] assigns empty dicts where [addNotifier] expects
    lists: after it every [addNotifier] raises [AttributeError] and
    [changed()] and [changedFinal()] call nothing.  On an element whose
    notifiers are [None] or a list, [addNotifier] returns, and [changed()]
    then calls the notifiers registered before, in their order, and the
    new one after them; the extra arguments a call passes are those of the
    first entry the notifier has in [extra_args], so a second registration
    of a notifier does not change what it is called with. *)
Theorem notifiers_after_clear_and_add (s : Notifiers.ConfigElement)
    (x : Notifiers.notifier) (initial_call immediate_feedback : bool)
    (args : option pyval) (l : list Notifiers.notifier) (a : pyval) :
  Notifiers.addNotifier x initial_call immediate_feedback args
    (Notifiers.clearNotifiers s) = Exc AttributeError
  /\ Notifiers.changed (Notifiers.clearNotifiers s) = []
  /\ Notifiers.changedFinal (Notifiers.clearNotifiers s) = []
  /\ (Notifiers.__notifiers s = Notifiers.Unset /\ l = []
      \/ Notifiers.__notifiers s = Notifiers.Listed l ->
      exists s',
        Notifiers.addNotifier x initial_call true (Some a) s
        = ret (s', if initial_call
                   then [Notifiers.Call x (if truthy a then Some a else None)]
                   else [])
        /\ Notifiers.changed s'
           = map (fun y =>
                    Notifiers.Call y
                      (match Notifiers.__getExtraArgs y (Notifiers.extra_args s) with
                       | Some b => Some b
                       | None => if (x =? y)%nat then Some a else None
                       end)) (l ++ [x])).
Proof.
  split; [|split; [|split]].
  - destruct s as [c1 c2 ea]. unfold Notifiers.addNotifier, Notifiers.clearNotifiers.
    destruct args, immediate_feedback; reflexivity.
  - reflexivity.
  - reflexivity.
  - intros H.
    assert (E : Notifiers.getNotifiers (Notifiers.__addExtraArgs x a s)
                = (Notifiers.Listed l,
                   Notifiers.set_notifiers (Notifiers.Listed l)
                     (Notifiers.__addExtraArgs x a s))).
    { destruct s as [c1 c2 ea]. cbn in H. unfold Notifiers.getNotifiers.
      cbn. destruct H as [[-> ->]| ->]; reflexivity. }
    eexists. split.
    + unfold Notifiers.addNotifier. rewrite E. cbn [Notifiers.append].
      rewrite !bind_ret_l. reflexivity.
    + unfold Notifiers.changed. cbn. apply map_ext. intros y.
      rewrite getExtraArgs_app. cbn. rewrite (Nat.eqb_sym x y). reflexivity.
Qed.

Lemma notifiers_after_clear_and_add_witness :
  Notifiers.addNotifier 1%nat true true None (Notifiers.clearNotifiers Notifiers.init)
  = Exc AttributeError
  /\ exists s',
       Notifiers.addNotifier 1%nat true true (Some (PInt 0))
         (Notifiers.mkNotified (Notifiers.Listed [1%nat]) Notifiers.Unset
            [(1%nat, PInt 7)])
       = ret (s', [Notifiers.Call 1%nat None])
       /\ Notifiers.changed s'
          = [Notifiers.Call 1%nat (Some (PInt 7)); Notifiers.Call 1%nat (Some (PInt 7))].
Proof.
  pose proof (notifiers_after_clear_and_add Notifiers.init 1%nat true true None []
                PNone) as (H1 & _).
  split; [exact H1|].
  pose proof (notifiers_after_clear_and_add
                (Notifiers.mkNotified (Notifiers.Listed [1%nat]) Notifiers.Unset
                   [(1%nat, PInt 7)]) 1%nat true true None [1%nat] (PInt 0))
    as (_ & _ & _ & H4).
  destruct (H4 (or_intror eq_refl)) as (s' & E1 & E2).
  exists s'. split; [exact E1 | exact E2].
Defined.

(** ** The text of an address *)

Section AddressTextFacts.

Import Sequence AddressText.

Variable sep : string.

Lemma join_snoc (l : list string) x :
  l <> [] -> join sep (l ++ [x]) = (join sep l ++ sep ++ x)%string.
Proof.
  induction l as [|p l IH]; intros Hl; [contradiction|].
  destruct l as [|q l].
  - reflexivity.
  - change ((p :: q :: l) ++ [x]) with (p :: (q :: l) ++ [x]).
    change ((q :: l) ++ [x]) with (q :: l ++ [x]) at 1.
    rewrite !join_cons. change (q :: l ++ [x]) with ((q :: l) ++ [x]).
    rewrite IH by discriminate. now rewrite !append_assoc.
Qed.

Lemma join_str_nonempty (done : list Z) :
  done <> [] -> join sep (map str_of_Z done) <> ""%string.
Proof.
  destruct done as [|i done]; intros H; [contradiction|].
  cbn [map]. apply join_nonempty, str_of_Z_nonempty.
Qed.

Lemma genText_loop_spec : forall todo done,
  done <> [] ->
  genText_loop sep todo (join sep (map str_of_Z done)) (map str_len done)
  = (join sep (map str_of_Z (done ++ todo)), map str_len (done ++ todo)).
Proof.
  induction todo as [|i todo IH]; intros done Hd.
  - now rewrite app_nil_r.
  - cbn [genText_loop].
    destruct (String.eqb_spec (join sep (map str_of_Z done)) "") as [E|_].
    { now apply join_str_nonempty in E. }
    cbn [negb].
    replace ((join sep (map str_of_Z done) ++ sep) ++ str_of_Z i)%string
      with (join sep (map str_of_Z (done ++ [i]))).
    + replace (map str_len done ++ [str_len i]) with (map str_len (done ++ [i]))
        by now rewrite map_app.
      rewrite IH by (destruct done; discriminate).
      now rewrite <- app_assoc.
    + rewrite map_app. cbn [map]. rewrite join_snoc.
      * now rewrite append_assoc.
      * destruct done; [contradiction | discriminate].
Qed.

Lemma genText_loop_start vals :
  genText_loop sep vals "" [] = (join sep (map str_of_Z vals), map str_len vals).
Proof.
  destruct vals as [|i vals]; [reflexivity|].
  cbn [genText_loop]. cbn [String.eqb negb List.app].
  change (("" ++ str_of_Z i)%string) with (join sep (map str_of_Z [i])).
  change [str_len i] with (map str_len [i]).
  now rewrite genText_loop_spec by discriminate.
Qed.


Lemma join_after v post :
  join sep (map str_of_Z (v :: post)) = (str_of_Z v ++ after sep post)%string.
Proof.
  revert v. induction post as [|q post IH]; intros v.
  - cbn. now rewrite append_nil_r.
  - cbn [map]. rewrite join_cons. cbn [after]. f_equal. f_equal. apply (IH q).
Qed.

Lemma join_split pre v post :
  join sep (map str_of_Z (pre ++ v :: post))
  = (before sep pre ++ str_of_Z v ++ after sep post)%string.
Proof.
  induction pre as [|p pre IH].
  - apply join_after.
  - change (map str_of_Z ((p :: pre) ++ v :: post))
      with (str_of_Z p :: map str_of_Z (pre ++ v :: post)).
    destruct (map str_of_Z (pre ++ v :: post)) as [|q l] eqn:E.
    { destruct pre; discriminate. }
    rewrite join_cons, IH. cbn [before]. now rewrite !append_assoc.
Qed.

Lemma sum_acc l : forall a, fold_left Z.add l a = a + sum l.
Proof.
  unfold sum. induction l as [|x l IH]; intros a; cbn [fold_left]; [lia|].
  rewrite (IH (a + x)), (IH (0 + x)). lia.
Qed.

Lemma sum_cons x l : sum (x :: l) = x + sum l.
Proof. unfold sum at 1. cbn [fold_left]. rewrite sum_acc. lia. Qed.

Lemma len_before pre :
  String.length sep = 1%nat ->
  Text.len (before sep pre) = sum (map str_len pre) + Z.of_nat (List.length pre).
Proof.
  intros Hs. induction pre as [|p pre IH]; [reflexivity|].
  cbn [before map List.length]. rewrite sum_cons, !len_app, IH.
  unfold Text.len at 2. rewrite Hs. unfold str_len, Text.len. lia.
Qed.

Lemma upto_firstn {A} (l : list A) (n : nat) :
  (n <= List.length l)%nat -> upto l (Z.of_nat n) = firstn n l.
Proof.
  intros H. unfold upto. rewrite slice_bound_in by lia. now rewrite Nat2Z.id.
Qed.

Lemma firstn_app_exact {A} (l l' : list A) : firstn (List.length l) (l ++ l') = l.
Proof. induction l as [|a l IH]; cbn; [now destruct l' | now rewrite IH]. Qed.

Lemma slice_middle (p m q : string) :
  Text.slice (p ++ m ++ q) (Text.len p) (Some (Text.len p + Text.len m)) = m.
Proof.
  unfold Text.slice.
  pose proof (len_nonneg p). pose proof (len_nonneg m). pose proof (len_nonneg q).
  rewrite !len_app. rewrite !slice_bound_in by lia.
  replace (Text.len p + Text.len m - Text.len p) with (Text.len m) by lia.
  unfold Text.len. rewrite !Nat2Z.id. now rewrite str_drop_app, str_take_app.
Qed.

End AddressTextFacts.

(** X23. The marked columns of a [ConfigIP]: with a separator of one
    character, as "." is, and the marked block on a field, [genText]
    returns the fields joined by the separator, and the range it marks holds
    exactly the digits of the field of the marked block. *)
Theorem ip_genText_marks_the_block (s : IP.ConfigIP) (b : nat) (v : Z) :
  String.length (Sequence.seperator (IP.seq s)) = 1%nat ->
  IP.marked_block s = Z.of_nat b ->
  nth_error (Sequence._value (IP.seq s)) b = Some v ->
  exists value leftPos rightPos,
    AddressText.genText s = (value, (leftPos, rightPos))
    /\ value = Sequence.tostring (Sequence.seperator (IP.seq s))
                 (Sequence._value (IP.seq s))
    /\ 0 <= leftPos /\ rightPos <= Text.len value
    /\ rightPos - leftPos = str_len v
    /\ Text.slice value leftPos (Some rightPos) = str_of_Z v.
Proof.
  intros Hs Hb Hv.
  destruct (nth_error_split _ _ Hv) as (pre & post & Hl & Hn).
  set (sep := Sequence.seperator (IP.seq s)) in *.
  unfold AddressText.genText. fold sep. rewrite genText_loop_start. cbn [fst snd].
  rewrite Hb, Hl.
  assert (Hlen : (b + 1 <= List.length (map str_len (pre ++ v :: post)))%nat).
  { rewrite length_map, length_app. cbn. lia. }
  replace (Z.of_nat b + 1) with (Z.of_nat (b + 1)) by lia.
  rewrite !upto_firstn by lia.
  assert (F1 : firstn b (map str_len (pre ++ v :: post)) = map str_len pre).
  { rewrite map_app. rewrite <- Hn, <- (length_map str_len pre).
    apply firstn_app_exact. }
  assert (F2 : firstn (b + 1) (map str_len (pre ++ v :: post))
               = map str_len pre ++ [str_len v]).
  { rewrite map_app. cbn [map].
    replace (map str_len pre ++ str_len v :: map str_len post)
      with ((map str_len pre ++ [str_len v]) ++ map str_len post)
      by (rewrite <- app_assoc; reflexivity).
    replace (b + 1)%nat with (List.length (map str_len pre ++ [str_len v]))
      by (rewrite length_app, length_map; cbn; lia).
    apply firstn_app_exact. }
  rewrite F1, F2.
  assert (Hsum : Sequence.sum (map str_len pre ++ [str_len v])
                 = Sequence.sum (map str_len pre) + str_len v).
  { unfold Sequence.sum. rewrite fold_left_app. cbn [fold_left]. reflexivity. }
  rewrite Hsum.
  pose proof (len_before sep pre Hs) as Hp. rewrite Hn in Hp.
  eexists _, _, _. split; [reflexivity|].
  split; [reflexivity|].
  rewrite join_split.
  pose proof (len_nonneg (before sep pre)).
  pose proof (len_nonneg (after sep post)).
  assert (Hvl : Text.len (str_of_Z v) = str_len v) by reflexivity.
  split; [lia|]. split; [rewrite !len_app; lia|]. split; [lia|].
  replace (Sequence.sum (map str_len pre) + Z.of_nat b) with (Text.len (before sep pre))
    by lia.
  replace (Sequence.sum (map str_len pre) + str_len v + Z.of_nat b)
    with (Text.len (before sep pre) + Text.len (str_of_Z v)) by lia.
  apply slice_middle.
Qed.

Lemma ip_genText_marks_the_block_witness :
  exists value leftPos rightPos,
    AddressText.genText
      (IP.mkIP (Sequence.mkSeq "." IP.ip_limits [192; 168; 1; 1] [192; 168; 1; 20] 0 0)
         [3; 3; 3; 3] 3 true false)
    = (value, (leftPos, rightPos))
    /\ value = Sequence.tostring "." [192; 168; 1; 20]
    /\ 0 <= leftPos /\ rightPos <= Text.len value
    /\ rightPos - leftPos = str_len 20
    /\ Text.slice value leftPos (Some rightPos) = str_of_Z 20.
Proof.
  apply (ip_genText_marks_the_block
           (IP.mkIP (Sequence.mkSeq "." IP.ip_limits [192; 168; 1; 1] [192; 168; 1; 20]
                       0 0) [3; 3; 3; 3] 3 true false) 3 20).
  - reflexivity.
  - reflexivity.
  - reflexivity.
Defined.

(** ** Resolving a key *)

Section ResolveFacts.

Import Tree Resolve.

Variable object_str : node -> string.

Lemma enumerated_get (items : list node) : forall i0 i,
  dict_get (str_of_nat (i0 + i))
    (map (fun iv => (str_of_nat (fst iv), snd iv)) (enumerate_from i0 items))
  = nth_error items i.
Proof.
  induction items as [|c items IH]; intros i0 i.
  - cbn. now destruct i.
  - cbn [enumerate_from map fst snd dict_get]. destruct i as [|i].
    + rewrite Nat.add_0_r, String.eqb_refl. reflexivity.
    + destruct (String.eqb_spec (str_of_nat (i0 + S i)) (str_of_nat i0)) as [E|_].
      * unfold str_of_nat in E. apply str_of_Z_inj in E. lia.
      * replace (i0 + S i)%nat with (S i0 + i)%nat by lia. apply IH.
Qed.

Lemma resolve_reaches names : forall n e c,
  reaches names n e -> names <> [] -> dict n = ret c ->
  __resolveValue object_str names c = ret (Some (str (Element.getValue e))).
Proof.
  induction names as [|k names IH]; intros n e c Hr Hne Hd; [contradiction|].
  assert (Hl : exists child, lookup k c = Some child /\ reaches names child e).
  { inversion Hr; subst; cbn in Hd; injection Hd as <-; cbn [lookup].
    - eauto.
    - eexists. split; [|eassumption].
      pose proof (enumerated_get items 0 i) as G. cbn [Nat.add] in G.
      rewrite G. assumption.
    - eauto. }
  destruct Hl as (child & Hl & Hc).
  cbn [__resolveValue]. rewrite Hl.
  destruct names as [|k' names'].
  - inversion Hc; subst. cbn [value_str]. now rewrite bind_ret_l.
  - assert (Hdc : exists c', dict child = ret c').
    { inversion Hc; subst; eexists; reflexivity. }
    destruct Hdc as (c' & Hdc). rewrite Hdc, bind_ret_l.
    apply (IH child e c' Hc); [discriminate | exact Hdc].
Qed.

Lemma split_config names :
  Forall dotless names ->
  split "." (join "." ("config" :: names)) = ret ("config" :: names).
Proof.
  intros H. unfold split. f_equal.
  apply (split_go_join "."%char "" names "config").
  constructor; [reflexivity | exact H].
Qed.

Lemma val_get_numbers k (items : list (pyval * node)) :
  Forall (fun kc => exists z, fst kc = PInt z) items ->
  val_get (PStr k) items = None.
Proof.
  induction 1 as [|[key c] items (z & Hz) _ IH]; [reflexivity|].
  cbn in Hz. subst. cbn [val_get eqb]. exact IH.
Qed.

End ResolveFacts.

(** X24. [getResolvedKey] finds an element by the names its line in the
    settings file has: for names without a dot that lead from the root
    through subsections (by name), lists (by the text of the position) and
    dicts (by a string key) to an element, the key made of "config" and the
    names resolves to the text of the value of the element.  The entries of
    a dict whose keys are numbers are not found, although [pickle] names
    them by the text of the key: every key below such a dict resolves to
    the empty string. *)
Theorem getResolvedKey_reaches (object_str : Tree.node -> string)
    (items : list (string * Tree.node)) (st : list (string * pyval))
    (names : list string) (e : Element.ConfigElement) :
  Forall dotless names ->
  reaches names (Tree.Subsection items st) e ->
  Resolve.getResolvedKey object_str items (join "." ("config" :: names))
  = ret (str (Element.getValue e))
  /\ forall k ditems dst more,
       dotless k -> Forall dotless more -> more <> [] ->
       dict_get k items = Some (Tree.SubDict ditems dst) ->
       Forall (fun kc => exists z, fst kc = PInt z) ditems ->
       Resolve.getResolvedKey object_str items (join "." ("config" :: k :: more))
       = ret "".
Proof.
  intros Hdot Hr. split.
  - assert (Hne : names <> []) by (inversion Hr; discriminate).
    unfold Resolve.getResolvedKey. rewrite split_config by exact Hdot.
    rewrite bind_ret_l.
    destruct names as [|k names]; [contradiction|].
    cbn [List.length]. 
    destruct (Z.ltb_spec 1 (Z.of_nat (S (S (List.length names))))) as [_|Hbad]; [|lia].
    cbn [String.eqb Ascii.eqb Bool.eqb].
    rewrite (resolve_reaches object_str (k :: names) _ e _ Hr Hne eq_refl).
    now rewrite bind_ret_l.
  - intros k ditems dst more Hk Hmore Hne Hget Hnum.
    unfold Resolve.getResolvedKey.
    rewrite split_config by (constructor; assumption).
    rewrite bind_ret_l. cbn [List.length].
    destruct (Z.ltb_spec 1 (Z.of_nat (S (S (List.length more))))) as [_|Hbad]; [|lia].
    cbn [String.eqb Ascii.eqb Bool.eqb].
    destruct more as [|m more]; [contradiction|].
    cbn [Resolve.__resolveValue Resolve.lookup]. rewrite Hget.
    cbn [Resolve.dict]. rewrite bind_ret_l.
    cbn [Resolve.__resolveValue Resolve.lookup].
    rewrite (val_get_numbers m ditems Hnum). reflexivity.
Qed.

Lemma getResolvedKey_reaches_witness :
  Resolve.getResolvedKey (fun _ => "")
    [("nim", Tree.SubList
               [Tree.Subsection
                  [("enabled", Tree.Elem (Element.ConfigBoolean_init (PBool true)))] []]
               [])]
    (join "." ["config"; "nim"; Tree.str_of_nat 0; "enabled"])
  = ret (str (Element.getValue (Element.ConfigBoolean_init (PBool true))))
  /\ forall k ditems dst more,
       dotless k -> Forall dotless more -> more <> [] ->
       dict_get k
         [("nim", Tree.SubList
                    [Tree.Subsection
                       [("enabled",
                         Tree.Elem (Element.ConfigBoolean_init (PBool true)))] []]
                    [])]
       = Some (Tree.SubDict ditems dst) ->
       Forall (fun kc => exists z, fst kc = PInt z) ditems ->
       Resolve.getResolvedKey (fun _ => "")
         [("nim", Tree.SubList
                    [Tree.Subsection
                       [("enabled",
                         Tree.Elem (Element.ConfigBoolean_init (PBool true)))] []]
                    [])]
         (join "." ("config" :: k :: more))
       = ret "".
Proof.
  apply (getResolvedKey_reaches (fun _ => "")
           [("nim", Tree.SubList
                      [Tree.Subsection
                         [("enabled",
                           Tree.Elem (Element.ConfigBoolean_init (PBool true)))] []]
                      [])]
           [] ["nim"; Tree.str_of_nat 0; "enabled"]
           (Element.ConfigBoolean_init (PBool true))).
  - repeat constructor.
  - eapply reaches_sub; [reflexivity|].
    eapply (reaches_list 0); [reflexivity|].
    eapply reaches_sub; [reflexivity|]. constructor.
Defined.

(** ** Late binding, by the kind of the child *)

Section LateBinding.

Import Choices Element Tree.
















End LateBinding.



